(** * ABySS: the paired de Bruijn graph driver and the read-pair merger

    A shallow embedding of
    - [Align/mergepairs.cc]   (module [MergePairs]): [bestBase], [mergeReads],
      [isGapless], [filterAlignments] and [alignFiles]; (module
      [AlignMain]): [main], its option loop and the names of the output files;
    - [PairedDBG/abyss-paired-dbg.cc] (module [PairedDBG]): [assemble],
      [removeLowCoverageContigs], [popBubbles], [write_graph] and the
      multi-k loop of [main].

    Machine integers are [Z] with their wrap-around written out; strings that
    are indexed are [list ascii]; a [std::vector] erased in place is a list
    with an integer cursor. *)

From Stdlib Require Import ZArith QArith Lia Bool Ascii String.
From stdpp Require Import base tactics option list strings pretty.

#[local] Open Scope Z_scope.

(** ** Machine arithmetic shared by both programs *)

Definition wrap32 (x : Z) : Z := x mod 2 ^ 32.
Definition wrap64 (x : Z) : Z := x mod 2 ^ 64.

(** [int(x)] for a [size_t] value [x]: the low 32 bits, two's complement. *)
Definition to_int (x : Z) : Z :=
  let y := wrap32 x in if y <? 2 ^ 31 then y else y - 2 ^ 32.

(** [x++] on an [unsigned] counter. *)
Definition incr32 (x : Z) : Z := wrap32 (x + 1).

Definition len {A} (l : list A) : Z := Z.of_nat (length l).

(** [v[i]] with the index checked: outside the range the C++ is undefined. *)
Definition at_ {A} (l : list A) (i : Z) : option A :=
  if (0 <=? i) && (i <? len l) then l !! Z.to_nat i else None.

(** [v[i] = x], same convention. *)
Definition set_at {A} (l : list A) (i : Z) (x : A) : option (list A) :=
  if (0 <=? i) && (i <? len l) then Some (<[Z.to_nat i := x]> l) else None.

(** [std::copy(src.begin() + from, src.begin() + upto, dst.begin() + pos)];
    [None] when one of the ranges leaves its container. *)
Definition copy {A} (src : list A) (from upto : Z) (dst : list A) (pos : Z)
  : option (list A) :=
  if (0 <=? from) && (from <=? upto) && (upto <=? len src)
     && (0 <=? pos) && (pos + (upto - from) <=? len dst)
  then Some (take (Z.to_nat pos) dst
             ++ take (Z.to_nat (upto - from)) (drop (Z.to_nat from) src)
             ++ drop (Z.to_nat (pos + (upto - from))) dst)
  else None.

Module MergePairs.

(** A nucleotide or quality string, indexed by position. *)
Definition Sequence := list ascii.

Record FastqRecord := mkFastq
  { id : string; comment : string; seq : Sequence; qual : list ascii }.

(** Modelled from the spec: the overlap record of [smith_waterman.h], which is
    not among the sources: the offset of the overlap on each read, the match
    count and the alignment length ([length()]); the offsets and the count are
    [unsigned], the length a [size_t]. *)
Record overlap_align := mkOverlap
  { overlap_t_pos : Z; overlap_h_pos : Z; overlap_match : Z; length_ : Z }.

Record Stats := mkStats
  { total_reads : Z; merged_reads : Z; unmerged_reads : Z; no_alignment : Z;
    too_many_aligns : Z; low_matches : Z; has_indel : Z; pid_low : Z }.

(** The three output files of [alignFiles] and its standard output. *)
Record Output := mkOutput
  { merged : list FastqRecord; unmerged1 : list FastqRecord;
    unmerged2 : list FastqRecord; cout : list (Z * Z) }.

Section Merge.

(** The integer value of a plain [char] (its signedness is the platform's). *)
Variable char_val : ascii -> Z.

(** [reverseComplement] of [Sequence.h] and the aligner [alignOverlap] of
    [smith_waterman.h] are called here and defined elsewhere. *)
Variable reverseComplement : Sequence -> Sequence.
Variable alignOverlap : Sequence -> Sequence -> list overlap_align.

(** [o.pid() < opt::identity]: a floating-point test on a quotient that
    [smith_waterman.h] computes. *)
Variable pid_below_identity : overlap_align -> bool.

Variable min_matches : Z.

Definition char_gt (a b : ascii) : bool := char_val b <? char_val a.

(** [std::max(a, b)] is [a < b ? b : a], [std::min(a, b)] is [b < a ? b : a]. *)
Definition char_max (a b : ascii) : ascii := if char_gt b a then b else a.
Definition char_min (a b : ascii) : ascii := if char_gt a b then b else a.

Definition bestBase (a b qa qb : ascii) : ascii := if char_gt qa qb then a else b.

(** One turn of the loop that fixes the overlap, at index [i]. *)
Definition fix_overlap_at (seq1 qual1 rc_seq2 rc_qual2 : list ascii) (ol : Z)
    (i : Z) (out : list ascii * list ascii) : option (list ascii * list ascii) :=
  let '(out_seq, out_qual) := out in
  if negb (0 <=? to_int (wrap64 (len seq1 - ol + i))) then None else
  let pos := wrap32 (wrap64 (len seq1 - ol + i)) in
  if negb ((pos <? len seq1) && (i <? len rc_seq2) && (pos <? len out_seq))
  then None else
  a ← at_ seq1 pos; b ← at_ rc_seq2 i;
  qa ← at_ qual1 pos; qb ← at_ rc_qual2 i;
  if Ascii.eqb a b then
    out_seq' ← set_at out_seq pos a;
    out_qual' ← set_at out_qual pos (char_max qa qb);
    Some (out_seq', out_qual')
  else
    out_seq' ← set_at out_seq pos (bestBase a b qa qb);
    out_qual' ← set_at out_qual pos (char_min qa qb);
    Some (out_seq', out_qual').

(** [for (unsigned i = 0; i < ol; i++)]: [n] turns are left to run from [i];
    the loop has ended when [i < ol] fails. *)
Fixpoint fix_overlap (seq1 qual1 rc_seq2 rc_qual2 : list ascii) (ol : Z)
    (n : nat) (i : Z) (out : list ascii * list ascii)
  : option (list ascii * list ascii) :=
  if negb (i <? ol) then Some out else
  match n with
  | O => None
  | S n' =>
      out' ← fix_overlap_at seq1 qual1 rc_seq2 rc_qual2 ol i out;
      fix_overlap seq1 qual1 rc_seq2 rc_qual2 ol n' (incr32 i) out'
  end.

Definition mergeReads (overlap : overlap_align) (rec1 rec2 : FastqRecord)
  : option FastqRecord :=
  let ol := length_ overlap in
  let seq1 := seq rec1 in
  let qual1 := qual rec1 in
  let rc_seq2 := reverseComplement (seq rec2) in
  let rc_qual2 := rev (qual rec2) in
  let out_len := wrap64 (overlap_t_pos overlap + ol + len rc_seq2
                         - overlap_h_pos overlap - 1) in
  let out_seq := replicate (Z.to_nat out_len) "N"%char in
  let out_qual := replicate (Z.to_nat out_len) "#"%char in
  if negb ((len seq1 <=? len out_seq) || (len rc_seq2 <=? len out_seq))
  then None else
  out_seq ← copy seq1 0 (overlap_t_pos overlap) out_seq 0;
  out_seq ← copy rc_seq2 (overlap_h_pos overlap + 1) (len rc_seq2)
                 out_seq (overlap_t_pos overlap + ol);
  out_qual ← copy qual1 0 (overlap_t_pos overlap) out_qual 0;
  out_qual ← copy rc_qual2 ol (len rc_qual2) out_qual (len seq1);
  '(out_seq, out_qual) ← fix_overlap seq1 qual1 rc_seq2 rc_qual2 ol
                           (Z.to_nat ol) 0 (out_seq, out_qual);
  Some (mkFastq (id rec1) (comment rec1) out_seq out_qual).

(** What the overlap holds at index [i], and what the loop is to leave at the
    position of [i] in the merged sequence [s] and quality [q]. *)
Definition overlap_fixed_at (seq1 qual1 rc_seq2 rc_qual2 : list ascii) (ol : Z)
    (i : Z) (s q : list ascii) : Prop :=
  let pos := Z.to_nat (len seq1 - ol + i) in
  exists a b qa qb,
    seq1 !! pos = Some a /\ rc_seq2 !! Z.to_nat i = Some b /\
    qual1 !! pos = Some qa /\ rc_qual2 !! Z.to_nat i = Some qb /\
    s !! pos = Some (if Ascii.eqb a b then a else bestBase a b qa qb) /\
    q !! pos = Some (if Ascii.eqb a b then char_max qa qb else char_min qa qb).

Definition isGapless (o : overlap_align) (s : Sequence) : bool :=
  (length_ o =? wrap64 (len s - overlap_t_pos o))
  && (length_ o =? wrap32 (overlap_h_pos o + 1)).

(** [stats.x++] for each counter. *)
Definition bump_total (s : Stats) : Stats :=
  mkStats (incr32 (total_reads s)) (merged_reads s) (unmerged_reads s)
    (no_alignment s) (too_many_aligns s) (low_matches s) (has_indel s) (pid_low s).
Definition bump_merged (s : Stats) : Stats :=
  mkStats (total_reads s) (incr32 (merged_reads s)) (unmerged_reads s)
    (no_alignment s) (too_many_aligns s) (low_matches s) (has_indel s) (pid_low s).
Definition bump_unmerged (s : Stats) : Stats :=
  mkStats (total_reads s) (merged_reads s) (incr32 (unmerged_reads s))
    (no_alignment s) (too_many_aligns s) (low_matches s) (has_indel s) (pid_low s).
Definition bump_no_alignment (s : Stats) : Stats :=
  mkStats (total_reads s) (merged_reads s) (unmerged_reads s)
    (incr32 (no_alignment s)) (too_many_aligns s) (low_matches s) (has_indel s)
    (pid_low s).
Definition bump_too_many (s : Stats) : Stats :=
  mkStats (total_reads s) (merged_reads s) (unmerged_reads s)
    (no_alignment s) (incr32 (too_many_aligns s)) (low_matches s) (has_indel s)
    (pid_low s).
Definition bump_low_matches (s : Stats) : Stats :=
  mkStats (total_reads s) (merged_reads s) (unmerged_reads s)
    (no_alignment s) (too_many_aligns s) (incr32 (low_matches s)) (has_indel s)
    (pid_low s).
Definition bump_has_indel (s : Stats) : Stats :=
  mkStats (total_reads s) (merged_reads s) (unmerged_reads s)
    (no_alignment s) (too_many_aligns s) (low_matches s) (incr32 (has_indel s))
    (pid_low s).
Definition bump_pid_low (s : Stats) : Stats :=
  mkStats (total_reads s) (merged_reads s) (unmerged_reads s)
    (no_alignment s) (too_many_aligns s) (low_matches s) (has_indel s)
    (incr32 (pid_low s)).

(** [for (it = v.begin(); it != v.end(); it++)], erasing with [v.erase(it--)]
    each element that a test dooms. The iterator is the index [it]; after an erasure at the front it is [-1]
    until the loop's [it++]. [n] bounds the turns that are left. *)
Fixpoint erase_loop (doomed : overlap_align -> bool) (n : nat)
    (overlaps : list overlap_align) (it : Z) : option (list overlap_align) :=
  if it =? len overlaps then Some overlaps else
  match n with
  | O => None
  | S n' =>
      o ← at_ overlaps it;
      if doomed o
      then erase_loop doomed n' (delete (Z.to_nat it) overlaps) (it - 1 + 1)
      else erase_loop doomed n' overlaps (it + 1)
  end.

Definition too_few_matches (o : overlap_align) : bool :=
  overlap_match o <? min_matches.
Definition has_gap (rec : FastqRecord) (o : overlap_align) : bool :=
  negb (isGapless o (seq rec)).

Definition filterAlignments (overlaps : list overlap_align) (rec : FastqRecord)
    (stats : Stats) : option (list overlap_align * Stats) :=
  if len overlaps =? 0 then Some (overlaps, bump_no_alignment stats) else
  overlaps ← erase_loop too_few_matches (length overlaps) overlaps 0;
  if len overlaps =? 0 then Some (overlaps, bump_low_matches stats) else
  overlaps ← erase_loop pid_below_identity (length overlaps) overlaps 0;
  if len overlaps =? 0 then Some (overlaps, bump_pid_low stats) else
  overlaps ← erase_loop (has_gap rec) (length overlaps) overlaps 0;
  if len overlaps =? 0 then Some (overlaps, bump_has_indel stats) else
  Some (overlaps, stats).

(** The body of the [while] loop of [alignFiles], for one pair of records. *)
Definition alignPair (stats : Stats) (out : Output) (rec1 rec2 : FastqRecord)
  : option (Stats * Output) :=
  let stats := bump_total stats in
  let overlaps := alignOverlap (seq rec1) (reverseComplement (seq rec2)) in
  '(overlaps, stats) ← filterAlignments overlaps rec1 stats;
  if len overlaps =? 1 then
    let stats := bump_merged stats in
    o ← at_ overlaps 0;
    m ← mergeReads o rec1 rec2;
    Some (stats, mkOutput (merged out ++ [m]) (unmerged1 out) (unmerged2 out)
                   (cout out ++ [(length_ o, overlap_match o)]))
  else
    let stats := if 1 <? len overlaps then bump_too_many stats else stats in
    let stats := bump_unmerged stats in
    Some (stats, mkOutput (merged out) (unmerged1 out ++ [rec1])
                   (unmerged2 out ++ [rec2]) (cout out)).

(** Whether a [FastaReader] that has just handed out the last record of its
    file is at [eof()]: [FastaReader.h] is not among the sources. *)
Variable eof_after_last : bool.

(** [r.eof()] after an [r >> rec] that handed out a record and leaves [rest]
    unread; a reader whose [>>] failed for want of a record is at [eof()]. *)
Definition eof_after (rest : list FastqRecord) : bool :=
  match rest with
  | [] => eof_after_last
  | _ :: _ => false
  end.

(** [while (r1 >> rec1 && r2 >> rec2)], the two files read in lockstep, then
    [r2 >> rec2; assert(r1.eof()); assert(r2.eof());]. When file 1 has run
    out, the loop has not read file 2, and the [>>] after the loop takes one
    more record of it if there is one; when file 2 has run out, the loop has
    taken one more record of file 1. Nothing is given back when one of the
    assertions fails. *)
Fixpoint alignFiles (reads1 reads2 : list FastqRecord) (stats : Stats)
    (out : Output) : option (Stats * Output) :=
  match reads1, reads2 with
  | rec1 :: reads1', rec2 :: reads2' =>
      '(stats', out') ← alignPair stats out rec1 rec2;
      alignFiles reads1' reads2' stats' out'
  | [], [] => Some (stats, out)
  | [], _ :: rest2 => if eof_after rest2 then Some (stats, out) else None
  | _ :: rest1, [] => if eof_after rest1 then Some (stats, out) else None
  end.

(** The three filters of [filterAlignments], as plain list filters. *)
Definition enough_matches (l : list overlap_align) : list overlap_align :=
  List.filter (fun o => negb (too_few_matches o)) l.
Definition identical_enough (l : list overlap_align) : list overlap_align :=
  List.filter (fun o => negb (pid_below_identity o)) l.
Definition gapless (rec : FastqRecord) (l : list overlap_align)
  : list overlap_align :=
  List.filter (fun o => negb (has_gap rec o)) l.
Definition survivors (rec : FastqRecord) (l : list overlap_align)
  : list overlap_align :=
  gapless rec (identical_enough (enough_matches l)).

(** The stage of [filterAlignments] at which the candidates first run out. *)
Inductive Stage := NoAlignment | LowMatches | PidLow | HasIndel | Survived.

Definition first_empty (rec : FastqRecord) (l : list overlap_align) : Stage :=
  match l with
  | [] => NoAlignment
  | _ :: _ =>
    match enough_matches l with
    | [] => LowMatches
    | _ :: _ =>
      match identical_enough (enough_matches l) with
      | [] => PidLow
      | _ :: _ =>
        match survivors rec l with
        | [] => HasIndel
        | _ :: _ => Survived
        end
      end
    end
  end.

Definition bump_stage (s : Stage) (stats : Stats) : Stats :=
  match s with
  | NoAlignment => bump_no_alignment stats
  | LowMatches => bump_low_matches stats
  | PidLow => bump_pid_low stats
  | HasIndel => bump_has_indel stats
  | Survived => stats
  end.

(** Of the four stage counters, the one of stage [s] went up by one between
    [stats] and [stats'], and no other changed. *)
Definition stage_counted (s : Stage) (stats stats' : Stats) : Prop :=
  no_alignment stats'
    = (if s is NoAlignment then incr32 (no_alignment stats) else no_alignment stats)
  /\ low_matches stats'
    = (if s is LowMatches then incr32 (low_matches stats) else low_matches stats)
  /\ pid_low stats'
    = (if s is PidLow then incr32 (pid_low stats) else pid_low stats)
  /\ has_indel stats'
    = (if s is HasIndel then incr32 (has_indel stats) else has_indel stats).

End Merge.

End MergePairs.

Module PairedDBG.

(** ** The option state ([namespace opt]) *)

(** Modelled from the spec: the configuration of section 6, whose variables
    [Common/Options.h] and [Assembly/Options.h] declare (they are not among
    the sources): the counts and lengths are [unsigned], the coverage
    threshold is a fractional number that the driver only compares with zero
    and assigns. *)
Record Options := mkOptions
  { kmerSize : Z; singleKmerSize : Z; kMin : Z; kMax : Z; kStep : Z;
    erode : Z; erodeStrand : Z; coverage : Q; trimLen : Z; bubbleLen : Z;
    graphPath : string; contigsPath : string; inFiles : list string }.

Definition set_kmerSize (k : Z) (o : Options) : Options :=
  mkOptions k (singleKmerSize o) (kMin o) (kMax o) (kStep o) (erode o)
    (erodeStrand o) (coverage o) (trimLen o) (bubbleLen o) (graphPath o)
    (contigsPath o) (inFiles o).

Definition set_coverage (c : Q) (o : Options) : Options :=
  mkOptions (kmerSize o) (singleKmerSize o) (kMin o) (kMax o) (kStep o) (erode o)
    (erodeStrand o) c (trimLen o) (bubbleLen o) (graphPath o) (contigsPath o)
    (inFiles o).

(** [(unsigned)-1] *)
Definition unsigned_minus_one : Z := wrap32 (-1).

(** The five assignments under [if (k > opt::kMin)] in [main]. *)
Definition reset_defaults (k : Z) (o : Options) : Options :=
  mkOptions (kmerSize o) (singleKmerSize o) (kMin o) (kMax o) (kStep o)
    unsigned_minus_one unsigned_minus_one (-1)%Q k (wrap32 (3 * k))
    (graphPath o) (contigsPath o) (inFiles o).

(** [opt::coverage > 0] *)
Definition positive (c : Q) : bool := 0 <? Qnum c.

Definition EXIT_FAILURE : Z := 1.

(** The two messages of [assemble] on standard error, and the text of the
    assertion on the second [erodeEnds]. *)
Definition no_usable_sequence : string := "error: no usable sequence
".
Definition no_contigs_assembled : string := "error: no contigs assembled
".
Definition erodeEnds_is_zero : string := "AssemblyAlgorithms::erodeEnds(&g) == 0".

(** The line that the C library writes on standard error for a failed
    [assert] before it aborts, less the program name, the file, the line and
    the function that it puts before the expression. *)
Definition assertion_failed (what : string) : string :=
  "Assertion `" +:+ what +:+ "' failed.
".

(** ** What a run does, as seen from outside

    Every call into [AssemblyAlgorithms] or the collection is logged in the
    order of the calls. Standard output is left out. *)
Inductive Event :=
| EvKmerSetLength (n : Z)
| EvKmerPairSetLength (n : Z)
| EvLoadSequences (path : string)
| EvSetDeletedKey
| EvShrink
| EvSetCoverageParameters
| EvGenerateAdjacency
| EvErodeEnds
| EvCleanup
| EvPerformTrim
| EvMarkAmbiguous
| EvAssemble (writer : option string)
| EvSplitAmbiguous
| EvWipeFlag (flags : Z)
| EvPopBubbles
| EvWriteGraph (path : string)
| EvFastaWriter (path : string).

(** How a computation ends: it returns, or it stops: by [exit], by a failed
    [assert], or because the bound on a loop of the model was too small. *)
Inductive Failure :=
| Exit (status : Z)
| AssertFailed (what : string)
| OutOfFuel.

Inductive Outcome (A : Type) :=
| Ret (a : A)
| Stop (f : Failure).
Arguments Ret {A} a.
Arguments Stop {A} f.

Section Driver.

(** The collection [SequenceCollectionHash] and the contig records. *)
Context {G Contig : Type}.

(** The passes of [Assembly/AssemblyAlgorithms.h] and the operations of the
    collection, which the driver calls and other files define. A pass reads
    the option state; [setCoverageParameters], called once before the label
    [erode:], sets it. [assembleContigs] is [AssemblyAlgorithms::assemble]: as
    the contig extractor of section 4.5 of the specification, it emits one
    record for each contig and reports their number, so it hands back the
    contigs it emits and the driver counts them. [popBubblesInto] is
    [openBubbleFile] and [AssemblyAlgorithms::popBubbles]: it also hands back
    the number popped and [out.good()]. *)
Class Passes := mkPasses
  { loadSequences : Options -> G -> string -> G;
    new_collection : G;
    setDeletedKey : G -> G;
    shrink : G -> G;
    empty : G -> bool;
    setCoverageParameters : Options -> G -> Options;
    generateAdjacency : Options -> G -> G;
    erodeEnds : Options -> G -> G * Z;
    cleanup : G -> G;
    performTrim : Options -> G -> G;
    markAmbiguous : Options -> G -> G;
    assembleContigs : Options -> G -> G * list Contig;
    splitAmbiguous : Options -> G -> G;
    wipeFlag : Z -> G -> G;
    popBubblesInto : Options -> G -> G * Z * bool;
    SF_MARK_SENSE : Z;
    SF_MARK_ANTISENSE : Z }.

Context {P : Passes}.

(** The process: the option state, the log of calls, standard error, the
    contig files written, and whether the collection was empty after each
    [cleanup]. *)
Record World := mkWorld
  { opts : Options; log : list Event; cerr : list string;
    written : list (string * list Contig); emptied : list bool }.

Definition M (A : Type) : Type := World -> Outcome A * World.

Definition ret {A} (a : A) : M A := fun w => (Ret a, w).

Definition bind {A B} (m : M A) (f : A -> M B) : M B :=
  fun w =>
    match m w with
    | (Ret a, w') => f a w'
    | (Stop x, w') => (Stop x, w')
    end.

#[local] Notation "x <- m ;; k" := (bind m (fun x => k))
  (at level 100, m at next level, right associativity).
#[local] Notation "m ;;; k" := (bind m (fun _ => k))
  (at level 100, right associativity).

Definition get_opts : M Options := fun w => (Ret (opts w), w).
Definition put_opts (o : Options) : M unit :=
  fun w => (Ret tt, mkWorld o (log w) (cerr w) (written w) (emptied w)).
Definition emit (e : Event) : M unit :=
  fun w => (Ret tt, mkWorld (opts w) (log w ++ [e]) (cerr w) (written w) (emptied w)).
Definition print_error (msg : string) : M unit :=
  fun w => (Ret tt, mkWorld (opts w) (log w) (cerr w ++ [msg]) (written w) (emptied w)).
Definition write_contigs (path : string) (cs : list Contig) : M unit :=
  fun w => (Ret tt, mkWorld (opts w) (log w) (cerr w) (written w ++ [(path, cs)])
                      (emptied w)).
Definition note_emptied (b : bool) : M unit :=
  fun w => (Ret tt, mkWorld (opts w) (log w) (cerr w) (written w) (emptied w ++ [b])).
Definition exit {A} (status : Z) : M A := fun w => (Stop (Exit status), w).
Definition assert (b : bool) (what : string) : M unit :=
  fun w =>
    if b then (Ret tt, w)
    else (Stop (AssertFailed what),
          mkWorld (opts w) (log w) (cerr w ++ [assertion_failed what]) (written w)
            (emptied w)).
Definition out_of_fuel {A} : M A := fun w => (Stop OutOfFuel, w).

(** A pass over the collection, logged. *)
Definition pass (e : Event) (f : Options -> G -> G) (g : G) : M G :=
  o <- get_opts ;; emit e ;;; ret (f o g).

Definition do_cleanup (g : G) : M G :=
  emit EvCleanup ;;; note_emptied (empty (cleanup g)) ;;; ret (cleanup g).

Definition do_erodeEnds (g : G) : M (G * Z) :=
  o <- get_opts ;; emit EvErodeEnds ;;; ret (erodeEnds o g).

Definition do_loadSequences (g : G) (path : string) : M G :=
  o <- get_opts ;; emit (EvLoadSequences path) ;;; ret (loadSequences o g path).

(** [for_each(opt::inFiles.begin(), opt::inFiles.end(), ...loadSequences...)] *)
Fixpoint load_each (paths : list string) (g : G) : M G :=
  match paths with
  | [] => ret g
  | path :: paths' => g' <- do_loadSequences g path ;; load_each paths' g'
  end.

Definition removeLowCoverageContigs (g : G) : M G :=
  g <- pass EvMarkAmbiguous markAmbiguous g ;;
  o <- get_opts ;;
  emit (EvAssemble None) ;;;
  let g := fst (assembleContigs o g) in
  g <- pass EvSplitAmbiguous splitAmbiguous g ;;
  o <- get_opts ;;
  put_opts (set_coverage 0%Q o) ;;;
  ret g.

Definition popBubbles (g : G) : M G :=
  o <- get_opts ;;
  emit EvPopBubbles ;;;
  let '(g', numPopped, good) := popBubblesInto o g in
  assert good "out.good()" ;;;
  ret g'.

Definition write_graph (path : string) (g : G) : M unit :=
  if String.eqb path "" then ret tt else emit (EvWriteGraph path).

(** The block under [if (opt::erode > 0)]. *)
Definition erosion (g : G) : M G :=
  r <- do_erodeEnds g ;;
  r' <- do_erodeEnds (fst r) ;;
  assert (snd r' =? 0) erodeEnds_is_zero ;;;
  do_cleanup (fst r').

(** [performTrim] and the [cleanup] after it. *)
Definition trim (g : G) : M G :=
  g <- pass EvPerformTrim performTrim g ;;
  do_cleanup g.

(** The block under [if (opt::coverage > 0)], up to the [goto]. *)
Definition prune (g : G) : M G :=
  g <- removeLowCoverageContigs g ;;
  emit (EvWipeFlag (Z.lor SF_MARK_SENSE SF_MARK_ANTISENSE)) ;;;
  let g := wipeFlag (Z.lor SF_MARK_SENSE SF_MARK_ANTISENSE) g in
  do_cleanup g.

(** From the label [erode:] to the [goto erode]; [fuel] bounds the number of
    times the label is passed. *)
Fixpoint simplify (fuel : nat) (g : G) : M G :=
  match fuel with
  | O => out_of_fuel
  | S fuel' =>
      o <- get_opts ;;
      g <- (if 0 <? erode o then erosion g else ret g) ;;
      g <- trim g ;;
      o <- get_opts ;;
      if positive (coverage o) then
        g <- prune g ;;
        simplify fuel' g
      else ret g
  end.

(** The end of [assemble], from [FastaWriter writer(pathOut)] on. *)
Definition extract (pathOut : string) (g : G) : M unit :=
  emit (EvFastaWriter pathOut) ;;;
  o <- get_opts ;;
  emit (EvAssemble (Some pathOut)) ;;;
  let r := assembleContigs o g in
  write_contigs pathOut (snd r) ;;;
  let nContigs := wrap32 (len (snd r)) in
  if nContigs =? 0 then
    print_error no_contigs_assembled ;;; exit EXIT_FAILURE
  else ret tt.

Definition assemble (fuel : nat) (pathIn pathOut : string) : M unit :=
  let g := new_collection in
  g <- (if negb (String.eqb pathIn "") then do_loadSequences g pathIn else ret g) ;;
  o <- get_opts ;;
  g <- load_each (inFiles o) g ;;
  emit EvSetDeletedKey ;;;
  let g := setDeletedKey g in
  emit EvShrink ;;;
  let g := shrink g in
  if empty g then
    print_error no_usable_sequence ;;; exit EXIT_FAILURE
  else
    o <- get_opts ;;
    emit EvSetCoverageParameters ;;;
    put_opts (setCoverageParameters o g) ;;;
    g <- pass EvGenerateAdjacency generateAdjacency g ;;
    g <- simplify fuel g ;;
    o <- get_opts ;;
    g <- (if 0 <? bubbleLen o then popBubbles g else ret g) ;;
    write_graph (graphPath o) g ;;;
    g <- pass EvMarkAmbiguous markAmbiguous g ;;
    extract pathOut g.

(** The names of the contig files of one turn of the loop of [main]. *)
Definition contigs_k (k : Z) : string := "contigs-k" +:+ pretty k +:+ ".fa".

Definition path_in (o : Options) (k : Z) : string :=
  if kMin o <? k then contigs_k (wrap32 (k - kStep o)) else "".

Definition path_out (o : Options) (k : Z) : string :=
  if k <? kMax o then contigs_k k else contigsPath o.

(** The option state with which [assemble] is entered at [k]. *)
Definition entered (k : Z) (o : Options) : Options :=
  if kMin o <? k then reset_defaults k (set_kmerSize k o) else set_kmerSize k o.

(** The body of [for (unsigned k = opt::kMin; k <= opt::kMax; k += opt::kStep)]. *)
Definition iteration (fuel : nat) (k : Z) : M unit :=
  o <- get_opts ;;
  put_opts (set_kmerSize k o) ;;;
  o <- get_opts ;;
  emit (EvKmerSetLength (singleKmerSize o)) ;;;
  emit (EvKmerPairSetLength (kmerSize o)) ;;;
  (if kMin o <? k then put_opts (reset_defaults k o) else ret tt) ;;;
  o <- get_opts ;;
  assemble fuel (path_in o k) (path_out o k).

(** The loop of [main], for at most [turns] turns. *)
Fixpoint main_loop (turns fuel : nat) (k : Z) : M unit :=
  o <- get_opts ;;
  if k <=? kMax o then
    match turns with
    | O => out_of_fuel
    | S turns' =>
        iteration fuel k ;;;
        o <- get_opts ;;
        main_loop turns' fuel (wrap32 (k + kStep o))
    end
  else ret tt.

(** [main], after [opt::parse]. *)
Definition main (turns fuel : nat) : M Z :=
  o <- get_opts ;;
  main_loop turns fuel (kMin o) ;;;
  ret 0.

(** *** A judgement on one run

    [holds m w Q F]: run from [w], [m] returns [a] in a world [w'] with
    [Q a w'], or stops by [x] in a world [w'] with [F x w']. *)
Definition holds {A} (m : M A) (w : World) (Q : A -> World -> Prop)
    (F : Failure -> World -> Prop) : Prop :=
  match m w with
  | (Ret a, w') => Q a w'
  | (Stop x, w') => F x w'
  end.

(** *** The calls of one run of [assemble], in the order of the source *)

Definition erosion_calls (o : Options) : list Event :=
  if 0 <? erode o then [EvErodeEnds; EvErodeEnds; EvCleanup] else [].

Definition trim_calls : list Event := [EvPerformTrim; EvCleanup].

Definition prune_calls : list Event :=
  [EvMarkAmbiguous; EvAssemble None; EvSplitAmbiguous;
   EvWipeFlag (Z.lor SF_MARK_SENSE SF_MARK_ANTISENSE); EvCleanup].

Definition simplify_calls (o : Options) : list Event :=
  erosion_calls o ++ trim_calls
  ++ (if positive (coverage o)
      then prune_calls ++ erosion_calls o ++ trim_calls else []).

Definition load_calls (o : Options) (pathIn : string) : list Event :=
  (if String.eqb pathIn "" then [] else [EvLoadSequences pathIn])
  ++ map EvLoadSequences (inFiles o).

Definition finish_calls (o : Options) (pathOut : string) : list Event :=
  (if 0 <? bubbleLen o then [EvPopBubbles] else [])
  ++ (if String.eqb (graphPath o) "" then [] else [EvWriteGraph (graphPath o)])
  ++ [EvMarkAmbiguous; EvFastaWriter pathOut; EvAssemble (Some pathOut)].

(** [o] is the option state on entry, [o1] the one that
    [setCoverageParameters] leaves. *)
Definition assemble_calls (o o1 : Options) (pathIn pathOut : string) : list Event :=
  load_calls o pathIn
  ++ [EvSetDeletedKey; EvShrink; EvSetCoverageParameters; EvGenerateAdjacency]
  ++ simplify_calls o1 ++ finish_calls o1 pathOut.

(** The collection after loading and shrinking, and the option state after
    [setCoverageParameters]. *)
Definition loaded (o : Options) (pathIn : string) : G :=
  shrink (setDeletedKey
    (fold_left (loadSequences o) (inFiles o)
       (if String.eqb pathIn "" then new_collection
        else loadSequences o new_collection pathIn))).

Definition tuned (o : Options) (pathIn : string) : Options :=
  setCoverageParameters o (loaded o pathIn).

(** The passes make nothing out of an empty collection: none adds a node,
    erosion then erodes nothing, extraction then emits no contig, and the
    bubble file stays good. *)
Definition nothing_from_nothing : Prop :=
  (forall o g, empty g = true ->
     empty (fst (erodeEnds o g)) = true /\ snd (erodeEnds o g) = 0)
  /\ (forall g, empty g = true -> empty (cleanup g) = true)
  /\ (forall o g, empty g = true -> empty (performTrim o g) = true)
  /\ (forall o g, empty g = true -> empty (markAmbiguous o g) = true)
  /\ (forall o g, empty g = true ->
        empty (fst (assembleContigs o g)) = true /\ snd (assembleContigs o g) = [])
  /\ (forall o g, empty g = true -> empty (splitAmbiguous o g) = true)
  /\ (forall m g, empty g = true -> empty (wipeFlag m g) = true)
  /\ (forall o g, empty g = true ->
        empty (fst (fst (popBubblesInto o g))) = true
        /\ snd (popBubblesInto o g) = true).

(** Since [emptied] was [base], some [cleanup] left the collection empty only
    if the collection [g] at hand is empty. *)
Definition empty_since (base : list bool) (g : G) (w : World) : Prop :=
  exists l, emptied w = base ++ l /\ (In true l -> empty g = true).

(** A run that stops after some [cleanup] left the collection empty stops by
    [exit(EXIT_FAILURE)]. *)
Definition fatal_since (base : list bool) (x : Failure) (w : World) : Prop :=
  forall l, emptied w = base ++ l -> In true l -> x = Exit EXIT_FAILURE.

Definition is_prune (e : Event) : bool :=
  if e is EvAssemble None then true else false.
Definition is_popBubbles (e : Event) : bool :=
  if e is EvPopBubbles then true else false.

End Driver.

Arguments Passes : clear implicits.
Arguments World : clear implicits.
Arguments M : clear implicits.

End PairedDBG.

(** ** The graph store and the passes that other files define

    [SequenceCollection.h] and [AssemblyAlgorithms.h] are not among the
    sources; what follows is written from the specification of the store
    (sections 3 and 4.1 to 4.4). *)
Module Store.

(** Modelled from the spec: the node record of section 3, which
    [SequenceCollection.h] declares: an 8-bit extension mask (bits 0 to 3 for
    the four bases on the 3' side, bits 4 to 7 on the 5' side), a coverage
    counter, the mark bits and the tombstone. *)
Record Node := mkNode
  { extension : Z; multiplicity : Z; flags : Z; deleted : bool }.

(** Modelled from the spec: the store of section 4.2, a mapping from the
    canonical k-mer key to its node; the slots are kept in iteration order,
    and a tombstoned slot stays in place until [cleanup]. *)
Definition Store := list (Z * Node).

Definition tombstone (n : Node) : Node :=
  mkNode (extension n) (multiplicity n) (flags n) true.
Definition set_extension (e : Z) (n : Node) : Node :=
  mkNode e (multiplicity n) (flags n) (deleted n).
Definition set_flags (f : Z) (n : Node) : Node :=
  mkNode (extension n) (multiplicity n) f (deleted n).

Definition lookup (g : Store) (key : Z) : option Node :=
  snd <$> List.find (fun slot => fst slot =? key) g.

Definition live (slot : Z * Node) : bool := negb (deleted (snd slot)).

Definition live_count (g : Store) : nat := length (List.filter live g).

(** Modelled from the spec: [empty()] and [compact()] of section 4.2 (the
    driver's [g.empty()] and [g.cleanup()]). *)
Definition empty (g : Store) : bool := if g is [] then true else false.
Definition cleanup (g : Store) : Store := List.filter live g.

(** Modelled from the spec: [clearAllFlags(flag)] of section 4.2 (the driver's
    [g.wipeFlag(flag)]): the bits of [mask] are cleared on every node. *)
Definition wipeFlag (mask : Z) (g : Store) : Store :=
  map (fun slot => (fst slot, set_flags (Z.land (flags (snd slot)) (Z.lnot mask))
                                (snd slot))) g.

Section Kmer.

(** The k-mer length; a key packs [k] bases of two bits each. *)
Variable k : Z.

(** Modelled from the spec: the codec of section 4.1. *)
Fixpoint reverse_go (n : nat) (key acc : Z) : Z :=
  match n with
  | O => acc
  | S n' => reverse_go n' (Z.shiftr key 2)
              (Z.lor (Z.shiftl acc 2) (3 - Z.land key 3))
  end.
Definition reverseComplement (key : Z) : Z := reverse_go (Z.to_nat k) key 0.
Definition canonical (key : Z) : Z := Z.min key (reverseComplement key).

(** The k-mer one base further on the 3' side ([sense]) or the 5' side. *)
Definition neighbour (key : Z) (sense : bool) (base : Z) : Z :=
  if sense then Z.land (Z.lor (Z.shiftl key 2) base) (Z.ones (2 * k))
  else Z.lor (Z.shiftr key 2) (Z.shiftl base (2 * (k - 1))).

Definition present (g : Store) (key : Z) : bool :=
  match lookup g (canonical key) with
  | Some n => negb (deleted n)
  | None => false
  end.

(** Modelled from the spec: the adjacency builder of section 4.3: a bit of the
    mask is set iff the neighbour is present and not tombstoned. *)
Definition adjacency (g : Store) (key : Z) : Z :=
  fold_right
    (fun bit acc =>
       if present g (neighbour key (bit <? 4) (bit mod 4))
       then Z.lor (Z.shiftl 1 bit) acc else acc)
    0 [0; 1; 2; 3; 4; 5; 6; 7].

Definition generateAdjacency (g : Store) : Store :=
  map (fun slot => if live slot
                   then (fst slot, set_extension (adjacency g (fst slot)) (snd slot))
                   else slot) g.

(** Modelled from the spec: tip erosion, pass 1 of section 4.4. A dead end has
    at most one direction of its mask populated; a wave removes every live
    dead end whose coverage is below the threshold, and adjacency is derived
    again after the wave; erosion stops at the wave that removes nothing. *)
Definition dead_end (n : Node) : bool :=
  (Z.land (extension n) 15 =? 0) || (Z.land (extension n) 240 =? 0).

Definition erodible (threshold : Z) (slot : Z * Node) : bool :=
  live slot && dead_end (snd slot) && (multiplicity (snd slot) <? threshold).

Definition wave (threshold : Z) (g : Store) : Store :=
  map (fun slot => if erodible threshold slot
                   then (fst slot, tombstone (snd slot)) else slot) g.

Fixpoint erode_waves (fuel : nat) (threshold : Z) (g : Store) (eroded : Z)
  : option (Store * Z) :=
  let doomed := List.filter (erodible threshold) g in
  if doomed is [] then Some (g, eroded) else
  match fuel with
  | O => None
  | S fuel' =>
      erode_waves fuel' threshold (generateAdjacency (wave threshold g))
        (eroded + len doomed)
  end.

Definition erodeEnds (threshold : Z) (g : Store) : Store * Z :=
  default (g, 0) (erode_waves (live_count g) threshold g 0).

End Kmer.

(** Modelled from the spec: bubble popping, pass 4 of section 4.4, for one
    detected pair of alternate paths, each the list of its k-mer keys: the
    path of lower aggregate coverage is removed, and on a tie the one that
    comes second in a fixed ordering of the paths; popping is [popBubbles] of
    [AssemblyAlgorithms.h]. *)
Section Bubbles.

Variable path_before : list Z -> list Z -> bool.

Definition coverage_of (g : Store) (path : list Z) : Z :=
  fold_right (fun key acc => (if lookup g key is Some n then multiplicity n else 0) + acc)
    0 path.

Definition loser (g : Store) (p q : list Z) : list Z :=
  if coverage_of g p <? coverage_of g q then p
  else if coverage_of g q <? coverage_of g p then q
  else if path_before p q then q else p.

Definition winner (g : Store) (p q : list Z) : list Z :=
  if coverage_of g p <? coverage_of g q then q
  else if coverage_of g q <? coverage_of g p then p
  else if path_before p q then p else q.

Definition on_path (path : list Z) (key : Z) : bool :=
  existsb (Z.eqb key) path.

Definition popBubble (g : Store) (p q : list Z) : Store :=
  map (fun slot =>
         if on_path (loser g p q) (fst slot) && negb (on_path (winner g p q) (fst slot))
         then (fst slot, tombstone (snd slot)) else slot) g.

End Bubbles.

(** A live node with this key. *)
Definition alive (g : Store) (key : Z) : Prop :=
  exists n, In (key, n) g /\ deleted n = false.

End Store.

(** ** Inputs on which the statements are exercised *)
Module Example.

Import PairedDBG.

(** The passes of the store where the specification describes them; a read
    file stands for one k-mer of coverage one; trimming, ambiguity marking and
    bubble popping leave the collection as it is; every live node is a
    contig. *)
Definition passes : Passes Store.Store (list Z) :=
  {| loadSequences := fun o g path =>
       g ++ [(Z.of_nat (String.length path), Store.mkNode 0 1 0 false)];
     new_collection := [];
     setDeletedKey := fun g => g;
     shrink := fun g => g;
     empty := Store.empty;
     setCoverageParameters := fun o g => o;
     generateAdjacency := fun o g => Store.generateAdjacency (kmerSize o) g;
     erodeEnds := fun o g => Store.erodeEnds (kmerSize o) (erode o) g;
     cleanup := Store.cleanup;
     performTrim := fun o g => g;
     markAmbiguous := fun o g => g;
     assembleContigs := fun o g =>
       (g, map (fun slot => [fst slot]) (List.filter Store.live g));
     splitAmbiguous := fun o g => g;
     wipeFlag := Store.wipeFlag;
     popBubblesInto := fun o g => (g, 0, true);
     SF_MARK_SENSE := 1;
     SF_MARK_ANTISENSE := 2 |}.

(** One read file, k from 4 to 6 by 2, and an erosion threshold of 2 and a
    coverage threshold of 1 that the configuration sets explicitly. *)
Definition options : Options :=
  {| kmerSize := 4; singleKmerSize := 4; kMin := 4; kMax := 6; kStep := 2;
     erode := 2; erodeStrand := 0; coverage := 1%Q; trimLen := 4; bubbleLen := 12;
     graphPath := ""; contigsPath := "contigs.fa"; inFiles := ["reads.fa"%string] |}.

(** The same without erosion. *)
Definition options_no_erosion : Options :=
  {| kmerSize := 4; singleKmerSize := 4; kMin := 4; kMax := 6; kStep := 2;
     erode := 0; erodeStrand := 0; coverage := 1%Q; trimLen := 4; bubbleLen := 12;
     graphPath := ""; contigsPath := "contigs.fa"; inFiles := ["reads.fa"%string] |}.

Definition world (o : Options) : World (list Z) := mkWorld o [] [] [] [].

(** A store with a bubble: the paths [2] and [3] between the nodes 1 and 4. *)
Definition bubble : Store.Store :=
  [(1, Store.mkNode 0 5 0 false); (2, Store.mkNode 0 1 0 false);
   (3, Store.mkNode 0 4 3 false); (4, Store.mkNode 0 9 0 false)].

(** The paths in lexicographic order of their keys. *)
Fixpoint lex_before (p q : list Z) : bool :=
  match p, q with
  | [], [] => false
  | [], _ :: _ => true
  | _ :: _, [] => false
  | x :: p', y :: q' =>
      if x <? y then true else if y <? x then false else lex_before p' q'
  end.

(** A signed [char]. *)
Definition char_val (c : ascii) : Z :=
  let n := Z.of_nat (nat_of_ascii c) in if n <? 128 then n else n - 256.

Definition complement (c : ascii) : ascii :=
  if Ascii.eqb c "A" then "T" else if Ascii.eqb c "T" then "A"
  else if Ascii.eqb c "C" then "G" else if Ascii.eqb c "G" then "C" else c.

Definition reverseComplement (s : MergePairs.Sequence) : MergePairs.Sequence :=
  rev (map complement s).

(** Read 1 is [TTACGT]; the reverse complement of read 2 is [ACGAGG]: the
    reads overlap on four bases and differ on the last of them. *)
Definition rec1 : MergePairs.FastqRecord :=
  MergePairs.mkFastq "pair/1" "" (list_ascii_of_string "TTACGT")
    (list_ascii_of_string "IIII5#").
Definition rec2 : MergePairs.FastqRecord :=
  MergePairs.mkFastq "pair/2" "" (list_ascii_of_string "CCTCGT")
    (list_ascii_of_string "III5II").
Definition overlap : MergePairs.overlap_align := MergePairs.mkOverlap 2 3 3 4.

(** An aligner that finds this overlap, and an identity threshold of 0.7. *)
Definition alignOverlap (s t : MergePairs.Sequence) : list MergePairs.overlap_align :=
  [overlap].
Definition pid_below_identity (o : MergePairs.overlap_align) : bool :=
  MergePairs.overlap_match o * 10 <? 7 * MergePairs.length_ o.

End Example.

(** ** The inputs of a run of the merger *)

Module MergeInputs.

Import MergePairs.

(** [static struct { ... } stats;]: every counter starts at zero. *)
Definition stats0 : Stats := mkStats 0 0 0 0 0 0 0 0.

(** The three output files and standard output, before anything is written. *)
Definition output0 : Output := mkOutput [] [] [] [].

Section Pairs.

Variable reverseComplement : Sequence -> Sequence.
Variable alignOverlap : Sequence -> Sequence -> list overlap_align.
Variable pid_below_identity : overlap_align -> bool.
Variable min_matches : Z.

(** A pair of records on which the arithmetic of [mergeReads] is that of the
    integers: one quality for each base, reads shorter than [2^31], a
    [reverseComplement] that keeps the length, and candidate overlaps whose
    offsets lie in the reads. *)
Definition well_formed (rec1 rec2 : FastqRecord) : Prop :=
  length (qual rec1) = length (seq rec1)
  /\ length (qual rec2) = length (seq rec2)
  /\ length (reverseComplement (seq rec2)) = length (seq rec2)
  /\ len (seq rec1) < 2 ^ 31 /\ len (seq rec2) < 2 ^ 31
  /\ forall o, In o (alignOverlap (seq rec1) (reverseComplement (seq rec2))) ->
       0 <= overlap_t_pos o < 2 ^ 32 /\ 0 <= overlap_h_pos o < len (seq rec2).

(** The alignments of a pair that [filterAlignments] leaves. *)
Definition kept (pair : FastqRecord * FastqRecord) : list overlap_align :=
  survivors pid_below_identity min_matches (fst pair)
    (alignOverlap (seq (fst pair)) (reverseComplement (seq (snd pair)))).

(** [overlaps.size() == 1] after [filterAlignments]. *)
Definition unique (pair : FastqRecord * FastqRecord) : bool := len (kept pair) =? 1.

(** The sum of the five counters that say why a pair was not merged. *)
Definition reasons (s : Stats) : Z :=
  no_alignment s + too_many_aligns s + low_matches s + has_indel s + pid_low s.

(** What [alignFiles] prints on standard output for a merged pair. *)
Definition cout_line (o : overlap_align) : Z * Z := (length_ o, overlap_match o).

(** The merged record [m] is the merge of [pair] along its one alignment. *)
Definition merge_of (merge : overlap_align -> FastqRecord -> FastqRecord
                             -> option FastqRecord)
    (m : FastqRecord) (pair : FastqRecord * FastqRecord) : Prop :=
  exists o, kept pair = [o] /\ merge o (fst pair) (snd pair) = Some m.

End Pairs.

(** After [n] pairs every counter is within [0..n], each pair was merged or
    not, and each pair that was not has one reason counted. *)
Definition accounted (n : Z) (s : Stats) : Prop :=
  total_reads s = n
  /\ 0 <= merged_reads s /\ 0 <= unmerged_reads s
  /\ 0 <= no_alignment s /\ 0 <= too_many_aligns s /\ 0 <= low_matches s
  /\ 0 <= has_indel s /\ 0 <= pid_low s
  /\ merged_reads s + unmerged_reads s = n
  /\ reasons s = unmerged_reads s.

End MergeInputs.

(** ** [main] of [abyss-align] ([Align/mergepairs.cc]) *)

Module AlignMain.

Import PairedDBG.

Definition EXIT_SUCCESS : Z := 0.
Definition OPT_HELP : Z := 1.
Definition OPT_VERSION : Z := 2.

(** A character constant as the [int] that [getopt_long] hands back. *)
Definition chr (c : ascii) : Z := Z.of_nat (nat_of_ascii c).

(** [(char)c] *)
Definition to_char (c : Z) : ascii := ascii_of_nat (Z.to_nat (c mod 256)).

Definition invalid_option (c : Z) (optarg : string) : string :=
  "abyss-align: invalid option: `-" +:+ String (to_char c) optarg +:+ "'
".
Definition missing_arguments : string := "abyss-align: missing arguments
".
Definition too_many_arguments : string := "abyss-align: too many arguments
".
Definition try_help : string := "Try `abyss-align --help' for more information.
".

(** The names of the three files that [alignFiles] opens, from [opt::prefix]. *)
Definition unmerged1_name (prefix : string) : string := prefix +:+ "_reads_1.fastq".
Definition unmerged2_name (prefix : string) : string := prefix +:+ "_reads_2.fastq".
Definition merged_name (prefix : string) : string := prefix +:+ "_merged.fastq".

(** The line of counters that [main] prints last. *)
Definition stats_message (s : MergePairs.Stats) : string :=
  "Read merging stats: total=" +:+ pretty (MergePairs.total_reads s)
  +:+ " merged=" +:+ pretty (MergePairs.merged_reads s)
  +:+ " unmerged=" +:+ pretty (MergePairs.unmerged_reads s) +:+ "
no_alignment=" +:+ pretty (MergePairs.no_alignment s)
  +:+ " too_many_aligns=" +:+ pretty (MergePairs.too_many_aligns s)
  +:+ " too_few_matches=" +:+ pretty (MergePairs.low_matches s)
  +:+ " has_indel=" +:+ pretty (MergePairs.has_indel s)
  +:+ " low_pid=" +:+ pretty (MergePairs.pid_low s) +:+ "
".

(** One call of [getopt_long]: the value it hands back, [optarg] after it, and
    what it wrote on standard error during the call. [main] leaves [opterr]
    set and [shortopts] has no colon at its head, so [getopt_long] prints a
    diagnostic of its own whenever it hands back ['?']. *)
Record Getopt := mkGetopt
  { value : Z; optarg : option string; diagnostic : list string }.

Section Main.

(** [opt::identity] is a [float]. *)
Context {float : Type}.

(** The options that [main] sets: those of [namespace opt] in this file, and
    those of [Common/Options.h], [DataLayer/Options.h] and [Align/Options.h]
    that its [switch] and its first lines assign. *)
Record Options := mkOptions
  { prefix : string; identity : float; min_matches : Z;
    qualityThreshold : Z; maxLength : Z; verbose : Z;
    match_ : Z; mismatch : Z; gap_open : Z; gap_extend : Z }.

(** The texts of [USAGE_MESSAGE] and [VERSION_MESSAGE] hold macros of
    [config.h]. *)
Variables USAGE_MESSAGE VERSION_MESSAGE : string.

(** [arg >> x] on an [istringstream arg] made of the option's argument: the
    value that the extraction leaves in [x], from the text and the value
    before, and [arg.eof()] afterwards. *)
Variable extract_prefix : string -> string -> string * bool.
Variable extract_identity : string -> float -> float * bool.
Variable extract_min_matches : string -> Z -> Z * bool.
Variable extract_qualityThreshold : string -> Z -> Z * bool.
Variable extract_maxLength : string -> Z -> Z * bool.

(** [alignFiles(reads1, reads2)] on the files of these names, with the option
    state of the call: the counters it leaves and what it prints on standard
    error, or nothing when one of its assertions fails. *)
Variable alignFiles_on : Options -> string -> string
                         -> option (MergePairs.Stats * list string).

(** The four assignments at the head of [main]. *)
Definition alignment_defaults (o : Options) : Options :=
  mkOptions (prefix o) (identity o) (min_matches o) (qualityThreshold o)
    (maxLength o) (verbose o) 1 (-2) (-10000) (-10000).

Definition set_prefix (v : string) (o : Options) : Options :=
  mkOptions v (identity o) (min_matches o) (qualityThreshold o) (maxLength o)
    (verbose o) (match_ o) (mismatch o) (gap_open o) (gap_extend o).
Definition set_identity (v : float) (o : Options) : Options :=
  mkOptions (prefix o) v (min_matches o) (qualityThreshold o) (maxLength o)
    (verbose o) (match_ o) (mismatch o) (gap_open o) (gap_extend o).
Definition set_min_matches (v : Z) (o : Options) : Options :=
  mkOptions (prefix o) (identity o) v (qualityThreshold o) (maxLength o)
    (verbose o) (match_ o) (mismatch o) (gap_open o) (gap_extend o).
Definition set_qualityThreshold (v : Z) (o : Options) : Options :=
  mkOptions (prefix o) (identity o) (min_matches o) v (maxLength o)
    (verbose o) (match_ o) (mismatch o) (gap_open o) (gap_extend o).
Definition set_maxLength (v : Z) (o : Options) : Options :=
  mkOptions (prefix o) (identity o) (min_matches o) (qualityThreshold o) v
    (verbose o) (match_ o) (mismatch o) (gap_open o) (gap_extend o).
Definition set_verbose (v : Z) (o : Options) : Options :=
  mkOptions (prefix o) (identity o) (min_matches o) (qualityThreshold o)
    (maxLength o) v (match_ o) (mismatch o) (gap_open o) (gap_extend o).

(** The [switch] of the option loop on the value [c] of [getopt_long], with
    [arg] made of [optarg] (of the empty string when [optarg] is null). It
    leaves the options, the flag [die] and [arg.eof()], which is false for a
    stream from which nothing was extracted; or [main] exits. Nothing is
    given back when [opt::verbose++] overflows an [int]. *)
Definition switch (c : Z) (arg : string) (o : Options) (die : bool)
  : option (Outcome (Options * bool * bool) * list string) :=
  if c =? chr "?" then Some (Ret (o, true, false), [])
  else if c =? chr "o" then
    let '(v, eof) := extract_prefix arg (prefix o) in
    Some (Ret (set_prefix v o, die, eof), [])
  else if c =? chr "p" then
    let '(v, eof) := extract_identity arg (identity o) in
    Some (Ret (set_identity v o, die, eof), [])
  else if c =? chr "m" then
    let '(v, eof) := extract_min_matches arg (min_matches o) in
    Some (Ret (set_min_matches v o, die, eof), [])
  else if c =? chr "q" then
    let '(v, eof) := extract_qualityThreshold arg (qualityThreshold o) in
    Some (Ret (set_qualityThreshold v o, die, eof), [])
  else if c =? chr "l" then
    let '(v, eof) := extract_maxLength arg (maxLength o) in
    Some (Ret (set_maxLength v o, die, eof), [])
  else if c =? chr "v" then
    if verbose o <? 2 ^ 31 - 1
    then Some (Ret (set_verbose (verbose o + 1) o, die, false), [])
    else None
  else if c =? OPT_HELP then Some (Stop (Exit EXIT_SUCCESS), [USAGE_MESSAGE])
  else if c =? OPT_VERSION then Some (Stop (Exit EXIT_SUCCESS), [VERSION_MESSAGE])
  else Some (Ret (o, die, false), []).

(** One turn of the option loop: the [switch], then the test that the whole
    of the argument was taken. *)
Definition option_turn (c : Z) (optarg : option string) (o : Options) (die : bool)
  : option (Outcome (Options * bool) * list string) :=
  r ← switch c (default "" optarg) o die;
  match r with
  | (Ret (o', die', eof), msgs) =>
      match optarg with
      | Some text =>
          if negb eof
          then Some (Stop (Exit EXIT_FAILURE), msgs ++ [invalid_option c text])
          else Some (Ret (o', die'), msgs)
      | None => Some (Ret (o', die'), msgs)
      end
  | (Stop x, msgs) => Some (Stop x, msgs)
  end.

(** [for (int c; (c = getopt_long(...)) != -1;)], over the calls of
    [getopt_long] in turn, up to the one that hands back -1: what a call
    prints comes before what the body of the loop prints for it. *)
Fixpoint parse (args : list Getopt) (o : Options) (die : bool)
    (cerr : list string) : option (Outcome (Options * bool) * list string) :=
  match args with
  | [] => Some (Ret (o, die), cerr)
  | call :: rest =>
      r ← option_turn (value call) (optarg call) o die;
      match r with
      | (Ret (o', die'), msgs) =>
          parse rest o' die' (cerr ++ diagnostic call ++ msgs)
      | (Stop x, msgs) => Some (Stop x, cerr ++ diagnostic call ++ msgs)
      end
  end.

(** [main], from the option state [o] at its start, the calls of
    [getopt_long] and the arguments left from [optind] on; it gives back the
    exit status or the returned value, and standard error. *)
Definition main (o : Options) (args : list Getopt)
    (positional : list string) : option (Outcome Z * list string) :=
  r ← parse args (alignment_defaults o) false [];
  match r with
  | (Stop x, cerr) => Some (Stop x, cerr)
  | (Ret (o, die), cerr) =>
      let n := len positional in
      let '(die, cerr) :=
        if n <? 2 then (true, cerr ++ [missing_arguments]) else (die, cerr) in
      let '(die, cerr) :=
        if 2 <? n then (true, cerr ++ [too_many_arguments]) else (die, cerr) in
      if die then Some (Stop (Exit EXIT_FAILURE), cerr ++ [try_help])
      else
        reads1 ← at_ positional 0;
        reads2 ← at_ positional 1;
        '(stats, msgs) ← alignFiles_on o reads1 reads2;
        Some (Ret 0, cerr ++ msgs ++ [stats_message stats])
  end.

(** A call in which [getopt_long] did not know the option. *)
Definition unknown (call : Getopt) : bool := value call =? chr "?".

(** The scoring of the aligner is the same in two option states. *)
Definition same_scoring (o o' : Options) : Prop :=
  match_ o' = match_ o /\ mismatch o' = mismatch o
  /\ gap_open o' = gap_open o /\ gap_extend o' = gap_extend o.

End Main.

Arguments Options : clear implicits.

End AlignMain.

(** ** The values of k in the loop of [main] *)

Module MultiK.

Import PairedDBG.

(** Two option states with the same range of k and the same name for the
    final contig file. *)
Definition same_range (o o' : Options) : Prop :=
  kMin o' = kMin o /\ kMax o' = kMax o /\ kStep o' = kStep o
  /\ contigsPath o' = contigsPath o.

Section Range.

Context {G Contig : Type} {P : Passes G Contig}.

(** [setCoverageParameters] leaves the range of k and the name of the final
    contig file as they are. *)
Definition keeps_range : Prop :=
  forall o (g : G), same_range o (setCoverageParameters o g).

End Range.

(** The values of [k += opt::kStep] when no addition wraps: [n] of them,
    from [k]. *)
Fixpoint k_values (n : nat) (k step : Z) : list Z :=
  match n with
  | O => []
  | S n' => k :: k_values n' (k + step) step
  end.

(** The number of values from [k] on that pass the test [k <= opt::kMax]. *)
Definition turns_from (k kMax step : Z) : nat :=
  if k <=? kMax then S (Z.to_nat ((kMax - k) / step)) else O.

(** The values of k of a whole run of the loop. *)
Definition ks (o : Options) : list Z :=
  k_values (turns_from (kMin o) (kMax o) (kStep o)) (kMin o) (kStep o).

(** The text of the assertion of [popBubbles]. *)
Definition out_good : string := "out.good()".

End MultiK.

(** ** More inputs for the examples *)

Module Example2.

Import PairedDBG.

(** A read 2 whose reverse complement, [ACGTGG], agrees with read 1 of the
    example on the four bases of the overlap. *)
Definition rec2 : MergePairs.FastqRecord :=
  MergePairs.mkFastq "pair/2" "" (list_ascii_of_string "CCACGT")
    (list_ascii_of_string "III5II").

(** A collection that is the list of the files loaded, each file a contig;
    no pass removes anything. *)
Definition passes : Passes (list string) string :=
  {| loadSequences := fun o g path => g ++ [path];
     new_collection := [];
     setDeletedKey := fun g => g;
     shrink := fun g => g;
     empty := fun g => if g is [] then true else false;
     setCoverageParameters := fun o g => o;
     generateAdjacency := fun o g => g;
     erodeEnds := fun o g => (g, 0);
     cleanup := fun g => g;
     performTrim := fun o g => g;
     markAmbiguous := fun o g => g;
     assembleContigs := fun o g => (g, g);
     splitAmbiguous := fun o g => g;
     wipeFlag := fun flags g => g;
     popBubblesInto := fun o g => (g, 0, true);
     SF_MARK_SENSE := 1;
     SF_MARK_ANTISENSE := 2 |}.

(** The passes of the store of the first example, but for an erosion that
    removes nothing and says each time that it eroded one k-mer. *)
Definition passes_restless : Passes Store.Store (list Z) :=
  {| loadSequences := fun o g path =>
       g ++ [(Z.of_nat (String.length path), Store.mkNode 0 1 0 false)];
     new_collection := [];
     setDeletedKey := fun g => g;
     shrink := fun g => g;
     empty := Store.empty;
     setCoverageParameters := fun o g => o;
     generateAdjacency := fun o g => Store.generateAdjacency (kmerSize o) g;
     erodeEnds := fun o g => (g, 1);
     cleanup := Store.cleanup;
     performTrim := fun o g => g;
     markAmbiguous := fun o g => g;
     assembleContigs := fun o g =>
       (g, map (fun slot => [fst slot]) (List.filter Store.live g));
     splitAmbiguous := fun o g => g;
     wipeFlag := Store.wipeFlag;
     popBubblesInto := fun o g => (g, 0, true);
     SF_MARK_SENSE := 1;
     SF_MARK_ANTISENSE := 2 |}.

(** One read file and k from 4 to [kMax] by [kStep]. *)
Definition options (kMax kStep : Z) : Options :=
  {| kmerSize := 4; singleKmerSize := 4; kMin := 4; kMax := kMax; kStep := kStep;
     erode := 0; erodeStrand := 0; coverage := 0%Q; trimLen := 4; bubbleLen := 12;
     graphPath := ""; contigsPath := "contigs.fa"; inFiles := ["reads.fa"%string] |}.

Definition world (o : Options) : World string := mkWorld o [] [] [] [].

(** The same passes with a bubble file that goes bad. *)
Definition passes_bad_bubbles : Passes (list string) string :=
  {| loadSequences := fun o g path => g ++ [path];
     new_collection := [];
     setDeletedKey := fun g => g;
     shrink := fun g => g;
     empty := fun g => if g is [] then true else false;
     setCoverageParameters := fun o g => o;
     generateAdjacency := fun o g => g;
     erodeEnds := fun o g => (g, 0);
     cleanup := fun g => g;
     performTrim := fun o g => g;
     markAmbiguous := fun o g => g;
     assembleContigs := fun o g => (g, g);
     splitAmbiguous := fun o g => g;
     wipeFlag := fun flags g => g;
     popBubblesInto := fun o g => (g, 0, false);
     SF_MARK_SENSE := 1;
     SF_MARK_ANTISENSE := 2 |}.

(** Extractions for the example: the prefix is the whole argument; a number
    is the value of the decimal digits at the head of the text, and the
    stream is at its end when nothing follows them; the identity is left as
    it was. *)
Definition extract_prefix (text old : string) : string * bool := (text, true).
Definition extract_identity (text : string) (old : Q) : Q * bool := (old, true).

Definition digit (c : ascii) : option Z :=
  let n := Z.of_nat (nat_of_ascii c) in
  if (48 <=? n) && (n <=? 57) then Some (n - 48) else None.

Fixpoint digits (text : string) (acc : Z) : Z * string :=
  match text with
  | EmptyString => (acc, EmptyString)
  | String c rest =>
      match digit c with
      | Some d => digits rest (10 * acc + d)
      | None => (acc, text)
      end
  end.

Definition extract_number (text : string) (old : Z) : Z * bool :=
  let '(v, rest) := digits text 0 in (v, String.eqb rest "").

(** The line of [getopt_long] for an option [--bogus]. *)
Definition unrecognized : string := "abyss-align: unrecognized option '--bogus'
".

(** A run of [alignFiles] that finds no record in its files. *)
Definition alignFiles_on (o : AlignMain.Options Q) (reads1 reads2 : string)
  : option (MergePairs.Stats * list string) :=
  Some (MergeInputs.stats0, []).

(** The options of [abyss-align] before its [main]: the defaults of
    [namespace opt], an identity of 9/10, and zero elsewhere. *)
Definition align_options : AlignMain.Options Q :=
  AlignMain.mkOptions "out" (9 # 10)%Q 10 0 0 0 0 0 0 0.

Definition align_main :=
  AlignMain.main "usage" "version" extract_prefix extract_identity extract_number
    extract_number extract_number alignFiles_on.

Definition align_parse :=
  AlignMain.parse "usage" "version" extract_prefix extract_identity extract_number
    extract_number extract_number.

End Example2.

(** * Properties *)

(** ** Machine arithmetic and indexed containers *)

Lemma len_nonneg {A} (l : list A) : 0 <= len l.
Proof. unfold len. lia. Qed.

Lemma wrap32_small x : 0 <= x < 2 ^ 32 -> wrap32 x = x.
Proof. intros. unfold wrap32. apply Z.mod_small. lia. Qed.

Lemma wrap64_small x : 0 <= x < 2 ^ 64 -> wrap64 x = x.
Proof. intros. unfold wrap64. apply Z.mod_small. lia. Qed.

Lemma to_int_small x : 0 <= x < 2 ^ 31 -> to_int x = x.
Proof.
  intros H. unfold to_int. rewrite wrap32_small by lia.
  destruct (Z.ltb_spec x (2 ^ 31)); lia.
Qed.

Lemma at_Some {A} (l : list A) (i : Z) :
  0 <= i < len l -> exists x, at_ l i = Some x /\ l !! Z.to_nat i = Some x.
Proof.
  intros H. unfold at_.
  destruct (Z.leb_spec 0 i); [|lia]. destruct (Z.ltb_spec i (len l)); [|lia].
  simpl. destruct (lookup_lt_is_Some_2 l (Z.to_nat i)) as [x Hx].
  - unfold len in *. lia.
  - exists x. auto.
Qed.

Lemma at_lookup {A} (l : list A) (i : Z) (x : A) :
  at_ l i = Some x -> 0 <= i < len l /\ l !! Z.to_nat i = Some x.
Proof.
  unfold at_. destruct (Z.leb_spec 0 i); simpl; [|discriminate].
  destruct (Z.ltb_spec i (len l)); [|discriminate]. intros. split; [lia|done].
Qed.

Lemma set_at_Some {A} (l : list A) (i : Z) (x : A) :
  0 <= i < len l -> set_at l i x = Some (<[Z.to_nat i := x]> l).
Proof.
  intros H. unfold set_at.
  destruct (Z.leb_spec 0 i); [|lia]. destruct (Z.ltb_spec i (len l)); [|lia].
  reflexivity.
Qed.

Lemma len_insert {A} (l : list A) (i : nat) (x : A) : len (<[i := x]> l) = len l.
Proof. unfold len. now rewrite length_insert. Qed.

Lemma copy_Some {A} (src : list A) (from upto : Z) (dst : list A) (pos : Z) :
  0 <= from <= upto -> upto <= len src -> 0 <= pos ->
  pos + (upto - from) <= len dst ->
  exists out, copy src from upto dst pos = Some out /\ len out = len dst /\
    (forall j, 0 <= j < pos -> out !! Z.to_nat j = dst !! Z.to_nat j).
Proof.
  intros Hf Hu Hp Hd. unfold copy.
  destruct (Z.leb_spec 0 from); [|lia].
  destruct (Z.leb_spec from upto); [|lia].
  destruct (Z.leb_spec upto (len src)); [|lia].
  destruct (Z.leb_spec 0 pos); [|lia].
  destruct (Z.leb_spec (pos + (upto - from)) (len dst)); [|lia].
  simpl. eexists. split; [reflexivity|]. unfold len in *. split.
  - rewrite !length_app, !length_take, !length_drop. lia.
  - intros j Hj. rewrite lookup_app_l by (rewrite length_take; lia).
    apply lookup_take_lt. lia.
Qed.

(** ** The read-pair merger *)

Section MergeFacts.

Import MergePairs.

Variable char_val : ascii -> Z.
Variable reverseComplement : Sequence -> Sequence.

#[local] Abbreviation char_max := (MergePairs.char_max char_val).
#[local] Abbreviation char_min := (MergePairs.char_min char_val).
#[local] Abbreviation bestBase := (MergePairs.bestBase char_val).
#[local] Abbreviation mergeReads := (MergePairs.mergeReads char_val reverseComplement).

Lemma char_max_val a b : char_val (char_max a b) = Z.max (char_val a) (char_val b).
Proof.
  unfold MergePairs.char_max, char_gt.
  destruct (Z.ltb_spec (char_val a) (char_val b)); lia.
Qed.

Lemma char_min_val a b : char_val (char_min a b) = Z.min (char_val a) (char_val b).
Proof.
  unfold MergePairs.char_min, char_gt.
  destruct (Z.ltb_spec (char_val b) (char_val a)); lia.
Qed.

Section FixOverlap.

Variables seq1 qual1 rc_seq2 rc_qual2 : list ascii.
Variable ol : Z.

Hypothesis ol_le_1 : ol <= len seq1.
Hypothesis ol_le_2 : ol <= len rc_seq2.
Hypothesis qual1_len : len qual1 = len seq1.
Hypothesis qual2_len : len rc_qual2 = len rc_seq2.
Hypothesis seq1_int : len seq1 < 2 ^ 31.

#[local] Abbreviation fix_overlap_at :=
  (MergePairs.fix_overlap_at char_val seq1 qual1 rc_seq2 rc_qual2 ol).
#[local] Abbreviation fix_overlap :=
  (MergePairs.fix_overlap char_val seq1 qual1 rc_seq2 rc_qual2 ol).
#[local] Abbreviation overlap_fixed_at :=
  (MergePairs.overlap_fixed_at char_val seq1 qual1 rc_seq2 rc_qual2 ol).

Lemma fix_overlap_at_spec i out_seq out_qual :
  0 <= i < ol -> len seq1 <= len out_seq -> len seq1 <= len out_qual ->
  exists x y,
    fix_overlap_at i (out_seq, out_qual)
    = Some (<[Z.to_nat (len seq1 - ol + i) := x]> out_seq,
            <[Z.to_nat (len seq1 - ol + i) := y]> out_qual)
    /\ overlap_fixed_at i (<[Z.to_nat (len seq1 - ol + i) := x]> out_seq)
         (<[Z.to_nat (len seq1 - ol + i) := y]> out_qual).
Proof.
  intros Hi Hs Hq. unfold MergePairs.fix_overlap_at.
  set (p := len seq1 - ol + i).
  assert (Hp : 0 <= p < len seq1) by (unfold p; lia).
  rewrite (wrap64_small p) by lia. rewrite to_int_small by lia.
  rewrite wrap32_small by lia.
  destruct (Z.leb_spec 0 p); [|lia]. simpl.
  destruct (Z.ltb_spec p (len seq1)); [|lia].
  destruct (Z.ltb_spec i (len rc_seq2)); [|lia].
  destruct (Z.ltb_spec p (len out_seq)); [|lia]. simpl.
  destruct (at_Some seq1 p) as (a & -> & Ha); [lia|].
  destruct (at_Some rc_seq2 i) as (b & -> & Hb); [lia|].
  destruct (at_Some qual1 p) as (qa & -> & Hqa); [lia|].
  destruct (at_Some rc_qual2 i) as (qb & -> & Hqb); [lia|].
  simpl.
  exists (if Ascii.eqb a b then a else bestBase a b qa qb),
         (if Ascii.eqb a b then char_max qa qb else char_min qa qb).
  split.
  - destruct (Ascii.eqb a b); rewrite !set_at_Some by lia; reflexivity.
  - exists a, b, qa, qb. repeat split; try assumption.
    + apply list_lookup_insert_eq. unfold len in *. lia.
    + apply list_lookup_insert_eq. unfold len in *. lia.
Qed.

Lemma fix_overlap_spec (n : nat) : forall i out_seq out_qual,
  0 <= i -> i + Z.of_nat n = ol ->
  len seq1 <= len out_seq -> len seq1 <= len out_qual ->
  exists s q,
    fix_overlap n i (out_seq, out_qual) = Some (s, q)
    /\ len s = len out_seq /\ len q = len out_qual
    /\ (forall j, i <= j < ol -> overlap_fixed_at j s q)
    /\ (forall p : nat, Z.of_nat p < len seq1 - ol + i ->
          s !! p = out_seq !! p /\ q !! p = out_qual !! p).
Proof.
  induction n as [|n IH]; intros i out_seq out_qual Hi Hn Hs Hq.
  - exists out_seq, out_qual. simpl.
    destruct (Z.ltb_spec i ol); [lia|]. simpl.
    repeat split; try reflexivity. intros j Hj. lia.
  - cbn [MergePairs.fix_overlap]. destruct (Z.ltb_spec i ol); [|lia].
    cbn [negb].
    destruct (fix_overlap_at_spec i out_seq out_qual) as (x & y & -> & Hfix);
      [lia|assumption|assumption|].
    cbn [mbind option_bind]. unfold incr32. rewrite wrap32_small by lia.
    set (pos := Z.to_nat (len seq1 - ol + i)) in *.
    destruct (IH (i + 1) (<[pos := x]> out_seq) (<[pos := y]> out_qual))
      as (s & q & -> & Hls & Hlq & Hin & Hout);
      [lia|lia|rewrite len_insert; lia|rewrite len_insert; lia|].
    exists s, q. rewrite len_insert in Hls, Hlq.
    split; [reflexivity|]. split; [assumption|]. split; [assumption|]. split.
    + intros j Hj. destruct (Z.eq_dec j i) as [->|Hne].
      * destruct Hfix as (a & b & qa & qb & H1 & H2 & H3 & H4 & H5 & H6).
        exists a, b, qa, qb. fold pos.
        destruct (Hout pos) as [Es Eq]; [unfold pos; lia|].
        rewrite Es, Eq. repeat split; assumption.
      * apply Hin. lia.
    + intros p Hp. destruct (Hout p) as [Es Eq]; [lia|].
      rewrite Es, Eq.
      rewrite !list_lookup_insert_ne by (unfold pos; lia). split; reflexivity.
Qed.

End FixOverlap.

Lemma len_replicate {A} (n : Z) (x : A) : 0 <= n -> len (replicate (Z.to_nat n) x) = n.
Proof. intros. unfold len. rewrite length_replicate. lia. Qed.

Lemma len_rev {A} (l : list A) : len (rev l) = len l.
Proof. unfold len. now rewrite length_rev. Qed.

Lemma wrap64_neg x : - 2 ^ 64 <= x < 0 -> wrap64 x = x + 2 ^ 64.
Proof.
  intros H. unfold wrap64. rewrite <- (Z.mod_add x 1 (2 ^ 64)) by lia.
  apply Z.mod_small. lia.
Qed.

(** A gapless overlap of in-range offsets is a suffix of read 1 and a prefix
    of the reverse complement of read 2. *)
Lemma isGapless_inv (o : overlap_align) (s : Sequence) :
  isGapless o s = true ->
  0 <= overlap_t_pos o < 2 ^ 32 -> 0 <= overlap_h_pos o < 2 ^ 31 ->
  len s < 2 ^ 31 ->
  overlap_t_pos o + length_ o = len s /\ length_ o = overlap_h_pos o + 1.
Proof.
  unfold isGapless. intros H Ht Hh Hs.
  apply andb_true_iff in H as [H1 H2].
  apply Z.eqb_eq in H1, H2. rewrite wrap32_small in H2 by lia.
  pose proof (len_nonneg s).
  destruct (Z.le_gt_cases (overlap_t_pos o) (len s)).
  - rewrite wrap64_small in H1 by lia. lia.
  - rewrite wrap64_neg in H1 by lia. lia.
Qed.

(** C9. Inside the overlap, [mergeReads] keeps a base on which the reads
    agree, with the larger quality, and otherwise takes the base of strictly
    larger quality (that of read 2 on a tie), with the smaller quality. Read 2
    is taken reverse-complemented, its qualities reversed; index [i] of the
    overlap is position [len seq1 - ol + i] of read 1 and of the merged read. *)
Theorem mergeReads_overlap (o : overlap_align) (rec1 rec2 : FastqRecord) :
  length (qual rec1) = length (seq rec1) ->
  length (qual rec2) = length (seq rec2) ->
  length (reverseComplement (seq rec2)) = length (seq rec2) ->
  len (seq rec1) < 2 ^ 31 -> len (seq rec2) < 2 ^ 31 ->
  0 <= overlap_t_pos o < 2 ^ 32 ->
  0 <= overlap_h_pos o < len (seq rec2) ->
  isGapless o (seq rec1) = true ->
  exists out, mergeReads o rec1 rec2 = Some out /\
    forall i, 0 <= i < length_ o ->
      let pos := Z.to_nat (len (seq rec1) - length_ o + i) in
      exists a b qa qb,
        seq rec1 !! pos = Some a /\
        reverseComplement (seq rec2) !! Z.to_nat i = Some b /\
        qual rec1 !! pos = Some qa /\
        rev (qual rec2) !! Z.to_nat i = Some qb /\
        (a = b ->
           seq out !! pos = Some a /\
           exists q, qual out !! pos = Some q /\
             char_val q = Z.max (char_val qa) (char_val qb)) /\
        (a <> b ->
           seq out !! pos = Some (if char_val qb <? char_val qa then a else b) /\
           exists q, qual out !! pos = Some q /\
             char_val q = Z.min (char_val qa) (char_val qb)).
Proof.
  intros Hq1 Hq2 Hrc H1 H2 Ht Hh Hgap.
  destruct (isGapless_inv o (seq rec1) Hgap) as [Hsuf Hpre]; [lia|lia|lia|].
  assert (Lrc : len (reverseComplement (seq rec2)) = len (seq rec2))
    by (unfold len; now rewrite Hrc).
  assert (Lq1 : len (qual rec1) = len (seq rec1)) by (unfold len; now rewrite Hq1).
  assert (Lq2 : len (rev (qual rec2)) = len (reverseComplement (seq rec2)))
    by (rewrite len_rev, Lrc; unfold len; now rewrite Hq2).
  unfold MergePairs.mergeReads.
  set (ol := length_ o) in *. set (seq1 := seq rec1) in *.
  set (rc2 := reverseComplement (seq rec2)) in *.
  set (L := overlap_t_pos o + ol + len rc2 - overlap_h_pos o - 1).
  assert (HL : L = len seq1 + len rc2 - ol) by (unfold L; lia).
  rewrite (wrap64_small L) by lia.
  rewrite !len_replicate by lia.
  destruct (Z.leb_spec (len rc2) L); [|lia]. rewrite orb_true_r. cbn [negb].
  destruct (copy_Some seq1 0 (overlap_t_pos o) (replicate (Z.to_nat L) "N"%char) 0)
    as (s1 & -> & Ls1 & _); [lia|lia|lia|rewrite len_replicate; lia|].
  rewrite len_replicate in Ls1 by lia. cbn [mbind option_bind].
  destruct (copy_Some rc2 (overlap_h_pos o + 1) (len rc2) s1 (overlap_t_pos o + ol))
    as (s2 & -> & Ls2 & _); [lia|lia|lia|lia|].
  cbn [mbind option_bind].
  destruct (copy_Some (qual rec1) 0 (overlap_t_pos o)
              (replicate (Z.to_nat L) "#"%char) 0)
    as (q1 & -> & Lq1' & _); [lia|lia|lia|rewrite len_replicate; lia|].
  rewrite len_replicate in Lq1' by lia. cbn [mbind option_bind].
  destruct (copy_Some (rev (qual rec2)) ol (len (rev (qual rec2))) q1 (len seq1))
    as (q2 & -> & Lq2' & _); [lia|lia|lia|lia|].
  cbn [mbind option_bind].
  destruct (fix_overlap_spec seq1 (qual rec1) rc2 (rev (qual rec2)) ol
              ltac:(lia) ltac:(lia) Lq1 Lq2 H1 (Z.to_nat ol) 0 s2 q2)
    as (s & q & -> & _ & _ & Hin & _); [lia|lia|lia|lia|].
  cbn [mbind option_bind]. eexists. split; [reflexivity|].
  intros i Hi. cbn [seq qual].
  destruct (Hin i Hi) as (a & b & qa & qb & Ea & Eb & Eqa & Eqb & Es & Eq).
  exists a, b, qa, qb. unfold MergePairs.bestBase, char_gt in Es.
  repeat split; try assumption.
  - destruct (Ascii.eqb_spec a b); [assumption|contradiction].
  - destruct (Ascii.eqb_spec a b); [|contradiction].
    exists (char_max qa qb). split; [assumption|apply char_max_val].
  - destruct (Ascii.eqb_spec a b); [contradiction|]. exact Es.
  - destruct (Ascii.eqb_spec a b); [contradiction|].
    exists (char_min qa qb). split; [assumption|apply char_min_val].
Qed.

Lemma stage_counted_after (s : Stage) (stats : Stats) (f : Stats -> Stats) :
  (forall x, no_alignment (f x) = no_alignment x
             /\ low_matches (f x) = low_matches x
             /\ pid_low (f x) = pid_low x /\ has_indel (f x) = has_indel x) ->
  stage_counted s stats (f (bump_stage s (bump_total stats))).
Proof.
  intros Hf. unfold stage_counted.
  destruct (Hf (bump_stage s (bump_total stats))) as (-> & -> & -> & ->).
  destruct s; cbn; repeat split; reflexivity.
Qed.

Section Filter.

Variable alignOverlap : Sequence -> Sequence -> list overlap_align.
Variable pid_below_identity : overlap_align -> bool.
Variable min_matches : Z.

#[local] Abbreviation filterAlignments :=
  (MergePairs.filterAlignments pid_below_identity min_matches).
#[local] Abbreviation alignPair :=
  (MergePairs.alignPair char_val reverseComplement alignOverlap
     pid_below_identity min_matches).
#[local] Abbreviation enough_matches := (MergePairs.enough_matches min_matches).
#[local] Abbreviation identical_enough :=
  (MergePairs.identical_enough pid_below_identity).
#[local] Abbreviation survivors :=
  (MergePairs.survivors pid_below_identity min_matches).
#[local] Abbreviation first_empty :=
  (MergePairs.first_empty pid_below_identity min_matches).

(** The erasing loop, run from any cursor, keeps what lies before the cursor
    and filters what lies after it. *)
Lemma erase_loop_from (doomed : overlap_align -> bool) (n : nat) :
  forall (v : list overlap_align) (it : Z),
    0 <= it <= len v -> len v - it <= Z.of_nat n ->
    erase_loop doomed n v it
    = Some (take (Z.to_nat it) v
            ++ List.filter (fun o => negb (doomed o)) (drop (Z.to_nat it) v)).
Proof.
  induction n as [|n IH]; intros v it Hit Hn.
  - assert (it = len v) as -> by lia. cbn [erase_loop].
    rewrite Z.eqb_refl. unfold len. rewrite Nat2Z.id.
    rewrite firstn_all, drop_all. cbn. now rewrite app_nil_r.
  - cbn [erase_loop]. destruct (Z.eqb_spec it (len v)) as [->|Hne].
    + unfold len. rewrite Nat2Z.id.
      rewrite firstn_all, drop_all. cbn. now rewrite app_nil_r.
    + destruct (at_Some v it) as (o & -> & Ho); [lia|]. cbn [mbind option_bind].
      rewrite (drop_S _ _ _ Ho). cbn [List.filter].
      destruct (doomed o); cbn [negb].
      * replace (it - 1 + 1) with it by lia.
        assert (Hl : len (delete (Z.to_nat it) v) = len v - 1).
        { unfold len. rewrite length_delete by eauto.
          apply lookup_lt_Some in Ho. lia. }
        rewrite IH by lia. f_equal. rewrite delete_take_drop.
        rewrite take_app_length' by (rewrite length_take; unfold len in *; lia).
        rewrite drop_app_length' by (rewrite length_take; unfold len in *; lia).
        reflexivity.
      * rewrite IH by lia.
        replace (Z.to_nat (it + 1)) with (S (Z.to_nat it)) by lia.
        rewrite (take_S_r _ _ _ Ho). now rewrite <- app_assoc.
Qed.

Lemma erase_loop_filter (doomed : overlap_align -> bool) (v : list overlap_align) :
  erase_loop doomed (length v) v 0
  = Some (List.filter (fun o => negb (doomed o)) v).
Proof.
  rewrite erase_loop_from; [reflexivity| |]; pose proof (len_nonneg v);
    unfold len in *; lia.
Qed.

Lemma len_zero_nil {A} (l : list A) : (len l =? 0) = match l with [] => true | _ => false end.
Proof. destruct l; reflexivity. Qed.

(** [filterAlignments] leaves the candidates that pass the three filters, and
    bumps the counter of the stage at which none was left. *)
Lemma filterAlignments_spec (l : list overlap_align) (rec : FastqRecord)
    (stats : Stats) :
  filterAlignments l rec stats
  = Some (survivors rec l, bump_stage (first_empty rec l) stats).
Proof.
  unfold MergePairs.filterAlignments, MergePairs.first_empty, MergePairs.survivors.
  rewrite len_zero_nil. destruct l as [|o l]; [reflexivity|].
  rewrite erase_loop_filter. cbn [mbind option_bind].
  fold (enough_matches (o :: l)). rewrite len_zero_nil.
  destruct (enough_matches (o :: l)) as [|o1 l1]; [reflexivity|].
  rewrite erase_loop_filter. cbn [mbind option_bind].
  fold (identical_enough (o1 :: l1)). rewrite len_zero_nil.
  destruct (identical_enough (o1 :: l1)) as [|o2 l2]; [reflexivity|].
  rewrite erase_loop_filter. cbn [mbind option_bind].
  fold (gapless rec (o2 :: l2)). rewrite len_zero_nil.
  destruct (gapless rec (o2 :: l2)); reflexivity.
Qed.

Lemma snoc_neq {A} (l : list A) (x : A) : l ++ [x] <> l.
Proof.
  intros H. apply (f_equal (@length A)) in H. rewrite length_app in H.
  cbn in H. lia.
Qed.

(** C10. A pair goes to the merged output exactly when one alignment is left
    after the three filters, applied in the order of the source; otherwise the
    two reads go unchanged to the two unmerged outputs; and the counter that
    is bumped is that of the stage at which the candidates first ran out. *)
Theorem alignPair_merges_iff_unique (stats : Stats) (out : Output)
    (rec1 rec2 : FastqRecord) :
  length (qual rec1) = length (seq rec1) ->
  length (qual rec2) = length (seq rec2) ->
  length (reverseComplement (seq rec2)) = length (seq rec2) ->
  len (seq rec1) < 2 ^ 31 -> len (seq rec2) < 2 ^ 31 ->
  (forall o, In o (alignOverlap (seq rec1) (reverseComplement (seq rec2))) ->
     0 <= overlap_t_pos o < 2 ^ 32 /\ 0 <= overlap_h_pos o < len (seq rec2)) ->
  exists stats' out',
    alignPair stats out rec1 rec2 = Some (stats', out') /\
    (merged out' <> merged out <->
     length (survivors rec1
               (alignOverlap (seq rec1) (reverseComplement (seq rec2)))) = 1%nat) /\
    (length (survivors rec1
               (alignOverlap (seq rec1) (reverseComplement (seq rec2)))) = 1%nat ->
     exists o m,
       survivors rec1 (alignOverlap (seq rec1) (reverseComplement (seq rec2))) = [o]
       /\ mergeReads o rec1 rec2 = Some m
       /\ merged out' = merged out ++ [m]
       /\ unmerged1 out' = unmerged1 out /\ unmerged2 out' = unmerged2 out) /\
    (length (survivors rec1
               (alignOverlap (seq rec1) (reverseComplement (seq rec2)))) <> 1%nat ->
     merged out' = merged out
     /\ unmerged1 out' = unmerged1 out ++ [rec1]
     /\ unmerged2 out' = unmerged2 out ++ [rec2]) /\
    stage_counted
      (first_empty rec1 (alignOverlap (seq rec1) (reverseComplement (seq rec2))))
      stats stats'.
Proof.
  intros Hq1 Hq2 Hrc H1 H2 Hwf.
  unfold MergePairs.alignPair. rewrite filterAlignments_spec.
  cbn [mbind option_bind].
  set (cands := alignOverlap (seq rec1) (reverseComplement (seq rec2))) in *.
  set (stage := first_empty rec1 cands).
  assert (Hkept : forall o, In o (survivors rec1 cands) ->
            In o cands /\ isGapless o (seq rec1) = true).
  { intros o Hin.
    unfold MergePairs.survivors, gapless, MergePairs.identical_enough,
      MergePairs.enough_matches in Hin.
    apply filter_In in Hin as [Hin Hgap].
    apply filter_In in Hin as [Hin _]. apply filter_In in Hin as [Hin _].
    unfold has_gap in Hgap. rewrite negb_involutive in Hgap. now split. }
  destruct (survivors rec1 cands) as [|o [|o' rest]].
  - eexists _, _. split; [reflexivity|]. cbn.
    split; [split; [intros Hc; now contradiction Hc|discriminate]|].
    split; [discriminate|]. split; [intros _; repeat split; reflexivity|].
    apply stage_counted_after. intros s. cbn. repeat split; reflexivity.
  - destruct (Hkept o) as [Hin Hgap]; [now left|].
    destruct (Hwf o Hin) as [Ht Hh].
    destruct (mergeReads_overlap o rec1 rec2 Hq1 Hq2 Hrc H1 H2 Ht Hh Hgap)
      as (m & Hm & _).
    change (len [o] =? 1) with true. change (at_ [o] 0) with (Some o).
    cbn [mbind option_bind]. rewrite Hm. cbn [mbind option_bind].
    eexists _, _. split; [reflexivity|]. cbn [merged unmerged1 unmerged2].
    split; [split; [reflexivity|intros _; apply snoc_neq]|].
    split; [intros _; exists o, m; repeat split; assumption|].
    split; [intros Hc; now contradiction Hc|].
    apply (stage_counted_after _ _ bump_merged).
    intros s. cbn. repeat split; reflexivity.
  - assert (Hbig : (len (o :: o' :: rest) =? 1) = false).
    { apply Z.eqb_neq. unfold len. cbn [length]. lia. }
    rewrite Hbig.
    eexists _, _. split; [reflexivity|]. cbn [merged unmerged1 unmerged2 length].
    split; [split; [intros Hc; now contradiction Hc|discriminate]|].
    split; [discriminate|]. split; [intros _; repeat split; reflexivity|].
    destruct (1 <? len (o :: o' :: rest)).
    + apply (stage_counted_after _ _ (fun s => bump_unmerged (bump_too_many s))).
      intros s. cbn. repeat split; reflexivity.
    + apply (stage_counted_after _ _ bump_unmerged).
      intros s. cbn. repeat split; reflexivity.
Qed.

End Filter.

End MergeFacts.

(** ** The graph store *)

Section StoreFacts.

Import Store.

Variable k : Z.

Lemma live_count_map (f : Z * Node -> Z * Node) (g : Store) :
  (forall slot, live (f slot) = live slot) ->
  live_count (map f g) = live_count g.
Proof.
  intros Hf. unfold live_count. induction g as [|slot g IH]; [reflexivity|].
  cbn [map List.filter]. rewrite Hf. destruct (live slot); cbn [length]; lia.
Qed.

Lemma live_count_generateAdjacency (g : Store) :
  live_count (generateAdjacency k g) = live_count g.
Proof.
  apply live_count_map. intros [key n]. unfold live. cbn [snd].
  destruct (deleted n) eqn:E; cbn [negb snd]; [now rewrite E|].
  cbn [set_extension deleted]. now rewrite E.
Qed.

(** A wave takes its doomed nodes, and no other, off the live ones. *)
Lemma live_count_wave (threshold : Z) (g : Store) :
  (live_count (wave threshold g)
   + length (List.filter (erodible threshold) g))%nat = live_count g.
Proof.
  unfold wave, live_count. induction g as [|slot g IH]; [reflexivity|].
  cbn [map List.filter]. destruct (erodible threshold slot) eqn:E.
  - assert (L : live slot = true).
    { unfold erodible in E. now destruct (live slot). }
    rewrite L. unfold live at 1. cbn [snd tombstone deleted negb length]. lia.
  - destruct (live slot); cbn [length]; lia.
Qed.

(** With a live node of fuel for each wave, erosion ends, and it ends on a
    store in which a further wave finds nothing. *)
Lemma erode_waves_ends (threshold : Z) (fuel : nat) :
  forall (g : Store) (eroded : Z),
    (live_count g <= fuel)%nat ->
    exists g' n,
      erode_waves k fuel threshold g eroded = Some (g', n)
      /\ List.filter (erodible threshold) g' = [] /\ eroded <= n.
Proof.
  induction fuel as [|fuel IH]; intros g eroded Hfuel.
  - cbn [erode_waves]. destruct (List.filter (erodible threshold) g) eqn:E.
    + exists g, eroded. repeat split; [assumption|lia].
    + pose proof (live_count_wave threshold g) as Hw. rewrite E in Hw.
      cbn [length] in Hw. lia.
  - cbn [erode_waves]. destruct (List.filter (erodible threshold) g) eqn:E.
    + exists g, eroded. repeat split; [assumption|lia].
    + pose proof (live_count_wave threshold g) as Hw. rewrite E in Hw.
      cbn [length] in Hw.
      destruct (IH (generateAdjacency k (wave threshold g))
                  (eroded + len (p :: l))) as (g' & n & E' & Hnil & Hle).
      * rewrite live_count_generateAdjacency. lia.
      * exists g', n. repeat split; [assumption|assumption|].
        pose proof (len_nonneg (p :: l)). lia.
Qed.

Lemma erode_waves_stable (threshold : Z) (fuel : nat) (g : Store) (eroded : Z) :
  List.filter (erodible threshold) g = [] ->
  erode_waves k fuel threshold g eroded = Some (g, eroded).
Proof. intros E. destruct fuel; cbn [erode_waves]; now rewrite E. Qed.

Lemma erodeEnds_stable (threshold : Z) (g : Store) :
  List.filter (erodible threshold) (fst (erodeEnds k threshold g)) = [].
Proof.
  unfold erodeEnds.
  destruct (erode_waves_ends threshold (live_count g) g 0) as (g' & n & -> & E & _);
    [lia|]. exact E.
Qed.

Lemma erodeEnds_again (threshold : Z) (g : Store) :
  erodeEnds k threshold (fst (erodeEnds k threshold g))
  = (fst (erodeEnds k threshold g), 0).
Proof.
  unfold erodeEnds at 1. now rewrite erode_waves_stable by apply erodeEnds_stable.
Qed.

End StoreFacts.

Section BubbleFacts.

Import Store.

Variable path_before : list Z -> list Z -> bool.

#[local] Abbreviation loser := (Store.loser path_before).
#[local] Abbreviation winner := (Store.winner path_before).
#[local] Abbreviation popBubble := (Store.popBubble path_before).

Lemma on_path_In (path : list Z) (key : Z) : on_path path key = true <-> In key path.
Proof.
  unfold on_path. rewrite existsb_exists. split.
  - intros (x & Hx & E). apply Z.eqb_eq in E. now subst.
  - intros Hin. exists key. split; [assumption|apply Z.eqb_refl].
Qed.

Lemma on_path_not_In (path : list Z) (key : Z) :
  on_path path key = false <-> ~ In key path.
Proof.
  rewrite <- on_path_In. destruct (on_path path key); split; congruence.
Qed.

(** Popping tombstones slots in place: it adds no slot and revives none. *)
Lemma popBubble_length (g : Store) (p q : list Z) :
  length (popBubble g p q) = length g.
Proof. unfold Store.popBubble. apply length_map. Qed.

Lemma live_count_tombstoning (doomed : Z * Node -> bool) (g : Store) :
  (live_count (map (fun slot => if doomed slot
                                then (fst slot, tombstone (snd slot)) else slot) g)
   <= live_count g)%nat.
Proof.
  unfold live_count. induction g as [|slot g IH]; [reflexivity|].
  cbn [map List.filter]. destruct (doomed slot).
  - unfold live at 1. cbn [snd tombstone deleted negb].
    destruct (live slot); cbn [length]; lia.
  - destruct (live slot); cbn [length]; lia.
Qed.

Lemma popBubble_gone (g : Store) (p q : list Z) (key : Z) :
  In key (loser g p q) -> ~ In key (winner g p q) -> ~ alive (popBubble g p q) key.
Proof.
  intros Hl Hw (n & Hin & Hlive). unfold Store.popBubble in Hin.
  apply in_map_iff in Hin as ([key' n'] & E & _). cbn [fst snd] in E.
  destruct (on_path (loser g p q) key' && negb (on_path (winner g p q) key')) eqn:C.
  - injection E as <- <-. discriminate.
  - injection E as -> ->.
    apply on_path_In in Hl. apply on_path_not_In in Hw.
    rewrite Hl, Hw in C. discriminate.
Qed.

Lemma popBubble_kept (g : Store) (p q : list Z) (key : Z) :
  In key (winner g p q) -> alive g key -> alive (popBubble g p q) key.
Proof.
  intros Hw (n & Hin & Hlive). exists n. split; [|assumption].
  unfold Store.popBubble. apply in_map_iff. exists (key, n). split; [|assumption].
  cbn [fst snd]. apply on_path_In in Hw. rewrite Hw. cbn [negb].
  now rewrite andb_false_r.
Qed.

Lemma loser_swap (g : Store) (p q : list Z) :
  (forall a b, a <> b -> path_before a b = negb (path_before b a)) ->
  loser g p q = loser g q p /\ winner g p q = winner g q p.
Proof.
  intros Hord. unfold Store.loser, Store.winner.
  destruct (Z.ltb_spec (coverage_of g p) (coverage_of g q)),
           (Z.ltb_spec (coverage_of g q) (coverage_of g p)); try lia; auto.
  destruct (decide (p = q)) as [->|Hne].
  - destruct (path_before q q); auto.
  - rewrite (Hord p q Hne). destruct (path_before q p); auto.
Qed.


End BubbleFacts.

Section FlagFacts.

Import Store.

Lemma land_cleared_l (f a b : Z) : Z.land (Z.land f (Z.lnot (Z.lor a b))) a = 0.
Proof.
  apply Z.bits_inj'. intros i Hi.
  rewrite !Z.land_spec, Z.lnot_spec, Z.lor_spec, Z.bits_0 by assumption.
  destruct (Z.testbit f i), (Z.testbit a i), (Z.testbit b i); reflexivity.
Qed.

Lemma land_cleared_r (f a b : Z) : Z.land (Z.land f (Z.lnot (Z.lor a b))) b = 0.
Proof. rewrite (Z.lor_comm a b). apply land_cleared_l. Qed.

(** After [wipeFlag (a | b)] and [cleanup], no node carries [a] or [b]. *)
Lemma wiped_after_cleanup (a b : Z) (g : Store) (key : Z) (n : Node) :
  In (key, n) (cleanup (wipeFlag (Z.lor a b) g)) ->
  Z.land (flags n) a = 0 /\ Z.land (flags n) b = 0.
Proof.
  unfold cleanup, wipeFlag. intros Hin. apply filter_In in Hin as [Hin _].
  apply in_map_iff in Hin as ([key' n'] & E & _). cbn [fst snd] in E.
  injection E as <- <-. cbn [set_flags flags].
  split; [apply land_cleared_l|apply land_cleared_r].
Qed.

End FlagFacts.

(** ** The driver *)

Section DriverFacts.

Import PairedDBG.

Context {G Contig : Type} `{P : Passes G Contig}.

#[local] Arguments wrap32 : simpl never.
#[local] Arguments String.eqb : simpl never.
#[local] Arguments Z.ltb : simpl nomatch.

Lemma holds_bind {A B} (m : M Contig A) (f : A -> M Contig B) w Q F :
  holds m w (fun a w1 => holds (f a) w1 Q F) F -> holds (bind m f) w Q F.
Proof. unfold holds, bind. destruct (m w) as [[a|x] w1]; auto. Qed.

Lemma holds_ret {A} (a : A) (w : World Contig) Q F : Q a w -> holds (ret a) w Q F.
Proof. auto. Qed.

Lemma holds_get_opts (w : World Contig) Q F : Q (opts w) w -> holds get_opts w Q F.
Proof. auto. Qed.

Lemma holds_put_opts o (w : World Contig) Q F :
  Q tt (mkWorld o (log w) (cerr w) (written w) (emptied w)) ->
  holds (put_opts o) w Q F.
Proof. auto. Qed.

Lemma holds_emit e (w : World Contig) Q F :
  Q tt (mkWorld (opts w) (log w ++ [e]) (cerr w) (written w) (emptied w)) ->
  holds (emit e) w Q F.
Proof. auto. Qed.

Lemma holds_print_error msg (w : World Contig) Q F :
  Q tt (mkWorld (opts w) (log w) (cerr w ++ [msg]) (written w) (emptied w)) ->
  holds (print_error msg) w Q F.
Proof. auto. Qed.

Lemma holds_write_contigs path cs (w : World Contig) Q F :
  Q tt (mkWorld (opts w) (log w) (cerr w) (written w ++ [(path, cs)]) (emptied w)) ->
  holds (write_contigs path cs) w Q F.
Proof. auto. Qed.

Lemma holds_note_emptied b (w : World Contig) Q F :
  Q tt (mkWorld (opts w) (log w) (cerr w) (written w) (emptied w ++ [b])) ->
  holds (note_emptied b) w Q F.
Proof. auto. Qed.

Lemma holds_exit {A} s (w : World Contig) (Q : A -> World Contig -> Prop) F :
  F (Exit s) w -> holds (exit s) w Q F.
Proof. auto. Qed.

Lemma holds_out_of_fuel {A} (w : World Contig) (Q : A -> World Contig -> Prop) F :
  F OutOfFuel w -> holds out_of_fuel w Q F.
Proof. auto. Qed.

Lemma holds_assert b what (w : World Contig) Q F :
  (b = true -> Q tt w) ->
  (b = false ->
   F (AssertFailed what)
     (mkWorld (opts w) (log w) (cerr w ++ [assertion_failed what]) (written w)
        (emptied w))) ->
  holds (assert b what) w Q F.
Proof. unfold holds, assert. destruct b; auto. Qed.

Lemma holds_weaken {A} (m : M Contig A) w (Q Q' : A -> World Contig -> Prop)
    (F F' : Failure -> World Contig -> Prop) :
  holds m w Q F -> (forall a w', Q a w' -> Q' a w') ->
  (forall x w', F x w' -> F' x w') -> holds m w Q' F'.
Proof. unfold holds. destruct (m w) as [[a|x] w1]; auto. Qed.

Lemma load_each_run (paths : list string) : forall (g : G) (w : World Contig),
  load_each paths g w
  = (Ret (fold_left (loadSequences (opts w)) paths g),
     mkWorld (opts w) (log w ++ map EvLoadSequences paths) (cerr w) (written w)
       (emptied w)).
Proof.
  induction paths as [|path paths IH]; intros g [o lg ce wr em].
  - cbn. now rewrite app_nil_r.
  - cbn [load_each]. unfold bind at 1. cbn. rewrite IH. cbn.
    now rewrite <- app_assoc.
Qed.

Lemma holds_load_each paths (g : G) (w : World Contig) Q F :
  Q (fold_left (loadSequences (opts w)) paths g)
    (mkWorld (opts w) (log w ++ map EvLoadSequences paths) (cerr w) (written w)
       (emptied w)) ->
  holds (load_each paths g) w Q F.
Proof. unfold holds. now rewrite load_each_run. Qed.

Lemma positive_zeroed (o : Options) : positive (coverage (set_coverage 0 o)) = false.
Proof. reflexivity. Qed.

Lemma erode_set_coverage c (o : Options) : erode (set_coverage c o) = erode o.
Proof. reflexivity. Qed.

Lemma bubbleLen_set_coverage c (o : Options) :
  bubbleLen (set_coverage c o) = bubbleLen o.
Proof. reflexivity. Qed.

Lemma graphPath_set_coverage c (o : Options) :
  graphPath (set_coverage c o) = graphPath o.
Proof. reflexivity. Qed.

(** One step of a run: the head of the computation is run, and a test of the
    source is split into its cases (or settled by a case already taken). *)
Ltac run_step :=
  lazymatch goal with
  | |- holds (bind _ _) _ _ _ => apply holds_bind
  | |- holds (ret _) _ _ _ => apply holds_ret
  | |- holds get_opts _ _ _ => apply holds_get_opts
  | |- holds (put_opts _) _ _ _ => apply holds_put_opts
  | |- holds (emit _) _ _ _ => apply holds_emit
  | |- holds (print_error _) _ _ _ => apply holds_print_error
  | |- holds (write_contigs _ _) _ _ _ => apply holds_write_contigs
  | |- holds (note_emptied _) _ _ _ => apply holds_note_emptied
  | |- holds (exit _) _ _ _ => apply holds_exit
  | |- holds out_of_fuel _ _ _ => apply holds_out_of_fuel
  | |- holds (assert _ _) _ _ _ => apply holds_assert; intros ?
  | |- holds (load_each _ _) _ _ _ => apply holds_load_each
  | |- holds (pass _ _ _) _ _ _ => unfold pass at 1
  | |- holds (do_cleanup _) _ _ _ => unfold do_cleanup at 1
  | |- holds (do_erodeEnds _) _ _ _ => unfold do_erodeEnds at 1
  | |- holds (do_loadSequences _ _) _ _ _ => unfold do_loadSequences at 1
  | |- holds (removeLowCoverageContigs _) _ _ _ => unfold removeLowCoverageContigs at 1
  | |- holds (popBubbles _) _ _ _ => unfold popBubbles at 1
  | |- holds (write_graph _ _) _ _ _ => unfold write_graph at 1
  | |- holds (erosion _) _ _ _ => unfold erosion at 1
  | |- holds (trim _) _ _ _ => unfold trim at 1
  | |- holds (prune _) _ _ _ => unfold prune at 1
  | |- holds (extract _ _) _ _ _ => unfold extract at 1
  | |- holds (if positive (coverage (set_coverage 0 _)) then _ else _) _ _ _ =>
      rewrite positive_zeroed
  | |- holds (if ?c then _ else _) _ _ _ =>
      first [ match goal with H : c = _ |- _ => rewrite H end
            | let E := fresh "E" in destruct c eqn:E ]
  | |- holds (match ?r with (_, _) => _ end) _ _ _ =>
      let E := fresh "E" in destruct r eqn:E
  | |- holds (let _ := _ in _) _ _ _ => cbv zeta
  end;
  cbv beta; cbn [opts log cerr written emptied];
  rewrite ?erode_set_coverage, ?bubbleLen_set_coverage, ?graphPath_set_coverage.

(** A list of calls is a prefix of another: both are flattened and compared
    call by call. *)
Ltac solve_prefix :=
  rewrite <- ?app_assoc; cbn [app];
  repeat first [ apply prefix_nil | reflexivity | apply prefix_cons | apply prefix_app ].

Ltac solve_log :=
  rewrite <- ?app_assoc; cbn [app]; reflexivity.

Ltac use_cases :=
  repeat match goal with
         | H : _ = true |- _ => rewrite H
         | H : _ = false |- _ => rewrite H
         end.

(** What the loop between [erode:] and [goto erode] leaves behind: once
    pruned, the pipeline is not pruned again, so two passes of the label are
    all there can be. *)
Lemma simplify_run (fuel : nat) (g : G) (w : World Contig) :
  let o := opts w in
  holds (simplify (S (S fuel)) g) w
    (fun _ w' =>
       log w' = log w ++ simplify_calls o
       /\ cerr w' = cerr w /\ written w' = written w
       /\ opts w' = (if positive (coverage o) then set_coverage 0 o else o))
    (fun x w' =>
       x = AssertFailed erodeEnds_is_zero
       /\ (exists l, log w' = log w ++ l /\ l `prefix_of` simplify_calls o)
       /\ cerr w' = cerr w ++ [assertion_failed erodeEnds_is_zero]
       /\ written w' = written w
       /\ (opts w' = o \/ opts w' = set_coverage 0 o)).
Proof.
  destruct w as [o lg ce wr em]. cbn [opts log cerr written emptied].
  match goal with |- holds _ _ ?Q ?F => set (post := Q); set (fail := F) end.
  cbn [simplify]. repeat run_step.
  all: subst post fail; cbv beta;
    unfold simplify_calls, erosion_calls, trim_calls, prune_calls; use_cases.
  all: first
    [ solve [ split; [reflexivity|];
              split; [eexists; split; [solve_log|solve_prefix]|];
              split; [reflexivity|]; split; [reflexivity|]; auto ]
    | solve [ split; [solve_log|]; repeat split; reflexivity ] ].
Qed.

(** What a run of [assemble] leaves behind, for each way it can end. *)
Lemma assemble_run (fuel : nat) (pathIn pathOut : string) (w : World Contig) :
  let o := opts w in
  let o1 := tuned o pathIn in
  let head := load_calls o pathIn ++ [EvSetDeletedKey; EvShrink] in
  let tail := simplify_calls o1 ++ finish_calls o1 pathOut in
  holds (assemble (S (S fuel)) pathIn pathOut) w
    (fun _ w' =>
       log w' = log w ++ assemble_calls o o1 pathIn pathOut
       /\ cerr w' = cerr w
       /\ empty (loaded o pathIn) = false
       /\ opts w' = (if positive (coverage o1) then set_coverage 0 o1 else o1)
       /\ exists cs, written w' = written w ++ [(pathOut, cs)]
                     /\ wrap32 (len cs) <> 0)
    (fun x w' =>
       match x with
       | Exit status =>
           status = EXIT_FAILURE
           /\ ((empty (loaded o pathIn) = true
                /\ log w' = log w ++ head
                /\ cerr w' = cerr w ++ [no_usable_sequence]
                /\ written w' = written w /\ emptied w' = emptied w)
               \/ (empty (loaded o pathIn) = false
                   /\ log w' = log w ++ assemble_calls o o1 pathIn pathOut
                   /\ cerr w' = cerr w ++ [no_contigs_assembled]
                   /\ exists cs, written w' = written w ++ [(pathOut, cs)]
                                 /\ wrap32 (len cs) = 0))
       | AssertFailed what =>
           empty (loaded o pathIn) = false
           /\ (exists l,
                 log w' = log w ++ head
                          ++ [EvSetCoverageParameters; EvGenerateAdjacency] ++ l
                 /\ l `prefix_of` tail)
           /\ cerr w' = cerr w ++ [assertion_failed what]
           /\ written w' = written w
       | OutOfFuel => False
       end).
Proof.
  destruct w as [o lg ce wr em]. cbn [opts log cerr written emptied].
  unfold tuned, loaded.
  match goal with |- holds _ _ ?Q ?F => set (post := Q); set (fail := F) end.
  unfold assemble.
  destruct (String.eqb pathIn "") eqn:Ein; cbn [negb].
  all: repeat run_step.
  all: try (eapply holds_weaken; [apply simplify_run| |];
            cbn [opts log cerr written emptied];
            [ intros g1 [o1 lg1 ce1 wr1 em1];
              cbn [opts log cerr written emptied]; intros (-> & -> & -> & ->);
              destruct (positive (coverage _)) eqn:Epos
            | intros x [o1 lg1 ce1 wr1 em1];
              cbn [opts log cerr written emptied];
              intros (-> & (l & -> & Hl) & -> & -> & _) ]).
  all: repeat run_step.
  all: subst post fail; cbv beta iota;
    unfold assemble_calls, finish_calls, load_calls; use_cases.
  all: first
    [ solve [ split; [reflexivity|]; left; repeat split; solve_log ]
    | solve [ split; [reflexivity|]; right; split; [reflexivity|];
              split; [solve_log|]; split; [reflexivity|];
              eexists; split; [reflexivity|]; apply Z.eqb_eq; assumption ]
    | solve [ split; [reflexivity|];
              split; [eexists; split; [solve_log|solve_prefix]|];
              split; reflexivity ]
    | solve [ split; [solve_log|]; split; [reflexivity|]; split; [reflexivity|];
              split; [reflexivity|]; eexists; split; [reflexivity|];
              apply Z.eqb_neq; assumption ]
    | solve [ split; [reflexivity|];
              split; [eexists; split; [cbn [log]; solve_log
                                      |apply prefix_app_r; eassumption]|];
              split; reflexivity ] ].
Qed.

Lemma holds_run {A} (m : M Contig A) (w w' : World Contig) out Q F :
  m w = (out, w') -> holds m w Q F ->
  match out with Ret a => Q a w' | Stop x => F x w' end.
Proof. unfold holds. now intros ->. Qed.

(** *** The restart after pruning *)

(** With a positive coverage threshold, one pass of the label [erode:] either
    fails the assertion on erosion or prunes and goes back to the label, with
    the threshold zeroed, on the collection that [wipeFlag] and [cleanup]
    leave. *)
Lemma simplify_restart (fuel : nat) (g : G) (w : World Contig) :
  positive (coverage (opts w)) = true ->
  (exists w', simplify (S fuel) g w = (Stop (AssertFailed erodeEnds_is_zero), w'))
  \/ (exists g0 w1,
        simplify (S fuel) g w
        = simplify fuel
            (cleanup (wipeFlag (Z.lor SF_MARK_SENSE SF_MARK_ANTISENSE) g0)) w1
        /\ log w1 = log w ++ erosion_calls (opts w) ++ trim_calls ++ prune_calls
        /\ opts w1 = set_coverage 0 (opts w)).
Proof.
  destruct w as [o lg ce wr em]. cbn [opts log]. intros Hpos.
  cbn [simplify]. unfold erosion_calls, trim_calls, prune_calls.
  cbv [bind get_opts erosion trim prune removeLowCoverageContigs pass do_cleanup
       do_erodeEnds emit put_opts note_emptied ret assert
       opts log cerr written emptied].
  destruct (0 <? erode o).
  - destruct (snd (erodeEnds o (fst (erodeEnds o g))) =? 0).
    + rewrite Hpos. right. eexists _, _. split; [reflexivity|].
      cbn [opts log]. split; [solve_log|reflexivity].
    + left. eexists. reflexivity.
  - rewrite Hpos. right. eexists _, _. split; [reflexivity|].
    cbn [opts log]. split; [solve_log|reflexivity].
Qed.

Lemma prefix_filter_length {A} (f : A -> bool) (l1 l2 : list A) :
  l1 `prefix_of` l2 ->
  (length (List.filter f l1) <= length (List.filter f l2))%nat.
Proof. intros [k ->]. rewrite List.filter_app, length_app. lia. Qed.

Lemma filter_loads (f : Event -> bool) (paths : list string) :
  (forall path, f (EvLoadSequences path) = false) ->
  List.filter f (map EvLoadSequences paths) = [].
Proof.
  intros Hf. induction paths as [|path paths IH]; [reflexivity|].
  cbn [map List.filter]. now rewrite Hf.
Qed.

Lemma prune_calls_once (o o1 : Options) (pathIn pathOut : string) :
  (length (List.filter is_prune (assemble_calls o o1 pathIn pathOut)) <= 1)%nat.
Proof.
  unfold assemble_calls, load_calls, simplify_calls, finish_calls, erosion_calls,
    trim_calls, prune_calls.
  rewrite !List.filter_app, filter_loads by reflexivity.
  destruct (String.eqb pathIn ""), (0 <? erode o1), (positive (coverage o1)),
    (0 <? bubbleLen o1), (String.eqb (graphPath o1) ""); cbn; lia.
Qed.

Lemma popBubbles_calls_once (o o1 : Options) (pathIn pathOut : string) :
  (length (List.filter is_popBubbles (assemble_calls o o1 pathIn pathOut)) <= 1)%nat.
Proof.
  unfold assemble_calls, load_calls, simplify_calls, finish_calls, erosion_calls,
    trim_calls, prune_calls.
  rewrite !List.filter_app, filter_loads by reflexivity.
  destruct (String.eqb pathIn ""), (0 <? erode o1), (positive (coverage o1)),
    (0 <? bubbleLen o1), (String.eqb (graphPath o1) ""); cbn; lia.
Qed.

(** The calls of a run of [assemble] are an initial part of the calls of the
    source taken in order, and all of them when the run returns. *)
Lemma assemble_calls_prefix (fuel : nat) (pathIn pathOut : string)
    (w : World Contig) :
  let full := assemble_calls (opts w) (tuned (opts w) pathIn) pathIn pathOut in
  let r := assemble (S (S fuel)) pathIn pathOut w in
  fst r <> Stop OutOfFuel
  /\ exists l, log (snd r) = log w ++ l /\ l `prefix_of` full
               /\ (fst r = Ret tt -> l = full).
Proof.
  intros full r. pose proof (assemble_run fuel pathIn pathOut w) as H.
  unfold holds in H. fold r in H. destruct r as [[[]|x] w']; cbn [fst snd].
  - destruct H as (Hlog & _). split; [discriminate|].
    exists full. split; [assumption|]. split; [reflexivity|auto].
  - destruct x as [status|what|].
    + split; [discriminate|]. destruct H as (_ & [(_ & Hlog & _)|(_ & Hlog & _)]).
      * eexists. split; [exact Hlog|]. split; [|discriminate].
        unfold full, assemble_calls. solve_prefix.
      * exists full. split; [assumption|]. split; [reflexivity|discriminate].
    + split; [discriminate|]. destruct H as (_ & (l & Hlog & Hl) & _).
      eexists. split; [exact Hlog|]. split; [|discriminate].
      unfold full, assemble_calls. rewrite <- !app_assoc. apply prefix_app.
      cbn [app]. do 4 apply prefix_cons. exact Hl.
    + contradiction.
Qed.

(** C8. The passes of one run of [assemble] come in the order of the source:
    loading, adjacency, then erosion (when [opt::erode > 0]), trimming, and,
    when the coverage threshold is positive, pruning followed by erosion and
    trimming once more; then bubble popping (when [opt::bubbleLen > 0]), once,
    after that loop; then ambiguity marking and the extraction of contigs. A
    run that stops early has made an initial part of these calls. *)
Theorem assemble_pass_order (fuel : nat) (pathIn pathOut : string)
    (w : World Contig) :
  let o1 := tuned (opts w) pathIn in
  let full :=
    load_calls (opts w) pathIn
    ++ [EvSetDeletedKey; EvShrink; EvSetCoverageParameters; EvGenerateAdjacency]
    ++ (erosion_calls o1 ++ [EvPerformTrim; EvCleanup]
        ++ (if positive (coverage o1)
            then [EvMarkAmbiguous; EvAssemble None; EvSplitAmbiguous;
                  EvWipeFlag (Z.lor SF_MARK_SENSE SF_MARK_ANTISENSE); EvCleanup]
                 ++ erosion_calls o1 ++ [EvPerformTrim; EvCleanup]
            else []))
    ++ (if 0 <? bubbleLen o1 then [EvPopBubbles] else [])
    ++ (if String.eqb (graphPath o1) "" then [] else [EvWriteGraph (graphPath o1)])
    ++ [EvMarkAmbiguous; EvFastaWriter pathOut; EvAssemble (Some pathOut)] in
  let r := assemble (S (S fuel)) pathIn pathOut w in
  fst r <> Stop OutOfFuel
  /\ exists l, log (snd r) = log w ++ l /\ l `prefix_of` full
               /\ (fst r = Ret tt -> l = full)
               /\ (length (List.filter is_popBubbles l) <= 1)%nat.
Proof.
  intros o1 full r.
  destruct (assemble_calls_prefix fuel pathIn pathOut w) as (Hfuel & l & Hlog & Hl & Hret).
  split; [exact Hfuel|]. exists l. split; [exact Hlog|].
  split; [exact Hl|]. split; [exact Hret|].
  etransitivity; [apply (prefix_filter_length _ _ _ Hl)|].
  apply popBubbles_calls_once.
Qed.

(** C2. In one run of [assemble], [removeLowCoverageContigs] is called at most
    once: its call zeroes the coverage threshold, the pipeline goes back to
    erosion, and the test [opt::coverage > 0] then fails. The loop ends within
    two passes of the label, and a run that returns leaves the threshold at
    zero when it pruned. *)
Theorem prune_at_most_once (fuel : nat) (pathIn pathOut : string)
    (w : World Contig) :
  let o1 := tuned (opts w) pathIn in
  let r := assemble (S (S fuel)) pathIn pathOut w in
  fst r <> Stop OutOfFuel
  /\ (exists l, log (snd r) = log w ++ l
                /\ (length (List.filter is_prune l) <= 1)%nat
                /\ (fst r = Ret tt ->
                    l = assemble_calls (opts w) o1 pathIn pathOut))
  /\ (fst r = Ret tt ->
      positive (coverage (opts (snd r))) = false
      /\ (positive (coverage o1) = true ->
          opts (snd r) = set_coverage 0 o1
          /\ log (snd r)
             = log w
               ++ (load_calls (opts w) pathIn
                   ++ [EvSetDeletedKey; EvShrink; EvSetCoverageParameters;
                       EvGenerateAdjacency]
                   ++ erosion_calls o1 ++ [EvPerformTrim; EvCleanup])
               ++ [EvMarkAmbiguous; EvAssemble None; EvSplitAmbiguous;
                   EvWipeFlag (Z.lor SF_MARK_SENSE SF_MARK_ANTISENSE); EvCleanup]
               ++ (erosion_calls o1 ++ [EvPerformTrim; EvCleanup])
               ++ finish_calls o1 pathOut))
  /\ (forall (n : nat) (g : G) (v : World Contig),
        positive (coverage (opts v)) = true ->
        (exists v', simplify (S n) g v
                    = (Stop (AssertFailed erodeEnds_is_zero), v'))
        \/ (exists g1 v1,
              simplify (S n) g v = simplify n g1 v1
              /\ opts v1 = set_coverage 0 (opts v)
              /\ positive (coverage (opts v1)) = false)).
Proof.
  intros o1 r.
  destruct (assemble_calls_prefix fuel pathIn pathOut w) as (Hfuel & l & Hlog & Hl & Hret).
  split; [exact Hfuel|]. split; [|split].
  - exists l. split; [exact Hlog|]. split; [|exact Hret].
    etransitivity; [apply (prefix_filter_length _ _ _ Hl)|].
    apply prune_calls_once.
  - intros Hr.
    pose proof (assemble_run fuel pathIn pathOut w) as H.
    unfold holds in H. fold r in H. destruct r as [[[]|x] w']; [|discriminate].
    cbn [snd]. destruct H as (Hlog' & _ & _ & -> & _). fold o1 in Hlog' |- *.
    destruct (positive (coverage o1)) eqn:E.
    + split; [reflexivity|]. intros _. split; [reflexivity|].
      rewrite Hlog'. unfold assemble_calls, simplify_calls, trim_calls, prune_calls.
      rewrite E. solve_log.
    + split; [exact E|discriminate].
  - intros n g v Hpos.
    destruct (simplify_restart n g v Hpos) as [Habort|(g0 & v1 & Hrun & _ & Ho)];
      [now left|right].
    eexists _, v1. split; [exact Hrun|]. split; [exact Ho|].
    rewrite Ho. apply positive_zeroed.
Qed.

(** *** An empty collection stays empty *)

Section Emptied.

Hypothesis passes_keep_empty : nothing_from_nothing.

Variable base : list bool.

#[local] Abbreviation empty_since := (empty_since base).
#[local] Abbreviation fatal_since := (fatal_since base).

Lemma keep_erodeEnds o (g : G) :
  empty g = true -> empty (fst (erodeEnds o g)) = true.
Proof. intros E. now apply passes_keep_empty. Qed.
Lemma none_eroded o (g : G) : empty g = true -> snd (erodeEnds o g) = 0.
Proof. intros E. now apply passes_keep_empty. Qed.
Lemma keep_cleanup (g : G) : empty g = true -> empty (cleanup g) = true.
Proof. apply passes_keep_empty. Qed.
Lemma keep_performTrim o (g : G) : empty g = true -> empty (performTrim o g) = true.
Proof. apply passes_keep_empty. Qed.
Lemma keep_markAmbiguous o (g : G) :
  empty g = true -> empty (markAmbiguous o g) = true.
Proof. apply passes_keep_empty. Qed.
Lemma keep_assembleContigs o (g : G) :
  empty g = true -> empty (fst (assembleContigs o g)) = true.
Proof. intros E. now apply passes_keep_empty. Qed.
Lemma none_assembled o (g : G) : empty g = true -> snd (assembleContigs o g) = [].
Proof. intros E. now apply passes_keep_empty. Qed.
Lemma keep_splitAmbiguous o (g : G) :
  empty g = true -> empty (splitAmbiguous o g) = true.
Proof. apply passes_keep_empty. Qed.
Lemma keep_wipeFlag m (g : G) : empty g = true -> empty (wipeFlag m g) = true.
Proof. apply passes_keep_empty. Qed.
Lemma keep_popBubbles o (g : G) :
  empty g = true -> empty (fst (fst (popBubblesInto o g))) = true.
Proof. intros E. now apply passes_keep_empty. Qed.
Lemma popBubbles_good o (g : G) : empty g = true -> snd (popBubblesInto o g) = true.
Proof. intros E. now apply passes_keep_empty. Qed.

(** The emptiness of a collection, from the emptiness of the one it was
    made from. *)
Ltac still_empty :=
  repeat first
    [ assumption
    | apply keep_cleanup | apply keep_performTrim | apply keep_markAmbiguous
    | apply keep_splitAmbiguous | apply keep_wipeFlag | apply keep_erodeEnds
    | apply keep_assembleContigs ].

(** After some steps from a world in which [empty_since] held: the flags
    noted since are those noted before and those of the steps. *)
Ltac since_cases Hl Hin :=
  rewrite <- ?app_assoc in Hl; apply app_inv_head in Hl; subst;
  rewrite ?in_app_iff in Hin; cbn [In app] in Hin.

Lemma empty_since_later (g g' : G) (w w' : World Contig) (bs : list bool) :
  empty_since g w ->
  emptied w' = emptied w ++ bs ->
  (empty g = true -> empty g' = true) ->
  (In true bs -> empty g' = true) ->
  empty_since g' w'.
Proof.
  intros (l & El & Hl) Ew Hg Hbs. exists (l ++ bs). split.
  - now rewrite Ew, El, app_assoc.
  - rewrite in_app_iff. intros [Hin|Hin]; auto.
Qed.

Lemma fatal_since_later (g : G) (w w' : World Contig) (bs : list bool) x :
  empty_since g w ->
  emptied w' = emptied w ++ bs ->
  (empty g = true -> x = Exit EXIT_FAILURE) ->
  (In true bs -> x = Exit EXIT_FAILURE) ->
  fatal_since x w'.
Proof.
  intros (l & El & Hl) Ew Hg Hbs l' El' Hin.
  rewrite Ew, El, <- app_assoc in El'. apply app_inv_head in El'. subst l'.
  apply in_app_iff in Hin as [Hin|Hin]; auto.
Qed.

Ltac noted :=
  cbn [emptied]; rewrite <- ?app_assoc; cbn [app];
  first [ reflexivity | symmetry; apply app_nil_r ].

Ltac one_noted :=
  let H := fresh in
  intros [H|[]]; rewrite H; reflexivity.

Lemma erosion_keeps (g : G) (w : World Contig) :
  empty_since g w ->
  holds (erosion g) w
    (fun g' w' => empty_since g' w' /\ opts w' = opts w) fatal_since.
Proof.
  intros Hw. repeat run_step.
  - split; [|reflexivity].
    eapply (empty_since_later g _ w _ [_] Hw); [noted| |one_noted].
    intros E. still_empty.
  - eapply (fatal_since_later g w _ [] _ Hw); [noted| |intros []].
    intros E. rewrite none_eroded in * by still_empty. discriminate.
Qed.

Lemma trim_keeps (g : G) (w : World Contig) :
  empty_since g w ->
  holds (trim g) w
    (fun g' w' => empty_since g' w' /\ opts w' = opts w) fatal_since.
Proof.
  intros Hw. repeat run_step. split; [|reflexivity].
  eapply (empty_since_later g _ w _ [_] Hw); [noted| |one_noted].
  intros E. still_empty.
Qed.

Lemma prune_keeps (g : G) (w : World Contig) :
  empty_since g w ->
  holds (prune g) w
    (fun g' w' => empty_since g' w' /\ opts w' = set_coverage 0 (opts w))
    fatal_since.
Proof.
  intros Hw. repeat run_step. split; [|reflexivity].
  eapply (empty_since_later g _ w _ [_] Hw); [noted| |one_noted].
  intros E. still_empty.
Qed.

Lemma popBubbles_keeps (g : G) (w : World Contig) :
  empty_since g w -> holds (popBubbles g) w empty_since fatal_since.
Proof.
  intros Hw. repeat run_step.
  - eapply (empty_since_later g _ w _ [] Hw); [noted| |intros []].
    intros Eg. pose proof (keep_popBubbles (opts w) g Eg) as Hk.
    now rewrite E in Hk.
  - eapply (fatal_since_later g w _ [] _ Hw); [noted| |intros []].
    intros Eg. pose proof (popBubbles_good (opts w) g Eg) as Hk.
    rewrite E in Hk. cbn [snd] in Hk. congruence.
Qed.

Lemma write_graph_keeps path (g : G) (w : World Contig) :
  empty_since g w ->
  holds (write_graph path g) w (fun _ w' => empty_since g w') fatal_since.
Proof.
  intros Hw. repeat run_step.
  - exact Hw.
  - eapply (empty_since_later g _ w _ [] Hw); [noted|auto|intros []].
Qed.

Lemma markAmbiguous_keeps (g : G) (w : World Contig) :
  empty_since g w ->
  holds (pass EvMarkAmbiguous markAmbiguous g) w empty_since fatal_since.
Proof.
  intros Hw. repeat run_step.
  eapply (empty_since_later g _ w _ [] Hw); [noted| |intros []].
  intros E. still_empty.
Qed.

Lemma extract_keeps pathOut (g : G) (w : World Contig) :
  empty_since g w ->
  holds (extract pathOut g) w
    (fun _ w' => forall l, emptied w' = base ++ l -> ~ In true l)
    fatal_since.
Proof.
  intros Hw. repeat run_step.
  - intros l El Hin. reflexivity.
  - destruct Hw as (l & El & Hl). intros l' El' Hin. cbn [emptied] in El'.
    rewrite El in El'. apply app_inv_head in El'. subst l'.
    rewrite (none_assembled _ g (Hl Hin)) in E. discriminate.
Qed.

(** One step of a run, block by block. *)
Ltac keep_step :=
  lazymatch goal with
  | |- holds (bind _ _) _ _ _ => apply holds_bind
  | |- holds (ret _) _ _ _ => apply holds_ret
  | |- holds get_opts _ _ _ => apply holds_get_opts
  | |- holds (erosion _) _ _ _ =>
      eapply holds_weaken;
      [apply erosion_keeps; eassumption | intros ? ? [? ?]
      | intros ? ? ?; assumption]
  | |- holds (trim _) _ _ _ =>
      eapply holds_weaken;
      [apply trim_keeps; eassumption | intros ? ? [? ?] | intros ? ? ?; assumption]
  | |- holds (prune _) _ _ _ =>
      eapply holds_weaken;
      [apply prune_keeps; eassumption | intros ? ? [? ?] | intros ? ? ?; assumption]
  | |- holds (popBubbles _) _ _ _ =>
      eapply holds_weaken;
      [apply popBubbles_keeps; eassumption | intros ? ? ? | intros ? ? ?; assumption]
  | |- holds (write_graph _ _) _ _ _ =>
      eapply holds_weaken;
      [apply write_graph_keeps; eassumption | intros ? ? ? | intros ? ? ?; assumption]
  | |- holds (pass EvMarkAmbiguous _ _) _ _ _ =>
      eapply holds_weaken;
      [apply markAmbiguous_keeps; eassumption | intros ? ? ?
      | intros ? ? ?; assumption]
  | |- holds (extract _ _) _ _ _ =>
      eapply holds_weaken;
      [apply extract_keeps; eassumption | intros ? ? ?; assumption
      | intros ? ? ?; assumption]
  | |- holds (if positive (coverage (opts ?w)) then _ else _) _ _ _ =>
      repeat match goal with
             | H : opts ?v = _ |- context [opts ?v] => rewrite H
             end;
      first [ rewrite positive_zeroed
            | let E := fresh "E" in destruct (positive (coverage _)) eqn:E ]
  | |- holds (if ?c then _ else _) _ _ _ =>
      let E := fresh "E" in destruct c eqn:E
  end;
  cbv beta.

Lemma simplify_keeps (fuel : nat) (g : G) (w : World Contig) :
  empty_since g w -> holds (simplify (S (S fuel)) g) w empty_since fatal_since.
Proof.
  intros Hw. cbn [simplify]. repeat keep_step. all: assumption.
Qed.

(** If some [cleanup] of a run of [assemble] leaves the collection empty, the
    run does not return: it ends by [exit(EXIT_FAILURE)]. *)
Lemma assemble_keeps (fuel : nat) (pathIn pathOut : string) (w : World Contig) :
  emptied w = base ->
  holds (assemble (S (S fuel)) pathIn pathOut) w
    (fun _ w' => forall l, emptied w' = base ++ l -> ~ In true l)
    fatal_since.
Proof.
  intros Hw. unfold assemble.
  assert (Hexit : forall w' : World Contig, fatal_since (Exit EXIT_FAILURE) w')
    by (intros w' l _ _; reflexivity).
  destruct (String.eqb pathIn ""); cbn [negb].
  all: repeat run_step; try apply Hexit.
  all: eapply holds_weaken;
    [apply simplify_keeps; exists []; split;
       [cbn [emptied]; now rewrite Hw, app_nil_r|intros []]
    |intros ? ? ?|intros ? ? ?; assumption].
  all: cbv beta; repeat keep_step.
Qed.

End Emptied.


(** *** The assertion on the second [erodeEnds] *)

Lemma simplify_asserted (fuel : nat) :
  (forall o (g : G), snd (erodeEnds o (fst (erodeEnds o g))) = 0) ->
  forall (g : G) (w : World Contig),
    holds (simplify fuel g) w (fun _ _ => True)
      (fun x _ => x <> AssertFailed erodeEnds_is_zero).
Proof.
  intros Hfix. induction fuel as [|fuel IH]; intros g w; cbn [simplify].
  - run_step. discriminate.
  - repeat run_step; try exact I; try apply IH.
    all: match goal with H : (_ =? 0) = false |- _ => now rewrite Hfix in H end.
Qed.

Lemma assemble_asserted (fuel : nat) (pathIn pathOut : string) (w : World Contig) :
  (forall o (g : G), snd (erodeEnds o (fst (erodeEnds o g))) = 0) ->
  holds (assemble fuel pathIn pathOut) w (fun _ _ => True)
    (fun x _ => x <> AssertFailed erodeEnds_is_zero).
Proof.
  intros Hfix. unfold assemble.
  destruct (String.eqb pathIn ""); cbn [negb].
  all: repeat run_step; try discriminate.
  all: eapply holds_weaken;
    [apply simplify_asserted; exact Hfix|intros ? ? _|intros ? ? ?; assumption].
  all: cbv beta; repeat run_step; try exact I; discriminate.
Qed.

(** *** The loop of [main] *)

Lemma iteration_run (fuel : nat) (k : Z) (w : World Contig) :
  iteration fuel k w
  = assemble fuel (path_in (entered k (opts w)) k) (path_out (entered k (opts w)) k)
      (mkWorld (entered k (opts w))
         (log w ++ [EvKmerSetLength (singleKmerSize (opts w)); EvKmerPairSetLength k])
         (cerr w) (written w) (emptied w)).
Proof.
  destruct w as [o lg ce wr em]. unfold iteration, entered.
  unfold bind at 1 2 3 4 5 6 7, get_opts, put_opts, emit, ret.
  cbn [opts log cerr written emptied set_kmerSize kMin singleKmerSize kmerSize].
  rewrite <- app_assoc. cbn [app].
  destruct (kMin o <? k); reflexivity.
Qed.

(** A turn that stops, stops the loop, and with it [main]. *)
Lemma main_loop_stops (turns fuel : nat) (k : Z) (w w' : World Contig) x :
  k <= kMax (opts w) ->
  iteration fuel k w = (Stop x, w') ->
  main_loop (S turns) fuel k w = (Stop x, w').
Proof.
  intros Hk Hrun. cbn [main_loop]. unfold bind at 1, get_opts.
  destruct (Z.leb_spec k (kMax (opts w))); [|lia].
  unfold bind at 1. now rewrite Hrun.
Qed.

Lemma main_stops (turns fuel : nat) (w w' : World Contig) x :
  kMin (opts w) <= kMax (opts w) ->
  iteration fuel (kMin (opts w)) w = (Stop x, w') ->
  main (S turns) fuel w = (Stop x, w').
Proof.
  intros Hk Hrun. unfold main. unfold bind at 1 2, get_opts.
  now rewrite (main_loop_stops turns fuel _ w w' x Hk Hrun).
Qed.

Lemma entered_kMin k (o : Options) : kMin (entered k o) = kMin o.
Proof. unfold entered. cbn. now destruct (kMin o <? k). Qed.
Lemma entered_kMax k (o : Options) : kMax (entered k o) = kMax o.
Proof. unfold entered. cbn. now destruct (kMin o <? k). Qed.
Lemma entered_kStep k (o : Options) : kStep (entered k o) = kStep o.
Proof. unfold entered. cbn. now destruct (kMin o <? k). Qed.
Lemma entered_inFiles k (o : Options) : inFiles (entered k o) = inFiles o.
Proof. unfold entered. cbn. now destruct (kMin o <? k). Qed.
Lemma entered_contigsPath k (o : Options) : contigsPath (entered k o) = contigsPath o.
Proof. unfold entered. cbn. now destruct (kMin o <? k). Qed.

Lemma contigs_k_not_empty k : String.eqb (contigs_k k) "" = false.
Proof. reflexivity. Qed.

Lemma entered_load_calls k (o : Options) :
  load_calls (entered k o) (path_in (entered k o) k)
  = (if kMin o <? k then [EvLoadSequences (contigs_k (wrap32 (k - kStep o)))] else [])
    ++ map EvLoadSequences (inFiles o).
Proof.
  unfold load_calls, path_in. rewrite entered_kMin, entered_kStep, entered_inFiles.
  destruct (kMin o <? k); [now rewrite contigs_k_not_empty|reflexivity].
Qed.

Lemma entered_path_out k (o : Options) :
  path_out (entered k o) k = if k <? kMax o then contigs_k k else contigsPath o.
Proof. unfold path_out. now rewrite entered_kMax, entered_contigsPath. Qed.

(** After the collection is loaded and shrunk, no pass loads a file, and the
    only [FastaWriter] is the one on [pathOut]. *)
Lemma later_calls (o1 : Options) (pathOut : string) (e : Event) :
  In e ([EvSetCoverageParameters; EvGenerateAdjacency]
        ++ simplify_calls o1 ++ finish_calls o1 pathOut) ->
  (forall path, e <> EvLoadSequences path)
  /\ (forall path, e = EvFastaWriter path -> path = pathOut).
Proof.
  unfold simplify_calls, finish_calls, erosion_calls, trim_calls, prune_calls.
  destruct (0 <? erode o1), (positive (coverage o1)), (0 <? bubbleLen o1),
    (String.eqb (graphPath o1) ""); cbn [app In]; intros Hin.
  all: repeat match goal with H : _ \/ _ |- _ => destruct H as [<-|H] end;
    try contradiction.
  all: split; intros path; try discriminate; intros [= <-]; reflexivity.
Qed.

Lemma in_prefix {A} (x : A) (l1 l2 : list A) :
  l1 `prefix_of` l2 -> In x l1 -> In x l2.
Proof. intros [k ->] Hin. apply in_or_app. now left. Qed.

(** C5. At [k = kMin] (and whenever [k > kMin] fails) a turn of the loop of
    [main] loads the read files only; at a larger [k] it first loads
    [contigs-k<k - kStep>.fa], the file that the turn before wrote, and then
    the read files, into a collection made anew; the turn writes its contigs
    to [contigs-k<k>.fa] while [k < kMax] and to the configured path
    otherwise, that is at [k = kMax]; a turn that returns is followed by the
    turn at [k + kStep], whose input name is the output name of this one. *)
Theorem iteration_files (fuel : nat) (k : Z) (w : World Contig) :
  let o := opts w in
  let r := iteration (S (S fuel)) k w in
  let seed := if kMin o <? k
              then [EvLoadSequences (contigs_k (wrap32 (k - kStep o)))] else [] in
  let pathOut := if k <? kMax o then contigs_k k else contigsPath o in
  r = assemble (S (S fuel))
        (if kMin o <? k then contigs_k (wrap32 (k - kStep o)) else "") pathOut
        (mkWorld (entered k o)
           (log w ++ [EvKmerSetLength (singleKmerSize o); EvKmerPairSetLength k])
           (cerr w) (written w) (emptied w))
  /\ inFiles (entered k o) = inFiles o
  /\ (0 <= k < 2 ^ 32 -> 0 <= kStep o < 2 ^ 32 ->
      k < kMax o -> kMin o < wrap32 (k + kStep o) ->
      path_in o (wrap32 (k + kStep o)) = path_out o k)
  /\ (forall turns, k <= kMax o -> fst r = Ret tt ->
      main_loop (S turns) (S (S fuel)) k w
      = main_loop turns (S (S fuel)) (wrap32 (k + kStep (opts (snd r)))) (snd r))
  /\ (exists rest,
     log (snd r)
     = log w ++ [EvKmerSetLength (singleKmerSize o); EvKmerPairSetLength k]
       ++ seed ++ map EvLoadSequences (inFiles o)
       ++ [EvSetDeletedKey; EvShrink] ++ rest
     /\ (forall e, In e rest ->
           (forall path, e <> EvLoadSequences path)
           /\ (forall path, e = EvFastaWriter path -> path = pathOut))
     /\ (fst r = Ret tt -> In (EvFastaWriter pathOut) rest))
  /\ (written (snd r) = written w
      \/ exists cs, written (snd r) = written w ++ [(pathOut, cs)])
  /\ (fst r = Ret tt ->
      exists cs, written (snd r) = written w ++ [(pathOut, cs)] /\ cs <> []).
Proof.
  intros o r seed pathOut.
  assert (Hrun : r = assemble (S (S fuel))
            (if kMin o <? k then contigs_k (wrap32 (k - kStep o)) else "") pathOut
            (mkWorld (entered k o)
               (log w ++ [EvKmerSetLength (singleKmerSize o); EvKmerPairSetLength k])
               (cerr w) (written w) (emptied w))).
  { unfold r. rewrite iteration_run. fold o. rewrite entered_path_out.
    unfold path_in. now rewrite entered_kMin, entered_kStep. }
  split; [exact Hrun|]. split; [apply entered_inFiles|]. split.
  { intros Hk Hs Hlt Hgt. unfold path_in, path_out.
    destruct (Z.ltb_spec (kMin o) (wrap32 (k + kStep o))); [|lia].
    destruct (Z.ltb_spec k (kMax o)); [|lia].
    f_equal. unfold wrap32. rewrite Zminus_mod_idemp_l.
    replace (k + kStep o - kStep o) with k by lia. now apply Z.mod_small. }
  split.
  { intros turns Hk Hret. cbn [main_loop]. unfold bind at 1, get_opts. fold o.
    destruct (Z.leb_spec k (kMax o)); [|lia].
    unfold bind at 1. fold r. destruct r as [[[]|x] w1]; [|discriminate].
    reflexivity. }
  clear Hrun. unfold r. rewrite iteration_run. fold o.
  set (w0 := mkWorld _ _ _ _ _).
  pose proof (assemble_run fuel (path_in (entered k o) k)
                (path_out (entered k o) k) w0) as H.
  unfold holds in H. cbn [opts log cerr written emptied w0] in H.
  unfold assemble_calls in H.
  rewrite entered_load_calls, entered_path_out in H. fold seed pathOut in H.
  rewrite entered_path_out. fold pathOut.
  set (o1 := tuned _ _) in H.
  destruct (assemble _ _ _ w0) as [[[]|x] w']; cbn [fst snd].
  - destruct H as (Hlog & _ & _ & _ & cs & Hw & Hcs). split; [|split].
    + eexists. split; [rewrite Hlog; solve_log|]. split.
      * intros e Hin. now apply (later_calls o1 pathOut).
      * intros _. do 2 right. apply in_or_app. right. unfold finish_calls.
        rewrite !in_app_iff. cbn [In]. auto 10.
    + right. now exists cs.
    + intros _. exists cs. split; [assumption|].
      intros ->. now apply Hcs.
  - destruct x as [status|what|]; [| |contradiction].
    + destruct H as (_ & [(_ & Hlog & _ & Hw & _)|(_ & Hlog & _ & cs & Hw & _)]).
      * split; [|split]; [|now left|discriminate].
        exists []. split; [rewrite Hlog; solve_log|].
        split; [intros e []|discriminate].
      * split; [|split]; [|right; now exists cs|discriminate].
        eexists. split; [rewrite Hlog; solve_log|]. split; [|discriminate].
        intros e Hin. now apply (later_calls o1 pathOut).
    + destruct H as (_ & (l & Hlog & Hl) & _ & Hw).
      split; [|split]; [|now left|discriminate].
      eexists. split; [rewrite Hlog; solve_log|]. split; [|discriminate].
      intros e Hin. apply (later_calls o1 pathOut).
      cbn [app In] in Hin |- *.
      destruct Hin as [<-|[<-|Hin]]; auto. do 2 right.
      now apply (in_prefix e l).
Qed.

(** C6, as the code has it. At every [k > kMin] the loop of [main] resets the
    erosion thresholds to [(unsigned)-1], the coverage threshold to [-1], the
    trim length to [k] and the bubble length to [3 * k] (in [unsigned]
    arithmetic), whatever was configured; at [k = kMin] (and whenever
    [k > kMin] fails) it leaves the five options as they are. *)
Theorem reset_is_unconditional (fuel : nat) (k : Z) (w : World Contig) :
  let o := opts w in
  let o' := entered k o in
  iteration fuel k w
  = assemble fuel (path_in o' k) (path_out o' k)
      (mkWorld o'
         (log w ++ [EvKmerSetLength (singleKmerSize o); EvKmerPairSetLength k])
         (cerr w) (written w) (emptied w))
  /\ (kMin o < k ->
      erode o' = 4294967295 /\ erodeStrand o' = 4294967295
      /\ coverage o' = (-1)%Q /\ trimLen o' = k
      /\ bubbleLen o' = (3 * k) mod 2 ^ 32
      /\ (0 <= 3 * k < 2 ^ 32 -> bubbleLen o' = 3 * k))
  /\ (k <= kMin o ->
      erode o' = erode o /\ erodeStrand o' = erodeStrand o
      /\ coverage o' = coverage o /\ trimLen o' = trimLen o
      /\ bubbleLen o' = bubbleLen o).
Proof.
  intros o o'. split; [apply iteration_run|]. unfold o', entered. split.
  - intros Hk. destruct (Z.ltb_spec (kMin o) k); [|lia]. cbn.
    repeat split. intros H3. unfold wrap32. now apply Z.mod_small.
  - intros Hk. destruct (Z.ltb_spec (kMin o) k); [lia|]. cbn. repeat split.
Qed.

(** A run of [assemble] on a collection that erosion does not leave stable
    stops at the assertion on the second [erodeEnds]: the two calls are the
    last, and [cleanup] is not reached. *)
Lemma assemble_unstable_erosion (fuel : nat) (pathIn pathOut : string)
    (w : World Contig) :
  let o1 := tuned (opts w) pathIn in
  let g0 := generateAdjacency o1 (loaded (opts w) pathIn) in
  empty (loaded (opts w) pathIn) = false ->
  (0 <? erode o1) = true ->
  (snd (erodeEnds o1 (fst (erodeEnds o1 g0))) =? 0) = false ->
  holds (assemble (S fuel) pathIn pathOut) w
    (fun _ _ => False)
    (fun x w' =>
       x = AssertFailed erodeEnds_is_zero
       /\ log w' = log w ++ load_calls (opts w) pathIn
                   ++ [EvSetDeletedKey; EvShrink; EvSetCoverageParameters;
                       EvGenerateAdjacency; EvErodeEnds; EvErodeEnds]
       /\ cerr w' = cerr w ++ [assertion_failed erodeEnds_is_zero]
       /\ written w' = written w /\ emptied w' = emptied w).
Proof.
  destruct w as [o lg ce wr em]. cbn [opts log cerr written emptied].
  unfold tuned, loaded. intros He H1 H2.
  match goal with |- holds _ _ ?Q ?F => set (post := Q); set (fail := F) end.
  unfold assemble.
  destruct (String.eqb pathIn "") eqn:Ein; cbn [negb].
  all: repeat run_step.
  all: cbn [simplify]; repeat run_step.
  all: subst post fail; cbv beta; try congruence.
  all: split; [reflexivity|]; split; [unfold load_calls; use_cases; solve_log|].
  all: repeat split; reflexivity.
Qed.


(** *** The turns of the loop of [main] *)

Section Turns.

Import MultiK.

Hypothesis range_kept : keeps_range.

Lemma same_range_trans (o1 o2 o3 : Options) :
  same_range o1 o2 -> same_range o2 o3 -> same_range o1 o3.
Proof. unfold same_range. intuition congruence. Qed.

Lemma same_range_entered k (o : Options) : same_range o (entered k o).
Proof.
  unfold same_range.
  now rewrite entered_kMin, entered_kMax, entered_kStep, entered_contigsPath.
Qed.

Lemma same_range_set_coverage c (o : Options) : same_range o (set_coverage c o).
Proof. unfold same_range. cbn. auto. Qed.

Lemma path_out_range (o o' : Options) (k : Z) :
  same_range o o' -> path_out o' k = path_out o k.
Proof. intros (_ & E1 & _ & E2). unfold path_out. now rewrite E1, E2. Qed.

(** One turn of the loop: the range of k is as before it, and the turn wrote
    one contig file, with a contig in it when the turn returns. *)
Lemma iteration_written (fuel : nat) (k : Z) (w : World Contig) :
  holds (iteration (S (S fuel)) k) w
    (fun _ w' =>
       same_range (opts w) (opts w')
       /\ exists cs, written w' = written w ++ [(path_out (opts w) k, cs)]
                     /\ cs <> [])
    (fun x w' =>
       x <> OutOfFuel
       /\ (written w' = written w
           \/ exists cs, written w' = written w ++ [(path_out (opts w) k, cs)])).
Proof.
  unfold holds. rewrite iteration_run.
  set (w0 := mkWorld _ _ _ _ _).
  pose proof (assemble_run fuel (path_in (entered k (opts w)) k)
                (path_out (entered k (opts w)) k) w0) as H.
  unfold holds in H. cbn [opts log cerr written emptied w0] in H.
  rewrite (path_out_range (opts w) (entered k (opts w)) k) in *
    by apply same_range_entered.
  set (o1 := tuned _ _) in H.
  assert (Ho1 : same_range (opts w) o1).
  { eapply same_range_trans; [apply same_range_entered|apply range_kept]. }
  destruct (assemble _ _ _ w0) as [[[]|x] w'].
  - destruct H as (_ & _ & _ & Ho & cs & Hw & Hcs). split.
    + rewrite Ho. destruct (positive _); [|exact Ho1].
      eapply same_range_trans; [exact Ho1|apply same_range_set_coverage].
    + exists cs. split; [exact Hw|]. intros ->. now apply Hcs.
  - destruct x as [status|what|]; [| |contradiction].
    + split; [discriminate|].
      destruct H as (_ & [(_ & _ & _ & Hw & _)|(_ & _ & _ & cs & Hw & _)]);
        [now left|right; now exists cs].
    + split; [discriminate|]. left. now destruct H as (_ & _ & _ & Hw).
Qed.

Lemma turns_from_next (k kMax step : Z) :
  0 < step -> k <= kMax ->
  turns_from k kMax step = S (turns_from (k + step) kMax step).
Proof.
  intros Hs Hk. unfold turns_from.
  destruct (Z.leb_spec k kMax); [|lia]. f_equal.
  destruct (Z.leb_spec (k + step) kMax).
  - replace (kMax - k) with (kMax - (k + step) + 1 * step) by lia.
    rewrite Z.div_add by lia.
    pose proof (Z.div_pos (kMax - (k + step)) step ltac:(lia) Hs). lia.
  - rewrite Z.div_small by lia. reflexivity.
Qed.

Lemma turns_from_beyond (k kMax step : Z) : kMax < k -> turns_from k kMax step = O.
Proof. intros H. unfold turns_from. destruct (Z.leb_spec k kMax); [lia|reflexivity]. Qed.

Lemma length_k_values (n : nat) : forall k step, length (k_values n k step) = n.
Proof. induction n as [|n IH]; intros k step; cbn; [reflexivity|now rewrite IH]. Qed.

Lemma main_loop_O (fuel : nat) (k : Z) (w : World Contig) :
  main_loop O fuel k w
  = if k <=? kMax (opts w) then (Stop OutOfFuel, w) else (Ret tt, w).
Proof.
  cbn [main_loop]. unfold bind, get_opts. now destruct (k <=? kMax (opts w)).
Qed.

Lemma main_loop_S (turns fuel : nat) (k : Z) (w : World Contig) :
  main_loop (S turns) fuel k w
  = if k <=? kMax (opts w) then
      match iteration fuel k w with
      | (Ret _, w1) => main_loop turns fuel (wrap32 (k + kStep (opts w1))) w1
      | (Stop x, w1) => (Stop x, w1)
      end
    else (Ret tt, w).
Proof.
  cbn [main_loop]. unfold bind at 1, get_opts.
  destruct (k <=? kMax (opts w)); [|reflexivity].
  unfold bind at 1. destruct (iteration fuel k w) as [[[]|x] w1]; reflexivity.
Qed.

(** The loop of [main] from [k] on: the files it writes are, in order, those
    of the values of k that pass the test, one for each turn it gets to. *)
Lemma main_loop_written (fuel : nat) (o : Options) :
  0 < kStep o -> kMax o + kStep o < 2 ^ 32 ->
  forall (turns : nat) (k : Z) (w : World Contig),
    same_range o (opts w) -> 0 <= k ->
    exists outs,
      written (snd (main_loop turns (S (S fuel)) k w)) = written w ++ outs
      /\ map fst outs
         `prefix_of` map (path_out o)
                       (k_values (turns_from k (kMax o) (kStep o)) k (kStep o))
      /\ (fst (main_loop turns (S (S fuel)) k w) = Ret tt ->
          map fst outs
          = map (path_out o) (k_values (turns_from k (kMax o) (kStep o)) k (kStep o))
          /\ Forall (fun out => snd out <> []) outs)
      /\ ((turns_from k (kMax o) (kStep o) <= turns)%nat ->
          fst (main_loop turns (S (S fuel)) k w) <> Stop OutOfFuel).
Proof.
  intros Hstep Hmax turns.
  induction turns as [|turns IH]; intros k w Hr Hk.
  all: destruct Hr as (E1 & E2 & E3 & E4).
  all: rewrite ?main_loop_O, ?main_loop_S, E2.
  all: destruct (Z.leb_spec k (kMax o)) as [Hle|Hgt].
  - exists []. cbn [fst snd]. rewrite app_nil_r.
    split; [reflexivity|]. split; [apply prefix_nil|]. split; [discriminate|].
    rewrite (turns_from_next k) by lia. lia.
  - exists []. cbn [fst snd]. rewrite app_nil_r, turns_from_beyond by lia.
    split; [reflexivity|]. split; [apply prefix_nil|].
    split; [intros _; split; [reflexivity|constructor]|discriminate].
  - rewrite (turns_from_next k) by lia. cbn [k_values map].
    pose proof (iteration_written fuel k w) as H. unfold holds in H.
    rewrite (path_out_range o (opts w) k) in H by (unfold same_range; auto).
    destruct (iteration (S (S fuel)) k w) as [[[]|x] w1].
    + destruct H as (Hr1 & cs & Hw & Hcs).
      assert (Hr' : same_range o (opts w1)).
      { eapply same_range_trans; [|exact Hr1]. unfold same_range. auto. }
      destruct Hr' as (F1 & F2 & F3 & F4). rewrite F3.
      rewrite wrap32_small by lia.
      destruct (IH (k + kStep o) w1) as (outs & Hws & Hpre & Hret & Hfuel);
        [unfold same_range; auto|lia|].
      exists ((path_out o k, cs) :: outs). rewrite Hws, Hw, <- app_assoc.
      split; [reflexivity|]. cbn [map fst]. split; [now apply prefix_cons|].
      split.
      * intros Hr. destruct (Hret Hr) as [-> Hall].
        split; [reflexivity|]. constructor; assumption.
      * intros Hn. apply Hfuel. lia.
    + destruct H as (Hx & Hw). cbn [fst snd].
      destruct Hw as [Hw|(cs & Hw)].
      * exists []. rewrite app_nil_r. split; [exact Hw|].
        split; [apply prefix_nil|]. split; [discriminate|].
        intros _ [= ->]. now apply Hx.
      * exists [(path_out o k, cs)]. split; [exact Hw|]. cbn [map fst].
        split; [apply prefix_cons, prefix_nil|]. split; [discriminate|].
        intros _ [= ->]. now apply Hx.
  - exists []. cbn [fst snd]. rewrite app_nil_r, turns_from_beyond by lia.
    split; [reflexivity|]. split; [apply prefix_nil|].
    split; [intros _; split; [reflexivity|constructor]|discriminate].
Qed.

Lemma main_run (turns fuel : nat) (w : World Contig) :
  main turns fuel w
  = match main_loop turns fuel (kMin (opts w)) w with
    | (Ret _, w') => (Ret 0, w')
    | (Stop x, w') => (Stop x, w')
    end.
Proof.
  unfold main. unfold bind at 1, get_opts. unfold bind at 1.
  now destruct (main_loop turns fuel (kMin (opts w)) w) as [[[]|x] w'].
Qed.

Lemma same_range_refl (o : Options) : same_range o o.
Proof. unfold same_range. auto. Qed.

(** X12. When no addition of the loop wraps and the bound on the turns is the
    number of values of k, [main] is not short of turns; the contig files it
    writes are, in order, those of [kMin], [kMin + kStep], ... as far as it
    gets; and when it returns 0 it has written one file for each value of k up
    to [kMax], each with a contig in it. *)
Theorem main_one_file_per_k (turns fuel : nat) (w : World Contig) :
  0 < kStep (opts w) -> 0 <= kMin (opts w) ->
  kMax (opts w) + kStep (opts w) < 2 ^ 32 ->
  (length (ks (opts w)) <= turns)%nat ->
  fst (main turns (S (S fuel)) w) <> Stop OutOfFuel
  /\ exists outs,
       written (snd (main turns (S (S fuel)) w)) = written w ++ outs
       /\ map fst outs `prefix_of` map (path_out (opts w)) (ks (opts w))
       /\ (fst (main turns (S (S fuel)) w) = Ret 0 ->
           map fst outs = map (path_out (opts w)) (ks (opts w))
           /\ Forall (fun out => snd out <> []) outs).
Proof.
  intros Hstep Hmin Hmax Hturns. unfold ks in *.
  rewrite length_k_values in Hturns. rewrite main_run.
  destruct (main_loop_written fuel (opts w) Hstep Hmax turns (kMin (opts w)) w
              (same_range_refl _) Hmin) as (outs & Hw & Hpre & Hret & Hfuel).
  destruct (main_loop turns (S (S fuel)) (kMin (opts w)) w) as [[[]|x] w'];
    cbn [fst snd] in *.
  - split; [discriminate|]. exists outs. split; [exact Hw|].
    split; [exact Hpre|]. intros _. now apply Hret.
  - split; [intros [= ->]; now apply Hfuel|]. exists outs.
    split; [exact Hw|]. split; [exact Hpre|discriminate].
Qed.

(** X13. When [setCoverageParameters] keeps the range of k and
    [0 <= kMin <= kMax < 2^32]: with a step of 0, or with [kMax] at
    [UINT_MAX], the test [k <= opt::kMax] never fails, and whatever the bound
    on its turns [main] does not return; it runs until a turn exits or fails
    an assertion. *)
Theorem main_never_returns (turns fuel : nat) (w : World Contig) :
  0 <= kMin (opts w) <= kMax (opts w) -> kMax (opts w) < 2 ^ 32 ->
  kStep (opts w) = 0 \/ kMax (opts w) = 2 ^ 32 - 1 ->
  forall v, fst (main turns (S (S fuel)) w) <> Ret v.
Proof.
  intros Hmin Hmax Hcase v. rewrite main_run.
  assert (Hloop : forall (k : Z) (w1 : World Contig),
            same_range (opts w) (opts w1) -> 0 <= k <= kMax (opts w) ->
            fst (main_loop turns (S (S fuel)) k w1) <> Ret tt).
  { clear v. induction turns as [|n IH]; intros k w1 Hr Hk.
    all: destruct Hr as (E1 & E2 & E3 & E4).
    all: rewrite ?main_loop_O, ?main_loop_S, E2.
    all: destruct (Z.leb_spec k (kMax (opts w))); [|lia].
    - discriminate.
    - pose proof (iteration_written fuel k w1) as Hit. unfold holds in Hit.
      destruct (iteration (S (S fuel)) k w1) as [[[]|x] w2]; [|discriminate].
      destruct Hit as (Hr1 & _).
      assert (Hr' : same_range (opts w) (opts w2)).
      { eapply same_range_trans; [|exact Hr1]. unfold same_range. auto. }
      apply IH; [exact Hr'|]. destruct Hr' as (_ & _ & F3 & _). rewrite F3.
      destruct Hcase as [-> | ->].
      + rewrite Z.add_0_r, wrap32_small by lia. lia.
      + pose proof (Z.mod_pos_bound (k + kStep (opts w)) (2 ^ 32) ltac:(lia)).
        unfold wrap32. lia. }
  specialize (Hloop (kMin (opts w)) w (same_range_refl _) Hmin).
  destruct (main_loop turns (S (S fuel)) (kMin (opts w)) w) as [[[]|x] w'];
    [now contradiction Hloop|discriminate].
Qed.

Lemma k_values_In (n : nat) : forall (k step x : Z),
  In x (k_values n k step) ->
  exists i, 0 <= i < Z.of_nat n /\ x = k + i * step.
Proof.
  induction n as [|n IH]; intros k step x; cbn [k_values In]; [contradiction|].
  intros [<-|Hin]; [exists 0; lia|].
  destruct (IH _ _ _ Hin) as (i & Hi & ->). exists (i + 1). lia.
Qed.

Lemma k_values_last (n : nat) : forall (k step : Z),
  last (k_values (S n) k step) = Some (k + Z.of_nat n * step).
Proof.
  induction n as [|n IH]; intros k step; [cbn; f_equal; lia|].
  change (k_values (S (S n)) k step) with (k :: k_values (S n) (k + step) step).
  rewrite last_cons, IH. cbn [k_values]. f_equal. lia.
Qed.

Lemma last_map {A B} (f : A -> B) (l : list A) :
  last (map f l) = option_map f (last l).
Proof.
  induction l as [|x l IH]; [reflexivity|]. destruct l; [reflexivity|exact IH].
Qed.


End Turns.

(** *** The assertions of [assemble] *)

(** X15. [assemble] fails no assertion but the one on the second [erodeEnds]
    and the one on the bubble file; a failed assertion leaves its line, and
    nothing else, on standard error, and no contig file is opened; when the
    assertion on the bubble file fails, bubble popping was on and was the last
    pass to run, so the graph file is not written either. *)
Theorem assemble_assertions (fuel : nat) (pathIn pathOut : string)
    (w : World Contig) (what : string) :
  let o1 := tuned (opts w) pathIn in
  let r := assemble (S (S fuel)) pathIn pathOut w in
  fst r = Stop (AssertFailed what) ->
  (what = erodeEnds_is_zero \/ what = MultiK.out_good)
  /\ written (snd r) = written w
  /\ cerr (snd r) = cerr w ++ [assertion_failed what]
  /\ (what = MultiK.out_good ->
      (0 <? bubbleLen o1) = true
      /\ log (snd r)
         = log w ++ load_calls (opts w) pathIn
           ++ [EvSetDeletedKey; EvShrink; EvSetCoverageParameters;
               EvGenerateAdjacency]
           ++ simplify_calls o1 ++ [EvPopBubbles]).
Proof.
  intros o1 r.
  assert (Hrun : holds (assemble (S (S fuel)) pathIn pathOut) w (fun _ _ => True)
            (fun x w' =>
               forall what', x = AssertFailed what' ->
                 what' = erodeEnds_is_zero
                 \/ (what' = MultiK.out_good /\ (0 <? bubbleLen o1) = true
                     /\ log w'
                        = log w ++ load_calls (opts w) pathIn
                          ++ [EvSetDeletedKey; EvShrink; EvSetCoverageParameters;
                              EvGenerateAdjacency]
                          ++ simplify_calls o1 ++ [EvPopBubbles]))).
  { subst o1 r. destruct w as [o lg ce wr em]. cbn [opts log cerr written emptied].
    unfold tuned, loaded.
    match goal with |- holds _ _ ?Q ?F => set (post := Q); set (fail := F) end.
    unfold assemble.
    destruct (String.eqb pathIn "") eqn:Ein; cbn [negb].
    all: repeat run_step.
    all: try (eapply holds_weaken; [apply simplify_run| |];
              cbn [opts log cerr written emptied];
              [ intros g1 [o1 lg1 ce1 wr1 em1];
                cbn [opts log cerr written emptied]; intros (-> & -> & -> & ->);
                destruct (positive (coverage _)) eqn:Epos
              | intros x [o1 lg1 ce1 wr1 em1];
                cbn [opts log cerr written emptied];
                intros (-> & _) ]).
    all: repeat run_step.
    all: subst post fail; cbv beta; try exact I.
    all: try (intros what' [=]; fail).
    all: intros what' [= <-].
    all: first [ now left
               | right; split; [reflexivity|];
                 split; [first [reflexivity|assumption]|];
                 cbn [log]; unfold load_calls; use_cases; solve_log ]. }
  intros Hr. pose proof (assemble_run fuel pathIn pathOut w) as Hfacts.
  unfold holds in Hrun, Hfacts. fold r in Hrun, Hfacts.
  destruct r as [[[]|x] w']; cbn [fst snd] in *; [discriminate|].
  injection Hr as ->. destruct Hfacts as (_ & _ & Hce & Hwr).
  split; [destruct (Hrun what eq_refl) as [->|(-> & _)]; auto|].
  split; [exact Hwr|]. split; [exact Hce|].
  intros ->. destruct (Hrun _ eq_refl) as [Hbad|(_ & Hb & Hlog)];
    [discriminate|now split].
Qed.

Lemma list_ascii_of_string_app (s t : string) :
  list_ascii_of_string (s +:+ t) = list_ascii_of_string s ++ list_ascii_of_string t.
Proof.
  induction s as [|c s IH]; [reflexivity|].
  change (String c s +:+ t) with (String c (s +:+ t)).
  cbn [list_ascii_of_string app]. now rewrite IH.
Qed.

Lemma string_app_inv_tail (s t u : string) : s +:+ u = t +:+ u -> s = t.
Proof.
  intros H. apply (f_equal list_ascii_of_string) in H.
  rewrite !list_ascii_of_string_app in H. apply app_inv_tail in H.
  rewrite <- (string_of_list_ascii_of_string s), <- (string_of_list_ascii_of_string t).
  now rewrite H.
Qed.

(** X16. The names of the contig files of different values of k differ, so no
    turn of the loop writes over the [contigs-k<k>.fa] of another. *)
Theorem contigs_k_inj (k k' : Z) : k <> k' -> contigs_k k <> contigs_k k'.
Proof.
  unfold contigs_k. intros Hne H. apply Hne.
  apply (String.app_inj "contigs-k") in H.
  apply string_app_inv_tail in H. now apply pretty_Z_inj in H.
Qed.

(** *** Standard error *)

(** What a run has printed on standard error since [w], by the way it ends:
    one of the two error lines when it exits, and then with [EXIT_FAILURE];
    the line of the assertion when it fails one; nothing when it returns. *)
Lemma iteration_stderr (fuel : nat) (k : Z) (w : World Contig) :
  holds (iteration (S (S fuel)) k) w
    (fun _ w' => cerr w' = cerr w)
    (fun x w' =>
       match x with
       | Exit status =>
           status = EXIT_FAILURE
           /\ exists msg, (msg = no_usable_sequence \/ msg = no_contigs_assembled)
                          /\ cerr w' = cerr w ++ [msg]
       | AssertFailed what => cerr w' = cerr w ++ [assertion_failed what]
       | OutOfFuel => cerr w' = cerr w
       end).
Proof.
  unfold holds. rewrite iteration_run.
  set (w0 := mkWorld _ _ _ _ _).
  pose proof (assemble_run fuel (path_in (entered k (opts w)) k)
                (path_out (entered k (opts w)) k) w0) as H.
  unfold holds in H. cbn [opts log cerr written emptied w0] in H.
  destruct (assemble _ _ _ w0) as [[[]|x] w'].
  - now destruct H as (_ & Hce & _).
  - destruct x as [status|what|]; [| |contradiction].
    + destruct H as (-> & [(_ & _ & Hce & _)|(_ & _ & Hce & _)]).
      all: split; [reflexivity|]; eexists; split; [|exact Hce]; auto.
    + now destruct H as (_ & _ & Hce & _).
Qed.

Lemma main_loop_stderr (fuel turns : nat) : forall (k : Z) (w : World Contig),
  match main_loop turns (S (S fuel)) k w with
  | (Stop (Exit status), w') =>
      status = EXIT_FAILURE
      /\ exists msg, (msg = no_usable_sequence \/ msg = no_contigs_assembled)
                     /\ cerr w' = cerr w ++ [msg]
  | (Stop (AssertFailed what), w') => cerr w' = cerr w ++ [assertion_failed what]
  | (_, w') => cerr w' = cerr w
  end.
Proof.
  induction turns as [|turns IH]; intros k w.
  - rewrite main_loop_O. now destruct (k <=? kMax (opts w)).
  - rewrite main_loop_S. destruct (k <=? kMax (opts w)); [|reflexivity].
    pose proof (iteration_stderr fuel k w) as H. unfold holds in H.
    destruct (iteration (S (S fuel)) k w) as [[[]|x] w1].
    + specialize (IH (wrap32 (k + kStep (opts w1))) w1). rewrite H in IH. exact IH.
    + exact H.
Qed.

(** X20. [main] prints one line on standard error, and only when it does not
    return: a run that exits does so with [EXIT_FAILURE], after the line
    [error: no usable sequence] or [error: no contigs assembled]; a run that
    fails an assertion leaves the line of that assertion; and nothing comes
    before that line, however many turns came first. A run that returns has
    printed nothing. *)
Theorem main_stderr (turns fuel : nat) (w : World Contig) :
  let r := main turns (S (S fuel)) w in
  (forall status, fst r = Stop (Exit status) ->
     status = EXIT_FAILURE
     /\ exists msg, (msg = no_usable_sequence \/ msg = no_contigs_assembled)
                    /\ cerr (snd r) = cerr w ++ [msg])
  /\ (forall what, fst r = Stop (AssertFailed what) ->
        cerr (snd r) = cerr w ++ [assertion_failed what])
  /\ (forall v, fst r = Ret v -> cerr (snd r) = cerr w).
Proof.
  intros r. subst r. rewrite main_run.
  pose proof (main_loop_stderr fuel turns (kMin (opts w)) w) as H.
  destruct (main_loop turns (S (S fuel)) (kMin (opts w)) w) as [[[]|x] w'];
    cbn [fst snd].
  - split; [discriminate|]. split; [discriminate|auto].
  - destruct x as [status|what|].
    + split; [intros s [= <-]; exact H|]. split; discriminate.
    + split; [discriminate|]. split; [intros s [= <-]; exact H|discriminate].
    + split; [discriminate|]. split; discriminate.
Qed.

(** X17. With [kMin] above [kMax] the body of the loop never runs: [main]
    returns 0 with the options as they were, no call made into the assembly,
    no contig file opened and nothing on standard error. (Standard output, on
    which [main] announces the range of k, is left out of [World].) *)
Theorem main_empty_range (turns fuel : nat) (w : World Contig) :
  kMax (opts w) < kMin (opts w) -> main turns fuel w = (Ret 0, w).
Proof.
  intros Hk. rewrite main_run.
  destruct turns; rewrite ?main_loop_O, ?main_loop_S.
  all: destruct (Z.leb_spec (kMin (opts w)) (kMax (opts w))); [lia|reflexivity].
Qed.

End DriverFacts.

(** ** The driver on the graph store *)

Section StoreDriver.

Import PairedDBG.

Context {Contig : Type} `{P : Passes Store.Store Contig}.

(** C1. The erosion of the store (waves until a wave removes nothing) is at
    a fixed point when it returns: a second call on what the first call leaves
    removes no node, changes nothing, and finds nothing to erode. The driver
    enforces this, whatever [erodeEnds] is: the block under [opt::erode > 0]
    calls [erodeEnds] twice and goes on to [cleanup] only when the second call
    returns 0, and otherwise stops at its assertion; so a run of [assemble]
    whose collection, loaded and with its adjacency generated, is not left
    stable by the first call stops there, before any [cleanup]. With the
    erosion of the store for [erodeEnds], no run of [assemble] fails the
    assertion. *)
Theorem erosion_is_a_fixed_point :
  (forall k threshold g,
     Store.erodeEnds k threshold (fst (Store.erodeEnds k threshold g))
     = (fst (Store.erodeEnds k threshold g), 0))
  /\ (forall k threshold g,
        List.filter (Store.erodible threshold) (fst (Store.erodeEnds k threshold g))
        = [])
  /\ (forall g (w : World Contig),
        let second := erodeEnds (opts w) (fst (erodeEnds (opts w) g)) in
        erosion g w
        = if snd second =? 0
          then (Ret (cleanup (fst second)),
                mkWorld (opts w) (log w ++ [EvErodeEnds; EvErodeEnds; EvCleanup])
                  (cerr w) (written w)
                  (emptied w ++ [empty (cleanup (fst second))]))
          else (Stop (AssertFailed erodeEnds_is_zero),
                mkWorld (opts w) (log w ++ [EvErodeEnds; EvErodeEnds])
                  (cerr w ++ [assertion_failed erodeEnds_is_zero]) (written w)
                  (emptied w)))
  /\ (forall (fuel : nat) (pathIn pathOut : string) (w : World Contig),
        let o1 := tuned (opts w) pathIn in
        let g0 := generateAdjacency o1 (loaded (opts w) pathIn) in
        let r := assemble (S fuel) pathIn pathOut w in
        empty (loaded (opts w) pathIn) = false ->
        0 < erode o1 ->
        snd (erodeEnds o1 (fst (erodeEnds o1 g0))) <> 0 ->
        fst r = Stop (AssertFailed erodeEnds_is_zero)
        /\ log (snd r)
           = log w ++ load_calls (opts w) pathIn
             ++ [EvSetDeletedKey; EvShrink; EvSetCoverageParameters;
                 EvGenerateAdjacency; EvErodeEnds; EvErodeEnds]
        /\ written (snd r) = written w /\ emptied (snd r) = emptied w)
  /\ ((forall o g, erodeEnds o g = Store.erodeEnds (kmerSize o) (erode o) g) ->
      forall (fuel : nat) (pathIn pathOut : string) (w : World Contig),
        fst (assemble fuel pathIn pathOut w)
        <> Stop (AssertFailed erodeEnds_is_zero)).
Proof.
  split; [intros k threshold g; apply erodeEnds_again|].
  split; [intros k threshold g; apply erodeEnds_stable|].
  split.
  { intros g [o lg ce wr em] second. subst second.
    cbv [erosion bind do_erodeEnds get_opts emit ret assert do_cleanup
         note_emptied opts log cerr written emptied].
    rewrite <- !app_assoc. cbn [app].
    destruct (snd (erodeEnds o (fst (erodeEnds o g))) =? 0); [|reflexivity].
    rewrite <- !app_assoc. reflexivity. }
  split.
  { intros fuel pathIn pathOut w o1 g0 r He Hpos Hbad.
    pose proof (assemble_unstable_erosion fuel pathIn pathOut w He) as H.
    cbv zeta in H. fold o1 g0 in H.
    specialize (H ltac:(now apply Z.ltb_lt) ltac:(now apply Z.eqb_neq)).
    unfold holds in H. fold r in H.
    destruct r as [[a|x] w']; [contradiction|]. cbn [fst snd].
    destruct H as (-> & Hlog & _ & Hw & Hem). auto. }
  intros Hmodel fuel pathIn pathOut w.
  pose proof (assemble_asserted fuel pathIn pathOut w) as Ha.
  unfold holds in Ha. destruct (assemble fuel pathIn pathOut w) as [[a|x] w'].
  - discriminate.
  - cbn [fst]. intros [= ->]. apply Ha; [|reflexivity].
    intros o g. rewrite !Hmodel. now rewrite erodeEnds_again.
Qed.

(** C7. With a positive coverage threshold, a pass of the label [erode:] that
    gets past the assertion on erosion prunes, and what it hands to the next
    pass of the label has been through [wipeFlag(SF_MARK_SENSE |
    SF_MARK_ANTISENSE)] and [cleanup], the two calls that follow the pruning:
    when these are the operations of the store, no node of it carries either
    mark. *)
Theorem marks_cleared_on_restart (fuel : nat) (g : Store.Store) (w : World Contig) :
  (forall mask g, wipeFlag mask g = Store.wipeFlag mask g) ->
  (forall g, cleanup g = Store.cleanup g) ->
  positive (coverage (opts w)) = true ->
  (exists w', simplify (S fuel) g w = (Stop (AssertFailed erodeEnds_is_zero), w'))
  \/ (exists g1 w1,
        simplify (S fuel) g w = simplify fuel g1 w1
        /\ log w1
           = log w ++ erosion_calls (opts w) ++ [EvPerformTrim; EvCleanup]
             ++ [EvMarkAmbiguous; EvAssemble None; EvSplitAmbiguous;
                 EvWipeFlag (Z.lor SF_MARK_SENSE SF_MARK_ANTISENSE); EvCleanup]
        /\ forall key n, In (key, n) g1 ->
             Z.land (Store.flags n) SF_MARK_SENSE = 0
             /\ Z.land (Store.flags n) SF_MARK_ANTISENSE = 0).
Proof.
  intros Hwipe Hclean Hpos.
  destruct (simplify_restart fuel g w Hpos) as [Habort|(g0 & w1 & Hrun & Hlog & _)];
    [now left|right].
  eexists _, w1. split; [exact Hrun|]. split; [exact Hlog|].
  intros key n Hin. rewrite Hclean, Hwipe in Hin.
  now apply (wiped_after_cleanup _ _ g0 key).
Qed.

End StoreDriver.

(** ** The statements on the example inputs *)

Section Exercised.

Import PairedDBG.

Lemma lex_before_total (a b : list Z) :
  a <> b -> Example.lex_before a b = negb (Example.lex_before b a).
Proof.
  revert b. induction a as [|x a IH]; intros [|y b] Hne; cbn [Example.lex_before];
    try reflexivity; try congruence.
  destruct (Z.ltb_spec x y), (Z.ltb_spec y x); try lia; try reflexivity.
  apply IH. intros ->. apply Hne. f_equal. lia.
Qed.


(** The reads of the example are merged. *)
Lemma mergeReads_overlap_witness :
  exists out,
    MergePairs.mergeReads Example.char_val Example.reverseComplement
      Example.overlap Example.rec1 Example.rec2 = Some out.
Proof.
  destruct (mergeReads_overlap Example.char_val Example.reverseComplement
              Example.overlap Example.rec1 Example.rec2)
    as (out & Hrun & _);
    [reflexivity|reflexivity|reflexivity|vm_compute; reflexivity
    |vm_compute; reflexivity|vm_compute; split; [discriminate|reflexivity]
    |vm_compute; split; [discriminate|reflexivity]|reflexivity|].
  exists out. exact Hrun.
Defined.

(** The pair of the example goes to the merged output. *)
Lemma alignPair_merges_iff_unique_witness :
  exists stats' out',
    MergePairs.alignPair Example.char_val Example.reverseComplement
      Example.alignOverlap Example.pid_below_identity 3
      (MergePairs.mkStats 0 0 0 0 0 0 0 0) (MergePairs.mkOutput [] [] [] [])
      Example.rec1 Example.rec2 = Some (stats', out')
    /\ MergePairs.merged out' <> [].
Proof.
  destruct (alignPair_merges_iff_unique Example.char_val Example.reverseComplement
              Example.alignOverlap Example.pid_below_identity 3
              (MergePairs.mkStats 0 0 0 0 0 0 0 0) (MergePairs.mkOutput [] [] [] [])
              Example.rec1 Example.rec2)
    as (stats' & out' & Hrun & Hiff & _);
    [reflexivity|reflexivity|reflexivity|vm_compute; reflexivity
    |vm_compute; reflexivity| |].
  - intros o [<-|[]]. vm_compute. repeat split; discriminate.
  - exists stats', out'. split; [exact Hrun|]. apply Hiff. reflexivity.
Defined.

(** With the erosion of the store the assertion holds in the run of the
    example; with an erosion that is never done, the run of the example stops
    at the assertion. *)
Lemma erosion_is_a_fixed_point_witness :
  fst (assemble (P := Example.passes) 2 "" "contigs-k4.fa"
         (Example.world Example.options))
  <> Stop (AssertFailed erodeEnds_is_zero)
  /\ fst (assemble (P := Example2.passes_restless) 2 "" "contigs-k4.fa"
            (Example.world Example.options))
     = Stop (AssertFailed erodeEnds_is_zero).
Proof.
  split.
  - destruct (erosion_is_a_fixed_point (P := Example.passes))
      as (_ & _ & _ & _ & Hrun).
    apply Hrun. intros o g. reflexivity.
  - destruct (erosion_is_a_fixed_point (P := Example2.passes_restless))
      as (_ & _ & _ & Hstop & _).
    destruct (Hstop 1%nat "" "contigs-k4.fa" (Example.world Example.options))
      as (Hr & _); [reflexivity|reflexivity|discriminate|exact Hr].
Defined.

(** Without erosion the run of the example prunes and goes back to the label
    with no mark left, also on the node that carried both. *)
Lemma marks_cleared_on_restart_witness :
  exists g1 w1,
    simplify (P := Example.passes) 2 Example.bubble
      (Example.world Example.options_no_erosion)
    = simplify (P := Example.passes) 1 g1 w1
    /\ forall key n, In (key, n) g1 ->
         Z.land (Store.flags n) 1 = 0 /\ Z.land (Store.flags n) 2 = 0.
Proof.
  destruct (marks_cleared_on_restart (P := Example.passes) 1 Example.bubble
              (Example.world Example.options_no_erosion))
    as [(w' & Habort)|(g1 & w1 & Hrun & _ & Hmarks)];
    [intros mask g; reflexivity|intros g; reflexivity|reflexivity| |].
  - vm_compute in Habort. discriminate.
  - exists g1, w1. split; [exact Hrun|exact Hmarks].
Defined.

(** The passes of the example make nothing out of an empty collection. *)
Lemma example_passes_keep_empty : nothing_from_nothing (P := Example.passes).
Proof.
  unfold nothing_from_nothing. cbn.
  repeat split; intros; destruct g; try discriminate; reflexivity.
Qed.



(** C6 as stated fails: the claim lets an explicitly set option survive the
    reset, and the erosion threshold that the example sets to 2 is
    [(unsigned)-1] when [assemble] is entered at [k = 6 > kMin = 4]. *)
Lemma configured_erosion_is_reset :
  erode Example.options = 2
  /\ kMin Example.options < 6
  /\ erode (entered 6 Example.options) = 4294967295
  /\ erode (entered 6 Example.options) <> erode Example.options.
Proof. vm_compute. repeat split; discriminate. Qed.

End Exercised.

(** ** More on the read-pair merger *)

Section MergeMore.

Import MergePairs MergeInputs.

Variable char_val : ascii -> Z.
Variable reverseComplement : Sequence -> Sequence.

#[local] Abbreviation mergeReads := (MergePairs.mergeReads char_val reverseComplement).

(** What [std::copy] leaves at each position of the destination. *)
Lemma copy_lookup {A} (src : list A) (from upto : Z) (dst : list A) (pos : Z) :
  0 <= from <= upto -> upto <= len src -> 0 <= pos ->
  pos + (upto - from) <= len dst ->
  exists out, copy src from upto dst pos = Some out /\ len out = len dst
    /\ (forall p : nat, Z.of_nat p < pos -> out !! p = dst !! p)
    /\ (forall j : nat, Z.of_nat j < upto - from ->
          out !! (Z.to_nat pos + j)%nat = src !! (Z.to_nat from + j)%nat)
    /\ (forall p : nat, pos + (upto - from) <= Z.of_nat p -> out !! p = dst !! p).
Proof.
  intros Hf Hu Hp Hd. unfold copy.
  destruct (Z.leb_spec 0 from); [|lia].
  destruct (Z.leb_spec from upto); [|lia].
  destruct (Z.leb_spec upto (len src)); [|lia].
  destruct (Z.leb_spec 0 pos); [|lia].
  destruct (Z.leb_spec (pos + (upto - from)) (len dst)); [|lia].
  simpl. eexists. split; [reflexivity|]. unfold len in *.
  split; [rewrite !length_app, !length_take, !length_drop; lia|].
  split; [|split].
  - intros p Hlt. rewrite lookup_app_l by (rewrite length_take; lia).
    apply lookup_take_lt. lia.
  - intros j Hj. rewrite lookup_app_r by (rewrite length_take; lia).
    rewrite length_take.
    replace (Z.to_nat pos + j - (Z.to_nat pos `min` length dst))%nat with j by lia.
    rewrite lookup_app_l by (rewrite length_take, length_drop; lia).
    rewrite lookup_take_lt by lia. now rewrite lookup_drop.
  - intros p Hge. rewrite lookup_app_r by (rewrite length_take; lia).
    rewrite lookup_app_r by (rewrite !length_take, length_drop; lia).
    rewrite lookup_drop. f_equal. rewrite !length_take, length_drop. lia.
Qed.

Lemma set_at_inv {A} (l l' : list A) (i : Z) (x : A) :
  set_at l i x = Some l' -> 0 <= i < len l /\ l' = <[Z.to_nat i := x]> l.
Proof.
  unfold set_at. destruct (Z.leb_spec 0 i); simpl; [|discriminate].
  destruct (Z.ltb_spec i (len l)); [|discriminate]. intros [= <-]. split; [lia|done].
Qed.

(** The loop over the overlap writes below [seq1.length()] only: the assertion
    on [pos] guards each write. *)
Lemma fix_overlap_at_after (seq1 qual1 rc_seq2 rc_qual2 : list ascii) (ol i : Z)
    (out out' : list ascii * list ascii) (p : nat) :
  fix_overlap_at char_val seq1 qual1 rc_seq2 rc_qual2 ol i out = Some out' ->
  len seq1 <= Z.of_nat p ->
  fst out' !! p = fst out !! p /\ snd out' !! p = snd out !! p.
Proof.
  destruct out as [os oq]. unfold fix_overlap_at. intros H Hp.
  destruct (0 <=? to_int _); cbn [negb] in H; [|discriminate].
  set (pos := wrap32 _) in *.
  destruct (Z.ltb_spec pos (len seq1)); cbn [andb negb] in H; [|discriminate].
  destruct (_ && _); cbn [negb] in H; [|discriminate].
  destruct (at_ seq1 pos) as [a|]; cbn [mbind option_bind] in H; [|discriminate].
  destruct (at_ rc_seq2 i) as [b|]; cbn [mbind option_bind] in H; [|discriminate].
  destruct (at_ qual1 pos) as [qa|]; cbn [mbind option_bind] in H; [|discriminate].
  destruct (at_ rc_qual2 i) as [qb|]; cbn [mbind option_bind] in H; [|discriminate].
  destruct (Ascii.eqb a b).
  all: destruct (set_at os pos _) as [os'|] eqn:Es; cbn [mbind option_bind] in H;
    [|discriminate].
  all: destruct (set_at oq pos _) as [oq'|] eqn:Eq; cbn [mbind option_bind] in H;
    [|discriminate].
  all: injection H as <-; cbn [fst snd].
  all: apply set_at_inv in Es as [Hs ->]; apply set_at_inv in Eq as [Hq ->].
  all: rewrite !list_lookup_insert_ne by lia; split; reflexivity.
Qed.

Lemma fix_overlap_after (seq1 qual1 rc_seq2 rc_qual2 : list ascii) (ol : Z) (n : nat) :
  forall (i : Z) (out out' : list ascii * list ascii) (p : nat),
    fix_overlap char_val seq1 qual1 rc_seq2 rc_qual2 ol n i out = Some out' ->
    len seq1 <= Z.of_nat p ->
    fst out' !! p = fst out !! p /\ snd out' !! p = snd out !! p.
Proof.
  induction n as [|n IH]; intros i out out' p H Hp; cbn [fix_overlap] in H.
  - destruct (i <? ol); cbn [negb] in H; [discriminate|].
    injection H as <-. split; reflexivity.
  - destruct (i <? ol); cbn [negb] in H; [|injection H as <-; split; reflexivity].
    destruct (fix_overlap_at _ _ _ _ _ _ _ out) as [mid|] eqn:E;
      cbn [mbind option_bind] in H; [|discriminate].
    destruct (IH _ _ _ p H Hp) as [-> ->].
    now apply (fix_overlap_at_after _ _ _ _ _ _ _ _ _ E).
Qed.

(** The whole of a merge on a gapless overlap: the record that comes out, its
    length, and what each of its three parts holds. *)
Lemma mergeReads_gapless (o : overlap_align) (rec1 rec2 : FastqRecord) :
  length (qual rec1) = length (seq rec1) ->
  length (qual rec2) = length (seq rec2) ->
  length (reverseComplement (seq rec2)) = length (seq rec2) ->
  len (seq rec1) < 2 ^ 31 -> len (seq rec2) < 2 ^ 31 ->
  0 <= overlap_t_pos o < 2 ^ 32 ->
  0 <= overlap_h_pos o < len (seq rec2) ->
  isGapless o (seq rec1) = true ->
  let rc2 := reverseComplement (seq rec2) in
  let ol := length_ o in
  exists s q,
    mergeReads o rec1 rec2 = Some (mkFastq (id rec1) (comment rec1) s q)
    /\ overlap_t_pos o + ol = len (seq rec1) /\ 0 < ol <= len (seq rec2)
    /\ len s = len (seq rec1) + len (seq rec2) - ol
    /\ len q = len (seq rec1) + len (seq rec2) - ol
    /\ (forall i, 0 <= i < ol ->
          overlap_fixed_at char_val (seq rec1) (qual rec1) rc2 (rev (qual rec2))
            ol i s q)
    /\ (forall p : nat, Z.of_nat p < overlap_t_pos o ->
          s !! p = seq rec1 !! p /\ q !! p = qual rec1 !! p)
    /\ (forall j : nat, ol <= Z.of_nat j ->
          s !! (length (seq rec1) + (j - Z.to_nat ol))%nat = rc2 !! j
          /\ q !! (length (seq rec1) + (j - Z.to_nat ol))%nat = rev (qual rec2) !! j).
Proof.
  intros Hq1 Hq2 Hrc H1 H2 Ht Hh Hgap rc2 ol.
  destruct (isGapless_inv o (seq rec1) Hgap) as [Hsuf Hpre]; [lia|lia|lia|].
  assert (Lrc : len rc2 = len (seq rec2)) by (unfold len, rc2; now rewrite Hrc).
  assert (Lq1 : len (qual rec1) = len (seq rec1)) by (unfold len; now rewrite Hq1).
  assert (Lq2 : len (rev (qual rec2)) = len rc2)
    by (rewrite len_rev, Lrc; unfold len; now rewrite Hq2).
  unfold MergePairs.mergeReads.
  fold ol rc2 in Hsuf, Hpre |- *. set (seq1 := seq rec1) in *.
  set (L := overlap_t_pos o + ol + len rc2 - overlap_h_pos o - 1).
  assert (HL : L = len seq1 + len rc2 - ol) by (unfold L; lia).
  rewrite (wrap64_small L) by lia.
  rewrite !len_replicate by lia.
  destruct (Z.leb_spec (len rc2) L); [|lia]. rewrite orb_true_r. cbn [negb].
  destruct (copy_lookup seq1 0 (overlap_t_pos o) (replicate (Z.to_nat L) "N"%char) 0)
    as (s1 & -> & Ls1 & _ & Hs1 & _); [lia|lia|lia|rewrite len_replicate; lia|].
  rewrite len_replicate in Ls1 by lia. cbn [mbind option_bind].
  destruct (copy_lookup rc2 (overlap_h_pos o + 1) (len rc2) s1 (overlap_t_pos o + ol))
    as (s2 & -> & Ls2 & Hs2b & Hs2 & _); [lia|lia|lia|lia|].
  cbn [mbind option_bind].
  destruct (copy_lookup (qual rec1) 0 (overlap_t_pos o)
              (replicate (Z.to_nat L) "#"%char) 0)
    as (q1 & -> & Lq1' & _ & Hq1' & _); [lia|lia|lia|rewrite len_replicate; lia|].
  rewrite len_replicate in Lq1' by lia. cbn [mbind option_bind].
  destruct (copy_lookup (rev (qual rec2)) ol (len (rev (qual rec2))) q1 (len seq1))
    as (q2 & -> & Lq2' & Hq2b & Hq2' & _); [lia|lia|lia|lia|].
  cbn [mbind option_bind].
  destruct (fix_overlap_spec char_val seq1 (qual rec1) rc2 (rev (qual rec2)) ol
              ltac:(lia) ltac:(lia) Lq1 Lq2 H1 (Z.to_nat ol) 0 s2 q2)
    as (s & q & Hrun & Ls & Lq & Hin & Hbefore); [lia|lia|lia|lia|].
  rewrite Hrun. cbn [mbind option_bind]. exists s, q. unfold Sequence in *.
  split; [reflexivity|]. split; [exact Hsuf|]. split; [lia|].
  split; [lia|]. split; [lia|]. split; [exact Hin|]. split.
  - intros p Hp. destruct (Hbefore p) as [Es Eq]; [lia|].
    rewrite Es, Eq, Hs2b, Hq2b by lia.
    pose proof (Hs1 p ltac:(lia)) as E1. pose proof (Hq1' p ltac:(lia)) as E2.
    change (Z.to_nat 0 + p)%nat with p in E1, E2. now rewrite E1, E2.
  - intros j Hj.
    destruct (fix_overlap_after _ _ _ _ _ _ _ _ _
                (length seq1 + (j - Z.to_nat ol))%nat Hrun) as [Es Eq];
      [unfold len; lia|]. cbn [fst snd] in Es, Eq. rewrite Es, Eq.
    destruct (Z.lt_ge_cases (Z.of_nat j) (len rc2)) as [Hlt|Hge].
    + pose proof (Hs2 (j - Z.to_nat ol)%nat ltac:(lia)) as E1.
      pose proof (Hq2' (j - Z.to_nat ol)%nat ltac:(lia)) as E2.
      replace (Z.to_nat (overlap_t_pos o + ol) + (j - Z.to_nat ol))%nat
        with (length seq1 + (j - Z.to_nat ol))%nat in E1 by (unfold len in *; lia).
      replace (Z.to_nat (overlap_h_pos o + 1) + (j - Z.to_nat ol))%nat
        with j in E1 by lia.
      replace (Z.to_nat (len seq1) + (j - Z.to_nat ol))%nat
        with (length seq1 + (j - Z.to_nat ol))%nat in E2 by (unfold len in *; lia).
      replace (Z.to_nat ol + (j - Z.to_nat ol))%nat with j in E2 by lia.
      now rewrite E1, E2.
    + rewrite (lookup_ge_None_2 rc2 j) by (unfold len in *; lia).
      rewrite (lookup_ge_None_2 (rev (qual rec2)) j) by (unfold len in *; lia).
      split; apply lookup_ge_None_2; unfold len in *; lia.
Qed.

(** X1. On a gapless overlap [mergeReads] returns a record with the id and the
    comment of read 1, one quality for each base, and as many bases as the two
    reads have together less the overlap, so at least as many as either. *)
Theorem mergeReads_record (o : overlap_align) (rec1 rec2 : FastqRecord) :
  length (qual rec1) = length (seq rec1) ->
  length (qual rec2) = length (seq rec2) ->
  length (reverseComplement (seq rec2)) = length (seq rec2) ->
  len (seq rec1) < 2 ^ 31 -> len (seq rec2) < 2 ^ 31 ->
  0 <= overlap_t_pos o < 2 ^ 32 ->
  0 <= overlap_h_pos o < len (seq rec2) ->
  isGapless o (seq rec1) = true ->
  exists out, mergeReads o rec1 rec2 = Some out
    /\ id out = id rec1 /\ comment out = comment rec1
    /\ len (seq out) = len (seq rec1) + len (seq rec2) - length_ o
    /\ len (qual out) = len (seq out)
    /\ len (seq rec1) <= len (seq out) /\ len (seq rec2) <= len (seq out).
Proof.
  intros Hq1 Hq2 Hrc H1 H2 Ht Hh Hgap.
  destruct (mergeReads_gapless o rec1 rec2 Hq1 Hq2 Hrc H1 H2 Ht Hh Hgap)
    as (s & q & Hrun & Hsuf & Hol & Ls & Lq & _).
  eexists. split; [exact Hrun|]. cbn [id comment seq qual].
  repeat split; lia.
Qed.

(** X2. Outside the overlap the merged read is the reads themselves: before
    the overlap it holds the bases and qualities of read 1, and from the end
    of read 1 on those of the reverse complement of read 2 that lie beyond
    the overlap, in order. *)
Theorem mergeReads_overhang (o : overlap_align) (rec1 rec2 : FastqRecord) :
  length (qual rec1) = length (seq rec1) ->
  length (qual rec2) = length (seq rec2) ->
  length (reverseComplement (seq rec2)) = length (seq rec2) ->
  len (seq rec1) < 2 ^ 31 -> len (seq rec2) < 2 ^ 31 ->
  0 <= overlap_t_pos o < 2 ^ 32 ->
  0 <= overlap_h_pos o < len (seq rec2) ->
  isGapless o (seq rec1) = true ->
  exists out, mergeReads o rec1 rec2 = Some out
    /\ (forall p : nat, Z.of_nat p < len (seq rec1) - length_ o ->
          seq out !! p = seq rec1 !! p /\ qual out !! p = qual rec1 !! p)
    /\ (forall j : nat, length_ o <= Z.of_nat j ->
          seq out !! (length (seq rec1) + (j - Z.to_nat (length_ o)))%nat
          = reverseComplement (seq rec2) !! j
          /\ qual out !! (length (seq rec1) + (j - Z.to_nat (length_ o)))%nat
             = rev (qual rec2) !! j).
Proof.
  intros Hq1 Hq2 Hrc H1 H2 Ht Hh Hgap.
  destruct (mergeReads_gapless o rec1 rec2 Hq1 Hq2 Hrc H1 H2 Ht Hh Hgap)
    as (s & q & Hrun & Hsuf & Hol & _ & _ & _ & Hbefore & Hafter).
  eexists. split; [exact Hrun|]. cbn [seq qual]. split.
  - intros p Hp. apply Hbefore. lia.
  - exact Hafter.
Qed.

(** X3. When the reads agree on the whole overlap, the merged sequence is
    read 1 followed by what the reverse complement of read 2 holds beyond the
    overlap. *)
Theorem mergeReads_agreeing (o : overlap_align) (rec1 rec2 : FastqRecord) :
  length (qual rec1) = length (seq rec1) ->
  length (qual rec2) = length (seq rec2) ->
  length (reverseComplement (seq rec2)) = length (seq rec2) ->
  len (seq rec1) < 2 ^ 31 -> len (seq rec2) < 2 ^ 31 ->
  0 <= overlap_t_pos o < 2 ^ 32 ->
  0 <= overlap_h_pos o < len (seq rec2) ->
  isGapless o (seq rec1) = true ->
  take (Z.to_nat (length_ o)) (reverseComplement (seq rec2))
  = drop (Z.to_nat (overlap_t_pos o)) (seq rec1) ->
  exists out, mergeReads o rec1 rec2 = Some out
    /\ seq out
       = seq rec1 ++ drop (Z.to_nat (length_ o)) (reverseComplement (seq rec2)).
Proof.
  intros Hq1 Hq2 Hrc H1 H2 Ht Hh Hgap Hagree.
  destruct (mergeReads_gapless o rec1 rec2 Hq1 Hq2 Hrc H1 H2 Ht Hh Hgap)
    as (s & q & Hrun & Hsuf & Hol & Ls & _ & Hin & Hbefore & Hafter).
  eexists. split; [exact Hrun|]. cbn [seq]. unfold Sequence in *.
  set (ol := length_ o) in *. set (seq1 := seq rec1) in *.
  set (rc2 := reverseComplement (seq rec2)) in *.
  apply list_eq. intros p.
  destruct (Z.lt_ge_cases (Z.of_nat p) (overlap_t_pos o)) as [Hlow|Hmid].
  - destruct (Hbefore p Hlow) as [-> _].
    rewrite lookup_app_l by (unfold len in *; lia). reflexivity.
  - destruct (Z.lt_ge_cases (Z.of_nat p) (len seq1)) as [Hin1|Hhigh].
    + rewrite lookup_app_l by (unfold len in *; lia).
      destruct (Hin (Z.of_nat p - overlap_t_pos o))
        as (a & b & qa & qb & Ea & Eb & _ & _ & Es & _); [lia|].
      replace (Z.to_nat (len seq1 - ol + (Z.of_nat p - overlap_t_pos o)))
        with p in Ea, Es by lia.
      assert (Eab : rc2 !! Z.to_nat (Z.of_nat p - overlap_t_pos o) = seq1 !! p).
      { rewrite <- (lookup_take_lt rc2 (Z.to_nat ol)) by lia.
        rewrite Hagree, lookup_drop. f_equal. lia. }
      assert (Some b = Some a) as [= ->] by (rewrite <- Eb, <- Ea; exact Eab).
      rewrite Es, Ea. now rewrite Ascii.eqb_refl.
    + rewrite lookup_app_r by (unfold len in *; lia). rewrite lookup_drop.
      destruct (Hafter (Z.to_nat ol + (p - length seq1))%nat) as [E _]; [lia|].
      replace (length seq1 + (Z.to_nat ol + (p - length seq1) - Z.to_nat ol))%nat
        with p in E by (unfold len in *; lia).
      exact E.
Qed.

(** X19. No filler is left in a merged read: each of its bases is the base
    of read 1 at that position or the base of the reverse complement of read 2
    aligned with it, and each of its qualities is one of the two qualities
    there; the ['N'] and ['#'] that [mergeReads] starts from are all written
    over. *)
Theorem mergeReads_no_filler (o : overlap_align) (rec1 rec2 : FastqRecord) :
  length (qual rec1) = length (seq rec1) ->
  length (qual rec2) = length (seq rec2) ->
  length (reverseComplement (seq rec2)) = length (seq rec2) ->
  len (seq rec1) < 2 ^ 31 -> len (seq rec2) < 2 ^ 31 ->
  0 <= overlap_t_pos o < 2 ^ 32 ->
  0 <= overlap_h_pos o < len (seq rec2) ->
  isGapless o (seq rec1) = true ->
  exists out, mergeReads o rec1 rec2 = Some out
    /\ forall (p : nat) (base quality : ascii),
         seq out !! p = Some base -> qual out !! p = Some quality ->
         (seq rec1 !! p = Some base
          \/ (Z.to_nat (overlap_t_pos o) <= p)%nat
             /\ reverseComplement (seq rec2) !! (p - Z.to_nat (overlap_t_pos o))%nat
                = Some base)
         /\ (qual rec1 !! p = Some quality
             \/ (Z.to_nat (overlap_t_pos o) <= p)%nat
                /\ rev (qual rec2) !! (p - Z.to_nat (overlap_t_pos o))%nat
                   = Some quality).
Proof.
  intros Hq1 Hq2 Hrc H1 H2 Ht Hh Hgap.
  destruct (mergeReads_gapless o rec1 rec2 Hq1 Hq2 Hrc H1 H2 Ht Hh Hgap)
    as (s & q & Hrun & Hsuf & Hol & Ls & Lq & Hin & Hbefore & Hafter).
  eexists. split; [exact Hrun|]. cbn [seq qual]. unfold Sequence in *.
  set (ol := length_ o) in *. set (seq1 := seq rec1) in *.
  set (rc2 := reverseComplement (seq rec2)) in *.
  intros p base quality Hs Hq.
  destruct (Z.lt_ge_cases (Z.of_nat p) (overlap_t_pos o)) as [Hlow|Hmid].
  - destruct (Hbefore p Hlow) as [Es Eq]. rewrite Es in Hs. rewrite Eq in Hq.
    split; left; assumption.
  - destruct (Z.lt_ge_cases (Z.of_nat p) (len seq1)) as [Hin1|Hhigh].
    + destruct (Hin (Z.of_nat p - overlap_t_pos o))
        as (a & b & qa & qb & Ea & Eb & Eqa & Eqb & Es & Eq); [lia|].
      replace (Z.to_nat (len seq1 - ol + (Z.of_nat p - overlap_t_pos o)))
        with p in Ea, Eqa, Es, Eq by lia.
      replace (Z.to_nat (Z.of_nat p - overlap_t_pos o))
        with (p - Z.to_nat (overlap_t_pos o))%nat in Eb, Eqb by lia.
      assert (Some base = Some (if Ascii.eqb a b then a else bestBase char_val a b qa qb))
        as [= ->] by (rewrite <- Hs; exact Es).
      assert (Some quality
              = Some (if Ascii.eqb a b then char_max char_val qa qb
                      else char_min char_val qa qb))
        as [= ->] by (rewrite <- Hq; exact Eq).
      unfold bestBase, char_max, char_min.
      split.
      * destruct (Ascii.eqb a b); [now left|].
        destruct (char_gt char_val qa qb); [now left|right; split; [lia|exact Eb]].
      * destruct (Ascii.eqb a b).
        -- destruct (char_gt char_val qb qa); [right; split; [lia|exact Eqb]|now left].
        -- destruct (char_gt char_val qa qb); [right; split; [lia|exact Eqb]|now left].
    + destruct (Hafter (Z.to_nat ol + (p - length seq1))%nat) as [Es Eq]; [lia|].
      replace (length seq1 + (Z.to_nat ol + (p - length seq1) - Z.to_nat ol))%nat
        with p in Es, Eq by (unfold len in *; lia).
      replace (Z.to_nat ol + (p - length seq1))%nat
        with (p - Z.to_nat (overlap_t_pos o))%nat in Es, Eq by (unfold len in *; lia).
      split; right; (split; [lia|]).
      * rewrite <- Es. exact Hs.
      * rewrite <- Eq. exact Hq.
Qed.

(** X4. [isGapless] in the arithmetic of the source: for offsets that fit an
    [unsigned], the test holds exactly when the overlap ends with read 1 and
    its length is [overlap_h_pos + 1] taken modulo [2^32]; an offset beyond
    the end of the read never passes, and for [overlap_h_pos] below
    [UINT_MAX] the length is [overlap_h_pos + 1] itself. *)
Theorem isGapless_iff (o : overlap_align) (s : Sequence) :
  0 <= overlap_t_pos o < 2 ^ 32 -> len s < 2 ^ 63 ->
  (isGapless o s = true
   <-> overlap_t_pos o + length_ o = len s
       /\ length_ o = wrap32 (overlap_h_pos o + 1))
  /\ (len s < overlap_t_pos o -> isGapless o s = false)
  /\ (0 <= overlap_h_pos o < 2 ^ 32 - 1 -> isGapless o s = true ->
      length_ o = overlap_h_pos o + 1).
Proof.
  intros Ht Hs. pose proof (len_nonneg s) as Hn.
  assert (Hw : 0 <= wrap32 (overlap_h_pos o + 1) < 2 ^ 32)
    by (unfold wrap32; apply Z.mod_pos_bound; lia).
  assert (Hiff : isGapless o s = true
                 <-> overlap_t_pos o + length_ o = len s
                     /\ length_ o = wrap32 (overlap_h_pos o + 1)).
  { unfold isGapless. rewrite andb_true_iff, !Z.eqb_eq. split.
    - intros [E1 E2]. split; [|exact E2].
      destruct (Z.le_gt_cases (overlap_t_pos o) (len s)).
      + rewrite wrap64_small in E1 by lia. lia.
      + rewrite wrap64_neg in E1 by lia. lia.
    - intros [E1 E2]. split; [|exact E2]. rewrite wrap64_small by lia. lia. }
  split; [exact Hiff|]. split.
  - intros Hbeyond. apply not_true_is_false. intros E.
    apply Hiff in E. lia.
  - intros Hh E. apply Hiff in E as [_ ->]. apply wrap32_small. lia.
Qed.

Section Files.

Variable alignOverlap : Sequence -> Sequence -> list overlap_align.
Variable pid_below_identity : overlap_align -> bool.
Variable min_matches : Z.
Variable eof_after_last : bool.

#[local] Abbreviation filterAlignments :=
  (MergePairs.filterAlignments pid_below_identity min_matches).
#[local] Abbreviation alignPair :=
  (MergePairs.alignPair char_val reverseComplement alignOverlap
     pid_below_identity min_matches).
#[local] Abbreviation alignFiles :=
  (MergePairs.alignFiles char_val reverseComplement alignOverlap
     pid_below_identity min_matches eof_after_last).
#[local] Abbreviation survivors :=
  (MergePairs.survivors pid_below_identity min_matches).
#[local] Abbreviation first_empty :=
  (MergePairs.first_empty pid_below_identity min_matches).
#[local] Abbreviation well_formed :=
  (MergeInputs.well_formed reverseComplement alignOverlap).
#[local] Abbreviation kept :=
  (MergeInputs.kept reverseComplement alignOverlap pid_below_identity min_matches).
#[local] Abbreviation unique :=
  (MergeInputs.unique reverseComplement alignOverlap pid_below_identity min_matches).

Lemma filter_sublist {A} (f : A -> bool) (l : list A) :
  List.filter f l `sublist_of` l.
Proof.
  induction l as [|x l IH]; cbn [List.filter]; [constructor|].
  destruct (f x); now constructor.
Qed.

Lemma survivors_In (rec : FastqRecord) (l : list overlap_align) (o : overlap_align) :
  In o (survivors rec l)
  <-> In o l /\ min_matches <= overlap_match o /\ pid_below_identity o = false
      /\ isGapless o (seq rec) = true.
Proof.
  unfold MergePairs.survivors, gapless, identical_enough, enough_matches.
  rewrite !filter_In. unfold has_gap, too_few_matches.
  rewrite !negb_true_iff, negb_false_iff, Z.ltb_ge. tauto.
Qed.

(** While something survives, every stage of [filterAlignments] had
    something left. *)
Lemma survived (rec : FastqRecord) (l : list overlap_align) :
  survivors rec l <> [] -> first_empty rec l = Survived.
Proof.
  unfold MergePairs.first_empty, MergePairs.survivors.
  destruct l as [|o l]; [intros H; now contradiction H|].
  destruct (enough_matches min_matches (o :: l)) as [|o1 l1];
    [intros H; now contradiction H|].
  destruct (identical_enough pid_below_identity (o1 :: l1)) as [|o2 l2];
    [intros H; now contradiction H|].
  destruct (gapless rec (o2 :: l2)); [intros H; now contradiction H|reflexivity].
Qed.

Lemma not_survived (rec : FastqRecord) (l : list overlap_align) :
  survivors rec l = [] -> first_empty rec l <> Survived.
Proof.
  unfold MergePairs.first_empty, MergePairs.survivors.
  destruct l as [|o l]; [discriminate|].
  destruct (enough_matches min_matches (o :: l)) as [|o1 l1]; [discriminate|].
  destruct (identical_enough pid_below_identity (o1 :: l1)) as [|o2 l2];
    [discriminate|].
  intros ->. discriminate.
Qed.


(** One turn of the loop of [alignFiles]: what it adds to the outputs and
    which counters it bumps. *)
Lemma alignPair_run (stats : Stats) (out : Output) (rec1 rec2 : FastqRecord) :
  well_formed rec1 rec2 ->
  exists stats' out',
    alignPair stats out rec1 rec2 = Some (stats', out')
    /\ if unique (rec1, rec2) then
         (exists o m,
            kept (rec1, rec2) = [o] /\ mergeReads o rec1 rec2 = Some m
            /\ out' = mkOutput (merged out ++ [m]) (unmerged1 out) (unmerged2 out)
                        (cout out ++ [cout_line o]))
         /\ stats' = bump_merged (bump_total stats)
       else
         out' = mkOutput (merged out) (unmerged1 out ++ [rec1])
                  (unmerged2 out ++ [rec2]) (cout out)
         /\ (stats' = bump_unmerged (bump_no_alignment (bump_total stats))
             \/ stats' = bump_unmerged (bump_low_matches (bump_total stats))
             \/ stats' = bump_unmerged (bump_pid_low (bump_total stats))
             \/ stats' = bump_unmerged (bump_has_indel (bump_total stats))
             \/ stats' = bump_unmerged (bump_too_many (bump_total stats))).
Proof.
  intros (Hq1 & Hq2 & Hrc & H1 & H2 & Hwf).
  unfold MergePairs.alignPair. rewrite filterAlignments_spec.
  cbn [mbind option_bind].
  unfold MergeInputs.unique, MergeInputs.kept. cbn [fst snd].
  set (cands := alignOverlap (seq rec1) (reverseComplement (seq rec2))) in *.
  pose proof (survived rec1 cands) as Hyes.
  pose proof (not_survived rec1 cands) as Hno.
  pose proof (survivors_In rec1 cands) as Hin.
  destruct (survivors rec1 cands) as [|o [|o' rest]].
  - change (len [] =? 1) with false. change (1 <? len []) with false.
    eexists _, _. split; [reflexivity|]. split; [reflexivity|].
    specialize (Hno eq_refl).
    destruct (first_empty rec1 cands); cbn [bump_stage]; auto. now contradiction Hno.
  - change (len [o] =? 1) with true. change (at_ [o] 0) with (Some o).
    cbn [mbind option_bind].
    destruct (proj1 (Hin o)) as (Hc & _ & _ & Hgap); [now left|].
    destruct (Hwf o Hc) as [Ht Hh].
    destruct (mergeReads_gapless o rec1 rec2 Hq1 Hq2 Hrc H1 H2 Ht Hh Hgap)
      as (s & q & Hm & _).
    rewrite Hm. cbn [mbind option_bind]. eexists _, _. split; [reflexivity|].
    rewrite Hyes by discriminate. cbn [bump_stage].
    split; [|reflexivity]. eexists _, _. repeat split. exact Hm.
  - assert (Hbig : (len (o :: o' :: rest) =? 1) = false).
    { apply Z.eqb_neq. unfold len. cbn [length]. lia. }
    assert (Hmany : (1 <? len (o :: o' :: rest)) = true).
    { apply Z.ltb_lt. unfold len. cbn [length]. lia. }
    rewrite Hbig, Hmany. eexists _, _. split; [reflexivity|].
    split; [reflexivity|]. rewrite Hyes by discriminate. cbn [bump_stage]. auto 10.
Qed.

Lemma incr32_next (x n : Z) : 0 <= x <= n -> n + 1 < 2 ^ 32 -> incr32 x = x + 1.
Proof. intros. unfold incr32. apply wrap32_small. lia. Qed.

Lemma accounted_next (n : Z) (stats stats' : Stats) :
  accounted n stats -> 0 <= n -> n + 1 < 2 ^ 32 ->
  stats' = bump_merged (bump_total stats)
  \/ stats' = bump_unmerged (bump_no_alignment (bump_total stats))
  \/ stats' = bump_unmerged (bump_low_matches (bump_total stats))
  \/ stats' = bump_unmerged (bump_pid_low (bump_total stats))
  \/ stats' = bump_unmerged (bump_has_indel (bump_total stats))
  \/ stats' = bump_unmerged (bump_too_many (bump_total stats)) ->
  accounted (n + 1) stats'.
Proof.
  unfold accounted, reasons.
  intros (Ht & Hm & Hu & Hn & Hy & Hl & Hi & Hp & Hsum & Hr) Hn0 Hn1 Hcase.
  destruct stats as [t m u na tm lm hi pl]. cbn in *.
  destruct Hcase as [->|[->|[->|[->|[-> | ->]]]]]; cbn.
  all: rewrite ?(incr32_next t n), ?(incr32_next m n), ?(incr32_next u n),
         ?(incr32_next na n), ?(incr32_next tm n), ?(incr32_next lm n),
         ?(incr32_next hi n), ?(incr32_next pl n) by lia.
  all: lia.
Qed.

(** The loop of [alignFiles] over two files of as many records. *)
Lemma alignFiles_run (reads1 reads2 : list FastqRecord) :
  Forall2 well_formed reads1 reads2 ->
  forall (stats : Stats) (out : Output) (n : Z),
    accounted n stats -> 0 <= n -> n + len reads1 < 2 ^ 32 ->
    exists stats' out',
      alignFiles reads1 reads2 stats out = Some (stats', out')
      /\ accounted (n + len reads1) stats'
      /\ merged_reads stats' - merged_reads stats
         = len (merged out') - len (merged out)
      /\ unmerged_reads stats' - unmerged_reads stats
         = len (unmerged1 out') - len (unmerged1 out)
      /\ unmerged1 out'
         = unmerged1 out
           ++ map fst (List.filter (fun pair => negb (unique pair)) (zip reads1 reads2))
      /\ unmerged2 out'
         = unmerged2 out
           ++ map snd (List.filter (fun pair => negb (unique pair)) (zip reads1 reads2))
      /\ (exists ms, merged out' = merged out ++ ms
            /\ Forall2 (merge_of reverseComplement alignOverlap pid_below_identity
                          min_matches mergeReads)
                 ms (List.filter unique (zip reads1 reads2)))
      /\ cout out'
         = cout out
           ++ flat_map (fun pair => map cout_line (kept pair))
                (List.filter unique (zip reads1 reads2)).
Proof.
  induction 1 as [|rec1 rec2 reads1 reads2 Hwf _ IH]; intros stats out n Hacc Hn0 Hn.
  - cbn. exists stats, out. rewrite !app_nil_r, Z.add_0_r.
    split; [reflexivity|]. split; [assumption|]. split; [lia|]. split; [lia|].
    split; [reflexivity|]. split; [reflexivity|]. split; [|reflexivity].
    exists (@nil FastqRecord). rewrite app_nil_r. split; [reflexivity|constructor].
  - assert (Hlen : len (rec1 :: reads1) = 1 + len reads1)
      by (unfold len; cbn [length]; lia).
    rewrite Hlen in Hn |- *. pose proof (len_nonneg reads1) as Hpos.
    cbn [MergePairs.alignFiles].
    destruct (alignPair_run stats out rec1 rec2 Hwf) as (s1 & o1 & -> & Hcase).
    cbn [mbind option_bind]. cbn [zip zip_with List.filter].
    destruct (unique (rec1, rec2)) eqn:Eu; cbn [negb].
    + destruct Hcase as [(o & m & Hk & Hm & ->) ->].
      assert (Hacc1 : accounted (n + 1) (bump_merged (bump_total stats)))
        by (apply (accounted_next n stats); auto; lia).
      destruct (IH (bump_merged (bump_total stats))
                  (mkOutput (merged out ++ [m]) (unmerged1 out) (unmerged2 out)
                     (cout out ++ [cout_line o])) (n + 1) Hacc1)
        as (s' & o' & -> & Hacc' & Hm' & Hu' & H1' & H2' & (ms & Hms & Hall) & Hc');
        [lia|lia|].
      exists s', o'. split; [reflexivity|]. cbn [merged unmerged1 unmerged2 cout] in *.
      assert (Hmr : 0 <= merged_reads stats <= n)
        by (unfold accounted in Hacc; lia).
      destruct stats as [t mr ur na tm lm hi pl].
      cbn in Hm', Hu', Hmr |- *.
      rewrite (incr32_next mr n) in Hm' by lia.
      split; [now replace (n + (1 + len reads1)) with (n + 1 + len reads1) by lia|].
      split; [unfold len in *; rewrite length_app in Hm'; cbn [length] in Hm'; lia|].
      split; [exact Hu'|]. split; [exact H1'|]. split; [exact H2'|]. split.
      * exists (m :: ms). rewrite Hms, <- app_assoc. split; [reflexivity|].
        constructor; [|exact Hall]. exists o. now split.
      * rewrite Hc', <- app_assoc. cbn [flat_map]. rewrite Hk. reflexivity.
    + destruct Hcase as [-> Hcase].
      assert (Hacc1 : accounted (n + 1) s1)
        by (apply (accounted_next n stats); auto; lia).
      destruct (IH s1 (mkOutput (merged out) (unmerged1 out ++ [rec1])
                         (unmerged2 out ++ [rec2]) (cout out)) (n + 1) Hacc1)
        as (s' & o' & -> & Hacc' & Hm' & Hu' & H1' & H2' & Hms & Hc');
        [lia|lia|].
      exists s', o'. split; [reflexivity|]. cbn [merged unmerged1 unmerged2 cout] in *.
      assert (Hur : 0 <= unmerged_reads stats <= n)
        by (unfold accounted in Hacc; lia).
      assert (Hs1 : merged_reads s1 = merged_reads stats
                    /\ unmerged_reads s1 = unmerged_reads stats + 1).
      { destruct stats as [t mr ur na tm lm hi pl]. cbn in Hur |- *.
        destruct Hcase as [->|[->|[->|[-> | ->]]]]; cbn;
          rewrite (incr32_next ur n) by lia; split; reflexivity. }
      destruct Hs1 as [Em Eu1]. rewrite Em in Hm'. rewrite Eu1 in Hu'.
      split; [now replace (n + (1 + len reads1)) with (n + 1 + len reads1) by lia|].
      split; [exact Hm'|].
      split; [unfold len in *; rewrite length_app in Hu'; cbn [length] in Hu'; lia|].
      cbn [map fst snd].
      split; [now rewrite H1', <- app_assoc|]. split; [now rewrite H2', <- app_assoc|].
      split; [exact Hms|exact Hc'].
Qed.

Lemma accounted_stats0 : accounted 0 stats0.
Proof. unfold accounted, reasons. cbn. lia. Qed.

(** X6. Over two files of as many well-formed records, fewer than [2^32],
    the counters of [alignFiles] add up: every pair is counted, each pair is
    merged or unmerged, each unmerged pair has exactly one reason counted, and
    the counts are those of the records written. *)
Theorem alignFiles_counts (reads1 reads2 : list FastqRecord) :
  Forall2 well_formed reads1 reads2 -> len reads1 < 2 ^ 32 ->
  exists stats out,
    alignFiles reads1 reads2 stats0 output0 = Some (stats, out)
    /\ total_reads stats = len reads1
    /\ merged_reads stats + unmerged_reads stats = total_reads stats
    /\ no_alignment stats + too_many_aligns stats + low_matches stats
       + has_indel stats + pid_low stats = unmerged_reads stats
    /\ merged_reads stats = len (merged out)
    /\ unmerged_reads stats = len (unmerged1 out)
    /\ len (unmerged2 out) = len (unmerged1 out)
    /\ len (cout out) = len (merged out).
Proof.
  intros Hwf Hn.
  destruct (alignFiles_run reads1 reads2 Hwf stats0 output0 0 accounted_stats0)
    as (stats & out & Hrun & Hacc & Hm & Hu & H1 & H2 & (ms & Hms & Hall) & Hc);
    [lia|lia|].
  exists stats, out. split; [exact Hrun|].
  destruct Hacc as (Ht & _ & _ & _ & _ & _ & _ & _ & Hsum & Hr).
  unfold reasons in Hr. cbn in Hm, Hu, H1, H2, Hms, Hc.
  change (len (@nil FastqRecord)) with 0 in Hm, Hu.
  split; [lia|]. split; [lia|]. split; [exact Hr|]. split; [lia|]. split; [lia|].
  split.
  - rewrite H1, H2. unfold len. now rewrite !length_map.
  - rewrite Hc, Hms. unfold len. f_equal.
    apply Forall2_length in Hall. rewrite Hall. clear.
    induction (zip reads1 reads2) as [|pair l IH]; [reflexivity|].
    cbn [List.filter]. destruct (unique pair) eqn:E; [|exact IH].
    cbn [flat_map length]. rewrite length_app, IH, length_map.
    unfold MergeInputs.unique in E. apply Z.eqb_eq in E. unfold len in E. lia.
Qed.

(** X7. Over two such files the unmerged outputs hold, unchanged and in the
    order of the input, the reads of exactly the pairs with no single
    alignment left, the same pairs in both files; the merged output holds one
    record for each other pair, in order, the merge along its one alignment;
    and standard output has one line for each merged record. *)
Theorem alignFiles_outputs (reads1 reads2 : list FastqRecord) :
  Forall2 well_formed reads1 reads2 -> len reads1 < 2 ^ 32 ->
  exists stats out,
    alignFiles reads1 reads2 stats0 output0 = Some (stats, out)
    /\ unmerged1 out
       = map fst (List.filter (fun pair => negb (unique pair)) (zip reads1 reads2))
    /\ unmerged2 out
       = map snd (List.filter (fun pair => negb (unique pair)) (zip reads1 reads2))
    /\ Forall2 (fun m pair =>
                  exists o, kept pair = [o]
                            /\ mergeReads o (fst pair) (snd pair) = Some m)
         (merged out) (List.filter unique (zip reads1 reads2))
    /\ cout out
       = flat_map (fun pair => map (fun o => (length_ o, overlap_match o)) (kept pair))
           (List.filter unique (zip reads1 reads2)).
Proof.
  intros Hwf Hn.
  destruct (alignFiles_run reads1 reads2 Hwf stats0 output0 0 accounted_stats0)
    as (stats & out & Hrun & _ & _ & _ & H1 & H2 & (ms & Hms & Hall) & Hc);
    [lia|lia|].
  exists stats, out. split; [exact Hrun|]. cbn in H1, H2, Hms, Hc.
  split; [exact H1|]. split; [exact H2|]. split; [|exact Hc].
  rewrite Hms. exact Hall.
Qed.

End Files.

End MergeMore.

(** ** The command line of [abyss-align] *)

Section AlignMainFacts.

Import PairedDBG AlignMain.

Context {float : Type}.
Variables USAGE_MESSAGE VERSION_MESSAGE : string.
Variable extract_prefix : string -> string -> string * bool.
Variable extract_identity : string -> float -> float * bool.
Variable extract_min_matches : string -> Z -> Z * bool.
Variable extract_qualityThreshold : string -> Z -> Z * bool.
Variable extract_maxLength : string -> Z -> Z * bool.
#[local] Abbreviation switch :=
  (AlignMain.switch USAGE_MESSAGE VERSION_MESSAGE extract_prefix extract_identity
     extract_min_matches extract_qualityThreshold extract_maxLength).
#[local] Abbreviation option_turn :=
  (AlignMain.option_turn USAGE_MESSAGE VERSION_MESSAGE extract_prefix
     extract_identity extract_min_matches extract_qualityThreshold
     extract_maxLength).
#[local] Abbreviation parse :=
  (AlignMain.parse USAGE_MESSAGE VERSION_MESSAGE extract_prefix extract_identity
     extract_min_matches extract_qualityThreshold extract_maxLength).

Lemma switch_returns (c : Z) (arg : string) (o o' : Options float)
    (die die' eof : bool) (msgs : list string) :
  switch c arg o die = Some (Ret (o', die', eof), msgs) ->
  msgs = [] /\ die' = die || (c =? chr "?") /\ same_scoring o o'.
Proof.
  unfold AlignMain.switch, same_scoring.
  destruct (c =? chr "?") eqn:E; [intros [= <- <- <- <-]; now rewrite orb_true_r|].
  rewrite orb_false_r.
  repeat match goal with
         | |- (if ?b then _ else _) = _ -> _ => destruct b
         | |- (let '(_, _) := ?x in _) = _ -> _ => destruct x
         end.
  all: intros [= <- <- <- <-] || discriminate.
  all: cbn; repeat split; reflexivity.
Qed.

Lemma option_turn_returns (c : Z) (optarg : option string) (o o' : Options float)
    (die die' : bool) (msgs : list string) :
  option_turn c optarg o die = Some (Ret (o', die'), msgs) ->
  msgs = [] /\ die' = die || (c =? chr "?") /\ same_scoring o o'.
Proof.
  unfold AlignMain.option_turn.
  destruct (switch c (default "" optarg) o die) as [[[[[o1 d1] eof]|x] m1]|] eqn:E;
    cbn [mbind option_bind]; [| discriminate..].
  apply switch_returns in E as (-> & -> & Hs).
  destruct optarg as [text|]; [destruct eof; cbn [negb]|].
  all: intros [= <- <- <-] || discriminate.
  all: auto.
Qed.

(** An option loop that comes to its end has printed nothing of its own:
    standard error holds what the calls of [getopt_long] printed; it leaves
    [die] set exactly when it met an unknown option, and the scoring as it
    was. *)
Lemma parse_returns (args : list Getopt) :
  forall (o o' : Options float) (die die' : bool) (cerr cerr' : list string),
    parse args o die cerr = Some (Ret (o', die'), cerr') ->
    cerr' = cerr ++ flat_map diagnostic args
    /\ die' = die || existsb unknown args /\ same_scoring o o'.
Proof.
  induction args as [|[c optarg diag] args IH]; intros o o' die die' cerr cerr'.
  - cbn. intros [= <- <- <-]. rewrite orb_false_r, app_nil_r.
    unfold same_scoring. repeat split; reflexivity.
  - cbn [AlignMain.parse existsb flat_map value AlignMain.optarg diagnostic].
    destruct (option_turn c optarg o die) as [[[[o1 d1]|x] m1]|] eqn:E;
      cbn [mbind option_bind]; [| discriminate..].
    apply option_turn_returns in E as (-> & -> & Hs1).
    intros H. apply IH in H as (-> & -> & Hs2).
    rewrite app_nil_r, <- app_assoc. split; [reflexivity|]. split.
    + unfold unknown. cbn [value]. now rewrite orb_assoc.
    + unfold same_scoring in *. intuition congruence.
Qed.

Lemma parse_app (pre post : list Getopt) :
  forall (o o' : Options float) (die die' : bool) (cerr cerr' : list string),
    parse pre o die cerr = Some (Ret (o', die'), cerr') ->
    parse (pre ++ post) o die cerr = parse post o' die' cerr'.
Proof.
  induction pre as [|call pre IH]; intros o o' die die' cerr cerr'.
  - cbn. now intros [= <- <- <-].
  - cbn [AlignMain.parse app].
    destruct (option_turn (value call) (AlignMain.optarg call) o die)
      as [[[[o1 d1]|x] m1]|];
      cbn [mbind option_bind]; [| discriminate..].
    apply IH.
Qed.

(** X11. No option of the command line changes the scoring of the aligner:
    whatever the options, [alignFiles] runs with a match at 1, a mismatch at
    -2 and gaps at -10000, to open and to extend. *)
Theorem scoring_is_fixed (o o' : Options float) (die : bool) (cerr : list string)
    (args : list Getopt) :
  parse args (alignment_defaults o) false [] = Some (Ret (o', die), cerr) ->
  match_ o' = 1 /\ mismatch o' = -2
  /\ gap_open o' = -10000 /\ gap_extend o' = -10000.
Proof.
  intros Hparse. apply parse_returns in Hparse as (_ & _ & Hs).
  unfold same_scoring in Hs. cbn in Hs. exact Hs.
Qed.

Variable alignFiles_on : Options float -> string -> string
                         -> option (MergePairs.Stats * list string).

#[local] Abbreviation main :=
  (AlignMain.main USAGE_MESSAGE VERSION_MESSAGE extract_prefix extract_identity
     extract_min_matches extract_qualityThreshold extract_maxLength alignFiles_on).

(** X8. [--help] and [--version] end the program at once with
    [EXIT_SUCCESS]: when the options before it were read without an exit,
    unknown ones among them or not, [main] prints the usage (or the version)
    after what [getopt_long] printed of its own for the options up to there,
    and nothing else; neither the options after it nor the file arguments are
    looked at. *)
Theorem help_exits_at_once (o o' : Options float) (die : bool) (cerr : list string)
    (pre post : list Getopt) (c : Z) (optarg : option string)
    (diag : list string) (positional : list string) :
  parse pre (alignment_defaults o) false [] = Some (Ret (o', die), cerr) ->
  c = OPT_HELP \/ c = OPT_VERSION ->
  main o (pre ++ mkGetopt c optarg diag :: post) positional
  = Some (Stop (Exit EXIT_SUCCESS),
          flat_map diagnostic pre ++ diag
          ++ [if c =? OPT_HELP then USAGE_MESSAGE else VERSION_MESSAGE]).
Proof.
  intros Hpre Hc. unfold AlignMain.main.
  rewrite (parse_app pre _ _ _ _ _ _ _ Hpre).
  apply parse_returns in Hpre as (-> & _ & _).
  destruct Hc as [-> | ->]; reflexivity.
Qed.

(** X9. An option whose argument the [switch] does not take to its end is
    fatal where it stands: after what [getopt_long] printed of its own for the
    options up to there, [main] prints [invalid option] for it and exits with
    [EXIT_FAILURE]; the options after it are not read and no file is
    opened. *)
Theorem unread_argument_is_fatal (o o1 o2 : Options float) (die die' : bool)
    (cerr msgs : list string) (pre post : list Getopt) (c : Z)
    (text : string) (diag : list string) (positional : list string) :
  parse pre (alignment_defaults o) false [] = Some (Ret (o1, die), cerr) ->
  switch c text o1 die = Some (Ret (o2, die', false), msgs) ->
  main o (pre ++ mkGetopt c (Some text) diag :: post) positional
  = Some (Stop (Exit EXIT_FAILURE),
          flat_map diagnostic pre ++ diag ++ [invalid_option c text]).
Proof.
  intros Hpre Hsw. unfold AlignMain.main.
  rewrite (parse_app pre _ _ _ _ _ _ _ Hpre).
  apply parse_returns in Hpre as (-> & _ & _).
  cbn [AlignMain.parse value AlignMain.optarg diagnostic].
  unfold AlignMain.option_turn. cbn [default from_option id].
  rewrite Hsw. apply switch_returns in Hsw as (-> & _ & _).
  reflexivity.
Qed.

(** X10. [alignFiles] is reached exactly when no option was unknown and two
    file arguments are left, and then on these two files, with the options
    that the loop set; otherwise [main] says what is wrong with the
    arguments, prints the hint and exits with [EXIT_FAILURE]. When it returns
    it returns 0, after the line of counters. In each case standard error
    holds first what [getopt_long] printed of its own. *)
Theorem two_files_or_failure (o o' : Options float) (die : bool)
    (cerr : list string) (args : list Getopt) (positional : list string) :
  parse args (alignment_defaults o) false [] = Some (Ret (o', die), cerr) ->
  (forall reads1 reads2,
     existsb unknown args = false -> positional = [reads1; reads2] ->
     main o args positional
     = match alignFiles_on o' reads1 reads2 with
       | Some (stats, msgs) =>
           Some (Ret 0, flat_map diagnostic args ++ msgs ++ [stats_message stats])
       | None => None
       end)
  /\ (existsb unknown args = true \/ len positional <> 2 ->
      main o args positional
      = Some (Stop (Exit EXIT_FAILURE),
              flat_map diagnostic args
              ++ (if len positional <? 2 then [missing_arguments] else [])
              ++ (if 2 <? len positional then [too_many_arguments] else [])
              ++ [try_help])).
Proof.
  intros Hparse. unfold AlignMain.main. rewrite Hparse.
  apply parse_returns in Hparse as (-> & -> & _).
  cbn [mbind option_bind orb app]. split.
  - intros reads1 reads2 -> ->.
    change (len [reads1; reads2]) with 2.
    change (at_ [reads1; reads2] 0) with (Some reads1).
    change (at_ [reads1; reads2] 1) with (Some reads2).
    cbn. destruct (alignFiles_on o' reads1 reads2) as [[stats msgs]|]; reflexivity.
  - intros Hbad.
    destruct (Z.ltb_spec (len positional) 2), (Z.ltb_spec 2 (len positional));
      try lia; cbn [app]; rewrite <- ?app_assoc; try reflexivity.
    destruct Hbad as [-> |Hn]; [reflexivity|lia].
Qed.

(** X18. Whatever the prefix, the three files that [alignFiles] opens have
    three different names: no output is written over another. *)
Theorem output_names_differ (prefix : string) :
  unmerged1_name prefix <> unmerged2_name prefix
  /\ unmerged1_name prefix <> merged_name prefix
  /\ unmerged2_name prefix <> merged_name prefix.
Proof.
  unfold unmerged1_name, unmerged2_name, merged_name.
  repeat split; intros H; apply (String.app_inj prefix) in H; discriminate.
Qed.

End AlignMainFacts.

(** ** The further statements on the example inputs *)

Section MoreExercised.

Import PairedDBG.

Lemma example_pair_well_formed (rec2 : MergePairs.FastqRecord) :
  length (MergePairs.qual rec2) = 6%nat -> length (MergePairs.seq rec2) = 6%nat ->
  MergeInputs.well_formed Example.reverseComplement Example.alignOverlap
    Example.rec1 rec2.
Proof.
  intros Hq Hs. unfold MergeInputs.well_formed.
  assert (Hl : len (MergePairs.seq rec2) = 6) by (unfold len; now rewrite Hs).
  split; [reflexivity|]. split; [now rewrite Hq, Hs|].
  split; [unfold Example.reverseComplement; now rewrite length_rev, length_map|].
  split; [vm_compute; reflexivity|]. split; [rewrite Hl; reflexivity|].
  intros o [<-|[]]. rewrite Hl. vm_compute. repeat split; discriminate.
Qed.

(** The merged read of the example has eight bases. *)
Lemma mergeReads_record_witness :
  exists out,
    MergePairs.mergeReads Example.char_val Example.reverseComplement
      Example.overlap Example.rec1 Example.rec2 = Some out
    /\ len (MergePairs.seq out) = 8.
Proof.
  destruct (mergeReads_record Example.char_val Example.reverseComplement
              Example.overlap Example.rec1 Example.rec2)
    as (out & Hrun & _ & _ & Hlen & _);
    [reflexivity|reflexivity|reflexivity|vm_compute; reflexivity
    |vm_compute; reflexivity|vm_compute; split; [discriminate|reflexivity]
    |vm_compute; split; [discriminate|reflexivity]|reflexivity|].
  exists out. split; [exact Hrun|exact Hlen].
Defined.

(** Its first base is the first base of read 1. *)
Lemma mergeReads_overhang_witness :
  exists out,
    MergePairs.mergeReads Example.char_val Example.reverseComplement
      Example.overlap Example.rec1 Example.rec2 = Some out
    /\ MergePairs.seq out !! 0%nat = Some "T"%char.
Proof.
  destruct (mergeReads_overhang Example.char_val Example.reverseComplement
              Example.overlap Example.rec1 Example.rec2)
    as (out & Hrun & Hbefore & _);
    [reflexivity|reflexivity|reflexivity|vm_compute; reflexivity
    |vm_compute; reflexivity|vm_compute; split; [discriminate|reflexivity]
    |vm_compute; split; [discriminate|reflexivity]|reflexivity|].
  exists out. split; [exact Hrun|].
  destruct (Hbefore 0%nat) as [E _]; [vm_compute; reflexivity|exact E].
Defined.

(** Read 1, [TTACGT], and a read 2 of reverse complement [ACGTGG] merge into
    [TTACGTGG]. *)
Lemma mergeReads_agreeing_witness :
  exists out,
    MergePairs.mergeReads Example.char_val Example.reverseComplement
      Example.overlap Example.rec1 Example2.rec2 = Some out
    /\ MergePairs.seq out = list_ascii_of_string "TTACGTGG".
Proof.
  destruct (mergeReads_agreeing Example.char_val Example.reverseComplement
              Example.overlap Example.rec1 Example2.rec2)
    as (out & Hrun & Hseq);
    [reflexivity|reflexivity|reflexivity|vm_compute; reflexivity
    |vm_compute; reflexivity|vm_compute; split; [discriminate|reflexivity]
    |vm_compute; split; [discriminate|reflexivity]|reflexivity|reflexivity|].
  exists out. split; [exact Hrun|exact Hseq].
Defined.

(** The overlap of the example is gapless on read 1. *)
Lemma isGapless_iff_witness :
  MergePairs.isGapless Example.overlap (MergePairs.seq Example.rec1) = true
  <-> 2 + 4 = 6 /\ 4 = wrap32 (3 + 1).
Proof.
  destruct (isGapless_iff Example.overlap (MergePairs.seq Example.rec1))
    as (Hiff & _);
    [vm_compute; split; [discriminate|reflexivity]|vm_compute; reflexivity|].
  exact Hiff.
Defined.

(** The one pair of the example is counted once, as merged. *)
Lemma alignFiles_counts_witness :
  exists stats out,
    MergePairs.alignFiles Example.char_val Example.reverseComplement
      Example.alignOverlap Example.pid_below_identity 3 true
      [Example.rec1] [Example.rec2] MergeInputs.stats0 MergeInputs.output0
    = Some (stats, out)
    /\ MergePairs.total_reads stats = 1.
Proof.
  destruct (alignFiles_counts Example.char_val Example.reverseComplement
              Example.alignOverlap Example.pid_below_identity 3 true
              [Example.rec1] [Example.rec2])
    as (stats & out & Hrun & Ht & _).
  - constructor; [|constructor].
    apply example_pair_well_formed; reflexivity.
  - vm_compute. reflexivity.
  - exists stats, out. split; [exact Hrun|exact Ht].
Defined.

(** Nothing of it goes to the unmerged outputs. *)
Lemma alignFiles_outputs_witness :
  exists stats out,
    MergePairs.alignFiles Example.char_val Example.reverseComplement
      Example.alignOverlap Example.pid_below_identity 3 true
      [Example.rec1] [Example.rec2] MergeInputs.stats0 MergeInputs.output0
    = Some (stats, out)
    /\ MergePairs.unmerged1 out = [] /\ MergePairs.unmerged2 out = [].
Proof.
  destruct (alignFiles_outputs Example.char_val Example.reverseComplement
              Example.alignOverlap Example.pid_below_identity 3 true
              [Example.rec1] [Example.rec2])
    as (stats & out & Hrun & H1 & H2 & _).
  - constructor; [|constructor].
    apply example_pair_well_formed; reflexivity.
  - vm_compute. reflexivity.
  - exists stats, out. split; [exact Hrun|]. split; [exact H1|exact H2].
Defined.

(** [--bogus --help -o run]: the line of [getopt_long] for [--bogus], the
    usage, and [EXIT_SUCCESS]. *)
Lemma help_exits_at_once_witness :
  Example2.align_main Example2.align_options
    [AlignMain.mkGetopt (AlignMain.chr "?") None [Example2.unrecognized];
     AlignMain.mkGetopt AlignMain.OPT_HELP None [];
     AlignMain.mkGetopt (AlignMain.chr "o") (Some "run"%string) []] []
  = Some (Stop (Exit AlignMain.EXIT_SUCCESS),
          [Example2.unrecognized; "usage"%string]).
Proof.
  apply (help_exits_at_once "usage" "version" Example2.extract_prefix
           Example2.extract_identity Example2.extract_number
           Example2.extract_number Example2.extract_number Example2.alignFiles_on
           Example2.align_options
           (AlignMain.alignment_defaults Example2.align_options) true
           [Example2.unrecognized]
           [AlignMain.mkGetopt (AlignMain.chr "?") None [Example2.unrecognized]]
           [AlignMain.mkGetopt (AlignMain.chr "o") (Some "run"%string) []]
           AlignMain.OPT_HELP None [] []).
  - reflexivity.
  - now left.
Defined.

(** [-m 10x]: the extraction of the number stops at [x], and the option is
    invalid. *)
Lemma unread_argument_is_fatal_witness :
  Example2.align_main Example2.align_options
    [AlignMain.mkGetopt (AlignMain.chr "m") (Some "10x"%string) []]
    ["a.fq"%string; "b.fq"%string]
  = Some (Stop (Exit EXIT_FAILURE),
          [AlignMain.invalid_option (AlignMain.chr "m") "10x"]).
Proof.
  apply (unread_argument_is_fatal "usage" "version" Example2.extract_prefix
           Example2.extract_identity Example2.extract_number
           Example2.extract_number Example2.extract_number Example2.alignFiles_on
           Example2.align_options
           (AlignMain.alignment_defaults Example2.align_options)
           (AlignMain.set_min_matches 10
              (AlignMain.alignment_defaults Example2.align_options))
           false false [] [] [] [] (AlignMain.chr "m") "10x" []
           ["a.fq"%string; "b.fq"%string]).
  - reflexivity.
  - reflexivity.
Defined.

(** [--bogus -o run] with one file argument: the line of [getopt_long], then
    the two messages of [main], and [EXIT_FAILURE]. *)
Lemma two_files_or_failure_witness :
  Example2.align_main Example2.align_options
    [AlignMain.mkGetopt (AlignMain.chr "?") None [Example2.unrecognized];
     AlignMain.mkGetopt (AlignMain.chr "o") (Some "run"%string) []]
    ["a.fq"%string]
  = Some (Stop (Exit EXIT_FAILURE),
          [Example2.unrecognized; AlignMain.missing_arguments;
           AlignMain.try_help]).
Proof.
  destruct (two_files_or_failure "usage" "version" Example2.extract_prefix
              Example2.extract_identity Example2.extract_number
              Example2.extract_number Example2.extract_number
              Example2.alignFiles_on Example2.align_options
              (AlignMain.set_prefix "run"
                 (AlignMain.alignment_defaults Example2.align_options))
              true [Example2.unrecognized]
              [AlignMain.mkGetopt (AlignMain.chr "?") None [Example2.unrecognized];
               AlignMain.mkGetopt (AlignMain.chr "o") (Some "run"%string) []]
              ["a.fq"%string])
    as [_ Hbad]; [reflexivity|].
  apply Hbad. now left.
Defined.

(** After [-o run] the gaps still cost 10000. *)
Lemma scoring_is_fixed_witness :
  AlignMain.gap_open
    (AlignMain.set_prefix "run"
       (AlignMain.alignment_defaults Example2.align_options)) = -10000.
Proof.
  destruct (scoring_is_fixed "usage" "version" Example2.extract_prefix
              Example2.extract_identity Example2.extract_number
              Example2.extract_number Example2.extract_number
              Example2.align_options
              (AlignMain.set_prefix "run"
                 (AlignMain.alignment_defaults Example2.align_options))
              false [] [AlignMain.mkGetopt (AlignMain.chr "o") (Some "run"%string) []])
    as (_ & _ & Hgap & _); [reflexivity|exact Hgap].
Defined.

Lemma example2_keeps_range : MultiK.keeps_range (P := Example2.passes).
Proof. intros o g. unfold MultiK.same_range. cbn. auto. Qed.

Lemma example2_bad_keeps_range :
  MultiK.keeps_range (P := Example2.passes_bad_bubbles).
Proof. intros o g. unfold MultiK.same_range. cbn. auto. Qed.

(** With k from 4 to 6 by 2 the run returns after the files of k = 4 and of
    k = 6, the latter under the final name. *)
Lemma main_one_file_per_k_witness :
  exists outs,
    written (snd (main (P := Example2.passes) 2 2
                    (Example2.world (Example2.options 6 2)))) = outs
    /\ map fst outs = ["contigs-k4.fa"%string; "contigs.fa"%string].
Proof.
  destruct (main_one_file_per_k (P := Example2.passes) example2_keeps_range 2 0
              (Example2.world (Example2.options 6 2)))
    as (_ & outs & Hw & _ & Hret);
    [reflexivity|discriminate|reflexivity|vm_compute; lia|].
  exists outs. split; [exact Hw|].
  destruct Hret as [Hnames _]; [vm_compute; reflexivity|].
  rewrite Hnames. vm_compute. reflexivity.
Defined.

(** With a step of 0 five turns do not reach the end of the loop. *)
Lemma main_never_returns_witness :
  fst (main (P := Example2.passes) 5 2 (Example2.world (Example2.options 6 0)))
  <> Ret 0.
Proof.
  apply (main_never_returns (P := Example2.passes) example2_keeps_range 5 0
           (Example2.world (Example2.options 6 0))).
  - vm_compute. split; discriminate.
  - reflexivity.
  - now left.
Defined.


(** With a bubble file that goes bad the run stops at its assertion and
    writes nothing. *)
Lemma assemble_assertions_witness :
  written (snd (assemble (P := Example2.passes_bad_bubbles) 2 "" "contigs.fa"
                  (Example2.world (Example2.options 4 2)))) = [].
Proof.
  destruct (assemble_assertions (P := Example2.passes_bad_bubbles) 0 ""
              "contigs.fa" (Example2.world (Example2.options 4 2)) MultiK.out_good)
    as (_ & Hw & _); [reflexivity|exact Hw].
Defined.

(** With [kMin] at 4 and [kMax] at 3 nothing is done. *)
Lemma main_empty_range_witness :
  main (P := Example2.passes) 1 2 (Example2.world (Example2.options 3 2))
  = (Ret 0, Example2.world (Example2.options 3 2)).
Proof.
  apply (main_empty_range (P := Example2.passes)). vm_compute. reflexivity.
Defined.

(** The names that hold 4 and 6 differ. *)
Lemma contigs_k_inj_witness : contigs_k 4 <> contigs_k 6.
Proof. apply (contigs_k_inj 4 6). lia. Defined.

(** The merged read of the example holds no ['N'] at its first position. *)
Lemma mergeReads_no_filler_witness :
  exists out,
    MergePairs.mergeReads Example.char_val Example.reverseComplement
      Example.overlap Example.rec1 Example.rec2 = Some out
    /\ MergePairs.seq out !! 0%nat <> Some "N"%char.
Proof.
  destruct (mergeReads_no_filler Example.char_val Example.reverseComplement
              Example.overlap Example.rec1 Example.rec2)
    as (out & Hrun & Hall);
    [reflexivity|reflexivity|reflexivity|vm_compute; reflexivity
    |vm_compute; reflexivity|vm_compute; split; [discriminate|reflexivity]
    |vm_compute; split; [discriminate|reflexivity]|reflexivity|].
  exists out. split; [exact Hrun|]. intros Hs.
  destruct (MergePairs.qual out !! 0%nat) as [quality|] eqn:Hq.
  - destruct (Hall 0%nat "N"%char quality Hs Hq) as [[Hb|[_ Hb]] _];
      vm_compute in Hb; discriminate.
  - vm_compute in Hrun. injection Hrun as <-. vm_compute in Hq. discriminate.
Defined.

End MoreExercised.
